(** * slither.io client: visual interpolation, camera and state machine

    A shallow embedding of the [Game] component (the TypeScript class with
    [updateVisuals], [render] and the socket/input handlers) and the
    properties of its specification.

    Conventions of the embedding:
    - a JavaScript [number] is an exact rational ([Q]): rounding, NaN and
      the infinities of IEEE doubles are outside the model, and equality of
      computed numbers is [Qeq] ([==]);
    - [Math.hypot(a, b) > r] is decided on squares, which is the same
      comparison over exact numbers; [Math.PI] is the rational value of the
      double; [Math.cos], [Math.sin] and [Math.atan2] are section variables;
    - point objects and arrays live in a heap indexed by locations, so that
      sharing between the authoritative and the visual bodies can be
      expressed; player records and visual-player records are values;
    - a step that JavaScript cannot run as numbers (reading a field of
      [undefined], spreading the missing tail of an empty array) and a loop
      that runs out of fuel return [None]; a division by zero, which
      JavaScript answers with an infinity or NaN, is outside the model;
    - the map of players is the list of its entries in the order of
      [for (let pid in this.players)]; an object holds each key once, which
      the statements that follow one player through a frame assume
      ([NoDup]);
    - a [game_tick] payload arrives as values and becomes new objects, as
      the deserialisation of a message does. *)

From Stdlib Require Import QArith Qabs Qround Qminmax Lqa ZArith Lia Ascii String.
From stdpp Require Import base gmap strings list fin_maps.

Open Scope Q_scope.

(** ** Numbers *)

Definition Math_PI : Q := 884279719003555 # 281474976710656.

Definition Qgtb (a b : Q) : bool := negb (Qle_bool a b).
Definition Qltb (a b : Q) : bool := negb (Qle_bool b a).

(** [Math.hypot(a, b) > r]. *)
Definition hypot_gt (a b r : Q) : bool :=
  Qltb r 0 || Qgtb (a * a + b * b) (r * r).

(** [v || d] on an optional number: [undefined] and [0] are falsy. *)
Definition orDefault (v : option Q) (d : Q) : Q :=
  match v with
  | Some q => if Qeq_bool q 0 then d else q
  | None => d
  end.

(** [while (diff > Math.PI) diff -= Math.PI * 2] *)
Fixpoint wrapDown (fuel : nat) (diff : Q) : option Q :=
  if Qgtb diff Math_PI then
    match fuel with
    | O => None
    | S fuel' => wrapDown fuel' (diff - Math_PI * 2)
    end
  else Some diff.

(** [while (diff < -Math.PI) diff += Math.PI * 2] *)
Fixpoint wrapUp (fuel : nat) (diff : Q) : option Q :=
  if Qltb diff (- Math_PI) then
    match fuel with
    | O => None
    | S fuel' => wrapUp fuel' (diff + Math_PI * 2)
    end
  else Some diff.

Definition wrapFuel (diff : Q) : nat :=
  Z.to_nat (Qceiling (Qabs diff / (Math_PI * 2))).

(** The two wrapping loops of [updateVisuals], one after the other. *)
Definition wrapDiff (diff : Q) : option Q :=
  d ← wrapDown (wrapFuel diff) diff; wrapUp (wrapFuel diff) d.

(** ** Strings *)

Definition lowerAscii (c : ascii) : ascii :=
  let n := nat_of_ascii c in
  if ((65 <=? n) && (n <=? 90))%nat then ascii_of_nat (n + 32) else c.

Fixpoint toLowerCase (s : string) : string :=
  match s with
  | EmptyString => EmptyString
  | String c rest => String (lowerAscii c) (toLowerCase rest)
  end.

(** A string is truthy when it is not empty. *)
Definition truthy (s : string) : bool :=
  match s with EmptyString => false | _ => true end.

(** ** Data model *)

Abbreviation loc := positive (only parsing).

Record Point := mkPoint { pt_x : Q; pt_y : Q }.

Record Heap := mkHeap {
  points : gmap loc Point;
  arrays : gmap loc (list loc)
}.

Definition emptyHeap : Heap := mkHeap ∅ ∅.

(** An authoritative player as [updateVisuals] and the tick handler read it:
    [body] may be missing. *)
Record Player := mkPlayer {
  p_body : option loc;
  p_angle : Q;
  p_length : Q
}.

Record VisualPlayer := mkVisual {
  vis_x : Q;
  vis_y : Q;
  vis_angle : Q;
  vis_body : loc
}.

Record FoodItem := mkFood {
  food_x : Q;
  food_y : Q;
  food_color : string;
  is_loot : bool
}.

Record FoodDiff := mkFoodDiff {
  added : option (gmap string FoodItem);
  removed : option (list string)
}.

Record Config := mkConfig {
  MAP_SIZE : option Q;
  DEBUG_MODE : bool;
  ZOOM_BASE : option Q;
  ZOOM_DAMPENER : option Q
}.

(** A player of a [game_tick] payload, before it becomes objects. *)
Record PlayerData := mkPlayerData {
  pd_body : option (list Point);
  pd_angle : Q;
  pd_length : Q
}.

Record GameState := mkGameState {
  gs_players : list (string * PlayerData);
  gs_leaderboard : option (list (string * Q));
  gs_food_diff : option FoodDiff
}.

Inductive Emit :=
| input_update (angle : Q)
| boost_update (boosting : bool)
| cheat_boost (mass : Q)
| enter_spectator
| request_respawn.

Record Game := mkGame {
  isConnected : bool;
  myId : string;
  isDead : bool;
  finalScore : Q;
  playerCount : nat;
  myScore : Z;
  spectateMode : bool;
  players : list (string * Player);
  food : gmap string FoodItem;
  leaderboard : list (string * Q);
  visualPlayers : gmap string VisualPlayer;
  camX : Q;
  camY : Q;
  currentScale : Q;
  targetScale : Q;
  lastTime : Q;
  driftAngle : Q;
  config : Config;
  keysPressed : gmap string bool;
  heap : Heap;
  emitted : list Emit
}.

Definition defaultConfig : Config :=
  mkConfig (Some 5000) false (Some 1.8) (Some 2500).

(** The field initialisers of the class; [ngOnInit] stores the start time. *)
Definition initGame (now : Q) : Game :=
  mkGame false ""%string false 0 0 0 false [] ∅ [] ∅ 0 0 1 1 now 0 defaultConfig ∅
         emptyHeap [].

(** ** Heap operations *)

Definition allocPoint (h : Heap) (p : Point) : loc * Heap :=
  let l := fresh (dom (points h)) in
  (l, mkHeap (<[l := p]> (points h)) (arrays h)).

Definition allocArray (h : Heap) (elems : list loc) : loc * Heap :=
  let a := fresh (dom (arrays h)) in
  (a, mkHeap (points h) (<[a := elems]> (arrays h))).

Definition writePoint (h : Heap) (l : loc) (p : Point) : Heap :=
  mkHeap (<[l := p]> (points h)) (arrays h).

Definition writeArray (h : Heap) (a : loc) (elems : list loc) : Heap :=
  mkHeap (points h) (<[a := elems]> (arrays h)).

(** [ls.map((b) => ({ x: b.x, y: b.y }))], the elements. *)
Fixpoint copyPoints (h : Heap) (ls : list loc) : option (Heap * list loc) :=
  match ls with
  | [] => Some (h, [])
  | b :: rest =>
      pb ← points h !! b;
      let '(l, h1) := allocPoint h (mkPoint (pt_x pb) (pt_y pb)) in
      '(h2, ls') ← copyPoints h1 rest;
      Some (h2, l :: ls')
  end.

(** [body.map((b) => ({ x: b.x, y: b.y }))] on the array at [pa]. *)
Definition copyBody (h : Heap) (pa : loc) : option (Heap * loc) :=
  pal ← arrays h !! pa;
  '(h1, ls) ← copyPoints h pal;
  let '(a, h2) := allocArray h1 ls in
  Some (h2, a).

(** [while (vis.body.length < p.body.length)
       vis.body.push({ ...vis.body[vis.body.length - 1] })] *)
Fixpoint growBody (fuel : nat) (h : Heap) (vb pa : loc) : option Heap :=
  vbl ← arrays h !! vb;
  pal ← arrays h !! pa;
  if (length vbl <? length pal)%nat then
    match fuel with
    | O => None
    | S fuel' =>
        tl ← last vbl;
        pt ← points h !! tl;
        let '(l, h1) := allocPoint h (mkPoint (pt_x pt) (pt_y pt)) in
        growBody fuel' (writeArray h1 vb (vbl ++ [l])) vb pa
    end
  else Some h.

(** [while (vis.body.length > p.body.length) vis.body.pop()] *)
Fixpoint shrinkBody (fuel : nat) (h : Heap) (vb pa : loc) : option Heap :=
  vbl ← arrays h !! vb;
  pal ← arrays h !! pa;
  if (length pal <? length vbl)%nat then
    match fuel with
    | O => None
    | S fuel' => shrinkBody fuel' (writeArray h vb (removelast vbl)) vb pa
    end
  else Some h.

(** The length reconciliation: both loops, with the iterations they need. *)
Definition reconcileBody (h : Heap) (vb pa : loc) : option Heap :=
  vbl ← arrays h !! vb;
  pal ← arrays h !! pa;
  h1 ← growBody (length pal - length vbl) h vb pa;
  shrinkBody (length vbl - length pal) h1 vb pa.

(** The point [cur] after [cur.x += (tgt.x - cur.x) * s] and
    [cur.y += (tgt.y - cur.y) * s]. *)
Definition lerpTo (s : Q) (cur tgt : Point) : Point :=
  mkPoint (pt_x cur + (pt_x tgt - pt_x cur) * s)
          (pt_y cur + (pt_y tgt - pt_y cur) * s).

(** One body of the loop [for (let i = 0; i < p.body.length; i++)]:
    [tgt] is [p.body[i]] and [cur] is [vis.body[i]]. *)
Definition lerpPoint (s : Q) (h : Heap) (vb pa : loc) (i : nat) : option Heap :=
  pal ← arrays h !! pa;
  pb ← pal !! i;
  tgt ← points h !! pb;
  vbl ← arrays h !! vb;
  vl ← vbl !! i;
  cur ← points h !! vl;
  Some (writePoint h vl (lerpTo s cur tgt)).

Fixpoint lerpBody (fuel : nat) (s : Q) (vb pa : loc) (i : nat) (h : Heap)
  : option Heap :=
  pal ← arrays h !! pa;
  if (i <? length pal)%nat then
    match fuel with
    | O => None
    | S fuel' =>
        h1 ← lerpPoint s h vb pa i;
        lerpBody fuel' s vb pa (S i) h1
    end
  else Some h.

(** Every location of [ls] holds a point. *)
Definition allocated (h : Heap) (ls : list loc) : Prop :=
  Forall (fun l => is_Some (points h !! l)) ls.

(** The points of the body at [a], by value. *)
Definition bodyPoints (h : Heap) (a : loc) : option (list Point) :=
  els ← arrays h !! a; mapM (fun l => points h !! l) els.

(** ** The interpolation engine *)

Definition lookupPlayer (ps : list (string * Player)) (pid : string)
  : option Player :=
  snd <$> List.find (fun e => String.eqb (fst e) pid) ps.

(** The first loop of [updateVisuals]: visual players without an
    authoritative player are dropped, the local id excepted. *)
Definition cleanupVisuals (ps : list (string * Player)) (me : string)
  (vps : gmap string VisualPlayer) : gmap string VisualPlayer :=
  filter (fun e => is_Some (lookupPlayer ps (fst e)) ∨ fst e = me) vps.

(** The creation of a missing visual player from the array [pal] at
    [p.body]. *)
Definition createVisual (h : Heap) (p : Player) (pa : loc)
  : option (Heap * VisualPlayer) :=
  '(h1, a) ← copyBody h pa;
  pal ← arrays h1 !! pa;
  hd ← head pal;
  hp ← points h1 !! hd;
  Some (h1, mkVisual (pt_x hp) (pt_y hp) (p_angle p) a).

(** The body of the second loop of [updateVisuals] from
    [const vis = this.visualPlayers[pid]] on: [pa] is [p.body] and
    [lerpSpeed] is [10.0 * dt]. *)
Definition stepVisual (lerpSpeed : Q) (pid : string) (p : Player) (pa : loc)
  (vis : VisualPlayer) (h : Heap) (vps : gmap string VisualPlayer)
  : option (Heap * gmap string VisualPlayer) :=
  h ← reconcileBody h (vis_body vis) pa;
  pal ← arrays h !! pa;
  th ← head pal;
  targetHead ← points h !! th;
  if hypot_gt (pt_x targetHead - vis_x vis) (pt_y targetHead - vis_y vis) 500
  then
    '(h, a) ← copyBody h pa;
    Some (h, <[pid := mkVisual (pt_x targetHead) (pt_y targetHead)
                               (p_angle p) a]> vps)
  else
    diff ← wrapDiff (p_angle p - vis_angle vis);
    h ← lerpBody (length pal) lerpSpeed (vis_body vis) pa 0 h;
    Some (h, <[pid := mkVisual
                 (vis_x vis + (pt_x targetHead - vis_x vis) * lerpSpeed)
                 (vis_y vis + (pt_y targetHead - vis_y vis) * lerpSpeed)
                 (vis_angle vis + diff * lerpSpeed)
                 (vis_body vis)]> vps).

(** The body of the second loop of [updateVisuals] for one player: the
    guard on the body, the creation of a missing visual player, and the
    rest. *)
Definition stepPlayer (lerpSpeed : Q) (pid : string) (p : Player)
  (hv : Heap * gmap string VisualPlayer)
  : option (Heap * gmap string VisualPlayer) :=
  let '(h, vps) := hv in
  match p_body p with
  | None => Some hv
  | Some pa =>
      pal ← arrays h !! pa;
      if bool_decide (pal = []) then Some hv
      else
        '(h, vis) ← match vps !! pid with
                    | Some vis => Some (h, vis)
                    | None => createVisual h p pa
                    end;
        stepVisual lerpSpeed pid p pa vis h vps
  end.

(** [for (let pid in this.players)]: an object holds each key once, so the
    entry visited is [this.players[pid]]. *)
Fixpoint stepPlayers (lerpSpeed : Q) (ps : list (string * Player))
  (hv : Heap * gmap string VisualPlayer)
  : option (Heap * gmap string VisualPlayer) :=
  match ps with
  | [] => Some hv
  | (pid, p) :: rest =>
      hv1 ← stepPlayer lerpSpeed pid p hv;
      stepPlayers lerpSpeed rest hv1
  end.

(** The part of [updateVisuals] before the camera. *)
Definition interpolate (dt : Q) (ps : list (string * Player)) (me : string)
  (h : Heap) (vps : gmap string VisualPlayer)
  : option (Heap * gmap string VisualPlayer) :=
  stepPlayers (10.0 * dt) ps (h, cleanupVisuals ps me vps).

(** ** Field updates of the component *)

Definition set_isConnected (v : bool) (g : Game) : Game :=
  mkGame v (myId g) (isDead g) (finalScore g) (playerCount g) (myScore g)
    (spectateMode g) (players g) (food g) (leaderboard g) (visualPlayers g)
    (camX g) (camY g) (currentScale g) (targetScale g) (lastTime g)
    (driftAngle g) (config g) (keysPressed g) (heap g) (emitted g).

Definition set_myId (v : string) (g : Game) : Game :=
  mkGame (isConnected g) v (isDead g) (finalScore g) (playerCount g)
    (myScore g) (spectateMode g) (players g) (food g) (leaderboard g)
    (visualPlayers g) (camX g) (camY g) (currentScale g) (targetScale g)
    (lastTime g) (driftAngle g) (config g) (keysPressed g) (heap g)
    (emitted g).

Definition set_isDead (v : bool) (g : Game) : Game :=
  mkGame (isConnected g) (myId g) v (finalScore g) (playerCount g) (myScore g)
    (spectateMode g) (players g) (food g) (leaderboard g) (visualPlayers g)
    (camX g) (camY g) (currentScale g) (targetScale g) (lastTime g)
    (driftAngle g) (config g) (keysPressed g) (heap g) (emitted g).

Definition set_finalScore (v : Q) (g : Game) : Game :=
  mkGame (isConnected g) (myId g) (isDead g) v (playerCount g) (myScore g)
    (spectateMode g) (players g) (food g) (leaderboard g) (visualPlayers g)
    (camX g) (camY g) (currentScale g) (targetScale g) (lastTime g)
    (driftAngle g) (config g) (keysPressed g) (heap g) (emitted g).

Definition set_playerCount (v : nat) (g : Game) : Game :=
  mkGame (isConnected g) (myId g) (isDead g) (finalScore g) v (myScore g)
    (spectateMode g) (players g) (food g) (leaderboard g) (visualPlayers g)
    (camX g) (camY g) (currentScale g) (targetScale g) (lastTime g)
    (driftAngle g) (config g) (keysPressed g) (heap g) (emitted g).

Definition set_myScore (v : Z) (g : Game) : Game :=
  mkGame (isConnected g) (myId g) (isDead g) (finalScore g) (playerCount g) v
    (spectateMode g) (players g) (food g) (leaderboard g) (visualPlayers g)
    (camX g) (camY g) (currentScale g) (targetScale g) (lastTime g)
    (driftAngle g) (config g) (keysPressed g) (heap g) (emitted g).

Definition set_spectateMode (v : bool) (g : Game) : Game :=
  mkGame (isConnected g) (myId g) (isDead g) (finalScore g) (playerCount g)
    (myScore g) v (players g) (food g) (leaderboard g) (visualPlayers g)
    (camX g) (camY g) (currentScale g) (targetScale g) (lastTime g)
    (driftAngle g) (config g) (keysPressed g) (heap g) (emitted g).

Definition set_players (v : list (string * Player)) (g : Game) : Game :=
  mkGame (isConnected g) (myId g) (isDead g) (finalScore g) (playerCount g)
    (myScore g) (spectateMode g) v (food g) (leaderboard g) (visualPlayers g)
    (camX g) (camY g) (currentScale g) (targetScale g) (lastTime g)
    (driftAngle g) (config g) (keysPressed g) (heap g) (emitted g).

Definition set_food (v : gmap string FoodItem) (g : Game) : Game :=
  mkGame (isConnected g) (myId g) (isDead g) (finalScore g) (playerCount g)
    (myScore g) (spectateMode g) (players g) v (leaderboard g)
    (visualPlayers g) (camX g) (camY g) (currentScale g) (targetScale g)
    (lastTime g) (driftAngle g) (config g) (keysPressed g) (heap g)
    (emitted g).

Definition set_leaderboard (v : list (string * Q)) (g : Game) : Game :=
  mkGame (isConnected g) (myId g) (isDead g) (finalScore g) (playerCount g)
    (myScore g) (spectateMode g) (players g) (food g) v (visualPlayers g)
    (camX g) (camY g) (currentScale g) (targetScale g) (lastTime g)
    (driftAngle g) (config g) (keysPressed g) (heap g) (emitted g).

Definition set_visualPlayers (v : gmap string VisualPlayer) (g : Game) : Game :=
  mkGame (isConnected g) (myId g) (isDead g) (finalScore g) (playerCount g)
    (myScore g) (spectateMode g) (players g) (food g) (leaderboard g) v
    (camX g) (camY g) (currentScale g) (targetScale g) (lastTime g)
    (driftAngle g) (config g) (keysPressed g) (heap g) (emitted g).

Definition set_camX (v : Q) (g : Game) : Game :=
  mkGame (isConnected g) (myId g) (isDead g) (finalScore g) (playerCount g)
    (myScore g) (spectateMode g) (players g) (food g) (leaderboard g)
    (visualPlayers g) v (camY g) (currentScale g) (targetScale g) (lastTime g)
    (driftAngle g) (config g) (keysPressed g) (heap g) (emitted g).

Definition set_camY (v : Q) (g : Game) : Game :=
  mkGame (isConnected g) (myId g) (isDead g) (finalScore g) (playerCount g)
    (myScore g) (spectateMode g) (players g) (food g) (leaderboard g)
    (visualPlayers g) (camX g) v (currentScale g) (targetScale g) (lastTime g)
    (driftAngle g) (config g) (keysPressed g) (heap g) (emitted g).

Definition set_currentScale (v : Q) (g : Game) : Game :=
  mkGame (isConnected g) (myId g) (isDead g) (finalScore g) (playerCount g)
    (myScore g) (spectateMode g) (players g) (food g) (leaderboard g)
    (visualPlayers g) (camX g) (camY g) v (targetScale g) (lastTime g)
    (driftAngle g) (config g) (keysPressed g) (heap g) (emitted g).

Definition set_targetScale (v : Q) (g : Game) : Game :=
  mkGame (isConnected g) (myId g) (isDead g) (finalScore g) (playerCount g)
    (myScore g) (spectateMode g) (players g) (food g) (leaderboard g)
    (visualPlayers g) (camX g) (camY g) (currentScale g) v (lastTime g)
    (driftAngle g) (config g) (keysPressed g) (heap g) (emitted g).

Definition set_lastTime (v : Q) (g : Game) : Game :=
  mkGame (isConnected g) (myId g) (isDead g) (finalScore g) (playerCount g)
    (myScore g) (spectateMode g) (players g) (food g) (leaderboard g)
    (visualPlayers g) (camX g) (camY g) (currentScale g) (targetScale g) v
    (driftAngle g) (config g) (keysPressed g) (heap g) (emitted g).

Definition set_driftAngle (v : Q) (g : Game) : Game :=
  mkGame (isConnected g) (myId g) (isDead g) (finalScore g) (playerCount g)
    (myScore g) (spectateMode g) (players g) (food g) (leaderboard g)
    (visualPlayers g) (camX g) (camY g) (currentScale g) (targetScale g)
    (lastTime g) v (config g) (keysPressed g) (heap g) (emitted g).

Definition set_config (v : Config) (g : Game) : Game :=
  mkGame (isConnected g) (myId g) (isDead g) (finalScore g) (playerCount g)
    (myScore g) (spectateMode g) (players g) (food g) (leaderboard g)
    (visualPlayers g) (camX g) (camY g) (currentScale g) (targetScale g)
    (lastTime g) (driftAngle g) v (keysPressed g) (heap g) (emitted g).

Definition set_keysPressed (v : gmap string bool) (g : Game) : Game :=
  mkGame (isConnected g) (myId g) (isDead g) (finalScore g) (playerCount g)
    (myScore g) (spectateMode g) (players g) (food g) (leaderboard g)
    (visualPlayers g) (camX g) (camY g) (currentScale g) (targetScale g)
    (lastTime g) (driftAngle g) (config g) v (heap g) (emitted g).

Definition set_heap (v : Heap) (g : Game) : Game :=
  mkGame (isConnected g) (myId g) (isDead g) (finalScore g) (playerCount g)
    (myScore g) (spectateMode g) (players g) (food g) (leaderboard g)
    (visualPlayers g) (camX g) (camY g) (currentScale g) (targetScale g)
    (lastTime g) (driftAngle g) (config g) (keysPressed g) v (emitted g).

Definition set_emitted (v : list Emit) (g : Game) : Game :=
  mkGame (isConnected g) (myId g) (isDead g) (finalScore g) (playerCount g)
    (myScore g) (spectateMode g) (players g) (food g) (leaderboard g)
    (visualPlayers g) (camX g) (camY g) (currentScale g) (targetScale g)
    (lastTime g) (driftAngle g) (config g) (keysPressed g) (heap g) v.

Definition emit (e : Emit) (g : Game) : Game :=
  set_emitted (emitted g ++ [e]) g.

Definition keyDown (g : Game) (k : string) : bool :=
  default false (keysPressed g !! k).

(** ** Food diffs and zoom ([game_tick]) *)

(** [removed.forEach((fid) => { delete this.food[fid]; })] *)
Definition removeFood (rs : list string) (fd : gmap string FoodItem)
  : gmap string FoodItem :=
  foldl (fun m fid => delete fid m) fd rs.

(** [Object.assign(this.food, added)] *)
Definition assignFood (ad : gmap string FoodItem) (fd : gmap string FoodItem)
  : gmap string FoodItem :=
  ad ∪ fd.

Definition applyFoodDiff (d : option FoodDiff) (fd : gmap string FoodItem)
  : gmap string FoodItem :=
  match d with
  | None => fd
  | Some d =>
      let fd1 := match removed d with
                 | Some rs => removeFood rs fd
                 | None => fd
                 end in
      match added d with
      | Some ad => assignFood ad fd1
      | None => fd1
      end
  end.

(** [Math.max(0.4, base / (1 + me.length / damp))] with
    [base = this.config.ZOOM_BASE || 1.8] and
    [damp = this.config.ZOOM_DAMPENER || 2500]. *)
Definition zoomTarget (cfg : Config) (len : Q) : Q :=
  let base := orDefault (ZOOM_BASE cfg) 1.8 in
  let damp := orDefault (ZOOM_DAMPENER cfg) 2500 in
  Qmax 0.4 (base / (1 + len / damp)).

(** The older copy of the component ([game.ts]) has the constants inline:
    [Math.max(0.4, 1.8 / (1 + me.length / 4000))]. *)
Definition zoomTarget_inline (len : Q) : Q :=
  Qmax 0.4 (1.8 / (1 + len / 4000)).

(** The objects of a [game_tick] payload: every body becomes a new array
    of new points. *)
Fixpoint allocPoints (h : Heap) (pts : list Point) : Heap * list loc :=
  match pts with
  | [] => (h, [])
  | pt :: rest =>
      let '(l, h1) := allocPoint h pt in
      let '(h2, ls) := allocPoints h1 rest in
      (h2, l :: ls)
  end.

Definition loadPlayer (h : Heap) (d : PlayerData) : Heap * Player :=
  match pd_body d with
  | None => (h, mkPlayer None (pd_angle d) (pd_length d))
  | Some pts =>
      let '(h1, ls) := allocPoints h pts in
      let '(a, h2) := allocArray h1 ls in
      (h2, mkPlayer (Some a) (pd_angle d) (pd_length d))
  end.

Fixpoint loadPlayers (h : Heap) (ds : list (string * PlayerData))
  : Heap * list (string * Player) :=
  match ds with
  | [] => (h, [])
  | (pid, d) :: rest =>
      let '(h1, p) := loadPlayer h d in
      let '(h2, ps) := loadPlayers h1 rest in
      (h2, (pid, p) :: ps)
  end.

(** ** Socket handlers ([ngOnInit]) *)

Definition on_connect (socketId : string) (g : Game) : Game :=
  let g := set_isConnected true g in
  if truthy socketId then set_myId socketId g else g.

Definition on_init_config (cfg : Config) (g : Game) : Game :=
  set_config cfg g.

Definition on_init_food (fullFood : gmap string FoodItem) (g : Game) : Game :=
  set_food fullFood g.

(** [rnd] is the value of [Math.random()]. *)
Definition on_death (score rnd : Q) (g : Game) : Game :=
  let g := set_isDead true g in
  let g := set_finalScore score g in
  let g := set_targetScale 0.4 g in
  set_driftAngle (rnd * Math_PI * 2) g.

Definition on_init_player (id : string) (g : Game) : Game :=
  let g := set_isDead false g in
  let g := if truthy id then set_myId id g else g in
  set_targetScale 1.0 g.

Definition on_disconnect (g : Game) : Game :=
  set_isConnected false g.

(** The [game_tick] handler up to the local id: snapshot, leaderboard,
    player count, food diff, id. *)
Definition tickSnapshot (socketId : string) (gs : GameState) (g : Game)
  : Game :=
  let '(h, ps) := loadPlayers (heap g) (gs_players gs) in
  let g := set_heap h g in
  let g := set_players ps g in
  let g := set_leaderboard (default [] (gs_leaderboard gs)) g in
  let g := set_playerCount (length (players g)) g in
  let g := set_food (applyFoodDiff (gs_food_diff gs) (food g)) g in
  if negb (truthy (myId g)) && truthy socketId
  then set_myId socketId g else g.

(** The end of the [game_tick] handler: score and camera target of the
    living local player. *)
Definition tickZoom (g : Game) : Game :=
  match lookupPlayer (players g) (myId g) with
  | Some me =>
      if negb (isDead g) then
        let g := set_myScore (Qfloor (p_length me)) g in
        set_targetScale (zoomTarget (config g) (p_length me)) g
      else g
  | None => g
  end.

Definition on_game_tick (socketId : string) (gs : GameState) (g : Game)
  : Game :=
  tickZoom (tickSnapshot socketId gs g).

(** ** Camera, frame loop and input handlers *)

Section Component.

Variable Math_cos Math_sin : Q -> Q.
Variable Math_atan2 : Q -> Q -> Q.

Definition updateSpectatorMovement (dt : Q) (g : Game) : Game :=
  let speed := 1500 * dt / currentScale g in
  let g := if keyDown g "w" || keyDown g "arrowup"
           then set_camY (camY g - speed) g else g in
  let g := if keyDown g "arrowdown" then set_camY (camY g + speed) g else g in
  let g := if keyDown g "s" || keyDown g "arrowdown"
           then set_camY (camY g + speed) g else g in
  let g := if keyDown g "a" || keyDown g "arrowleft"
           then set_camX (camX g - speed) g else g in
  if keyDown g "d" || keyDown g "arrowright"
  then set_camX (camX g + speed) g else g.

(** The camera part of [updateVisuals]. *)
Definition updateCamera (dt : Q) (g : Game) : Game :=
  if spectateMode g then
    let g := updateSpectatorMovement dt g in
    set_currentScale
      (currentScale g + (targetScale g - currentScale g) * (5.0 * dt)) g
  else if isDead g then
    let g := set_camX (camX g + Math_cos (driftAngle g) * (20 * dt)) g in
    let g := set_camY (camY g + Math_sin (driftAngle g) * (20 * dt)) g in
    set_currentScale
      (currentScale g + (targetScale g - currentScale g) * (1.0 * dt)) g
  else
    let g :=
      match visualPlayers g !! myId g with
      | Some me =>
          if hypot_gt (vis_x me - camX g) (vis_y me - camY g) 1000 then
            set_camY (vis_y me) (set_camX (vis_x me) g)
          else
            let g := set_camX (camX g + (vis_x me - camX g) * (10.0 * dt)) g in
            set_camY (camY g + (vis_y me - camY g) * (10.0 * dt)) g
      | None => g
      end in
    set_currentScale
      (currentScale g + (targetScale g - currentScale g) * (2.0 * dt)) g.

Definition updateVisuals (dt : Q) (g : Game) : option Game :=
  '(h, vps) ← interpolate dt (players g) (myId g) (heap g) (visualPlayers g);
  Some (updateCamera dt (set_visualPlayers vps (set_heap h g))).

(** [renderLoop] at time [now]; [render] draws and leaves the fields. *)
Definition renderLoop (now : Q) (g : Game) : option Game :=
  let dt := (now - lastTime g) / 1000 in
  updateVisuals dt (set_lastTime now g).

Definition onMouseMove (clientX clientY innerWidth innerHeight : Q) (g : Game)
  : Game :=
  if negb (truthy (myId g)) || isDead g then g
  else
    let angle := Math_atan2 (clientY - innerHeight / 2)
                            (clientX - innerWidth / 2) in
    emit (input_update angle) g.

Definition startBoost (g : Game) : Game :=
  if truthy (myId g) && negb (isDead g)
  then emit (boost_update true) g else g.

Definition endBoost (g : Game) : Game :=
  if truthy (myId g) then emit (boost_update false) g else g.

Definition cheatBoost (g : Game) : Game :=
  if truthy (myId g) && negb (isDead g)
  then emit (cheat_boost 1000) g else g.

Definition startBoostMouse (g : Game) : Game :=
  if truthy (myId g) && negb (isDead g)
  then emit (boost_update true) g else g.

Definition endBoostMouse (g : Game) : Game :=
  if truthy (myId g) then emit (boost_update false) g else g.

Definition toggleSpectator (g : Game) : Game :=
  let isSpectating := negb (spectateMode g) in
  let g := set_spectateMode isSpectating g in
  if isSpectating then
    let g := emit enter_spectator g in
    let g := set_targetScale 0.2 g in
    set_isDead true g
  else
    let g := emit request_respawn g in
    let g := set_targetScale 1.0 g in
    set_isDead false g.

Definition onKeyDown (key code : string) (g : Game) : Game :=
  let g := set_keysPressed (<[toLowerCase key := true]> (keysPressed g)) g in
  let g := if String.eqb (toLowerCase key) "s" then toggleSpectator g else g in
  let g := if String.eqb (toLowerCase key) "c" then cheatBoost g else g in
  if String.eqb code "Space" then startBoost g else g.

Definition onWheel (deltaY : Q) (g : Game) : Game :=
  if negb (spectateMode g) then g
  else
    let zoomSpeed := 0.002 in
    let g := set_targetScale (targetScale g + deltaY * - zoomSpeed) g in
    set_targetScale (Qmin (Qmax 0.05 (targetScale g)) 5.0) g.

Definition onKeyUp (key code : string) (g : Game) : Game :=
  let g := set_keysPressed (<[toLowerCase key := false]> (keysPressed g)) g in
  if String.eqb code "Space" then endBoost g else g.

(** ** The component as a transition system *)

Inductive Event :=
| EvConnect (socketId : string)
| EvInitConfig (cfg : Config)
| EvInitFood (fullFood : gmap string FoodItem)
| EvDeath (score rnd : Q)
| EvInitPlayer (id : string)
| EvDisconnect
| EvGameTick (socketId : string) (gs : GameState)
| EvFrame (now : Q)
| EvMouseMove (clientX clientY innerWidth innerHeight : Q)
| EvKeyDownSpace
| EvKeyUpSpace
| EvMouseDown
| EvMouseUp
| EvKeyDown (key code : string)
| EvWheel (deltaY : Q)
| EvKeyUp (key code : string).

Definition handle (e : Event) (g : Game) : option Game :=
  match e with
  | EvConnect sid => Some (on_connect sid g)
  | EvInitConfig cfg => Some (on_init_config cfg g)
  | EvInitFood ff => Some (on_init_food ff g)
  | EvDeath score rnd => Some (on_death score rnd g)
  | EvInitPlayer id => Some (on_init_player id g)
  | EvDisconnect => Some (on_disconnect g)
  | EvGameTick sid gs => Some (on_game_tick sid gs g)
  | EvFrame now => renderLoop now g
  | EvMouseMove cx cy iw ih => Some (onMouseMove cx cy iw ih g)
  | EvKeyDownSpace => Some (startBoost g)
  | EvKeyUpSpace => Some (endBoost g)
  | EvMouseDown => Some (startBoostMouse g)
  | EvMouseUp => Some (endBoostMouse g)
  | EvKeyDown key code => Some (onKeyDown key code g)
  | EvWheel dy => Some (onWheel dy g)
  | EvKeyUp key code => Some (onKeyUp key code g)
  end.

Fixpoint run (es : list Event) (g : Game) : option Game :=
  match es with
  | [] => Some g
  | e :: rest => g1 ← handle e g; run rest g1
  end.

End Component.

(** ** Culling in [render] *)

(** The [continue] of the food loop. *)
Definition foodCulled (g : Game) (width height : Q) (f : FoodItem) : bool :=
  Qgtb (Qabs (food_x f - camX g)) (width / currentScale g)
  || Qgtb (Qabs (food_y f - camY g)) (height / currentScale g).

(** The three [continue]s of the snake loop, in order. *)
Definition playerSkipped (g : Game) (width : Q) (pid : string) : bool :=
  if isDead g && String.eqb pid (myId g) then true
  else
    match visualPlayers g !! pid with
    | None => true
    | Some vis =>
        match arrays (heap g) !! vis_body vis with
        | None => true
        | Some vbl =>
            if bool_decide (vbl = []) then true
            else Qgtb (Qabs (vis_x vis - camX g)) (width / currentScale g + 200)
        end
    end.


(** ** Predicates of the statements *)

(** Equality of points as numbers. *)
Definition Point_eq (p q : Point) : Prop :=
  pt_x p == pt_x q ∧ pt_y p == pt_y q.

(** [vis] and the authoritative body at [pa] can be stepped: [pal] is the
    non-empty array at [pa], [vbl] the non-empty array at [vis.body], the
    two arrays are different objects, and every element holds a point. *)
Definition paired (h : Heap) (pa : loc) (vis : VisualPlayer)
  (pal vbl : list loc) : Prop :=
  arrays h !! pa = Some pal ∧ pal ≠ [] ∧ allocated h pal
  ∧ arrays h !! vis_body vis = Some vbl ∧ vbl ≠ [] ∧ allocated h vbl
  ∧ vis_body vis ≠ pa.

(** Every authoritative body is an array of points. *)
Definition authOk (h : Heap) (ps : list (string * Player)) : Prop :=
  ∀ pid p pa, (pid, p) ∈ ps → p_body p = Some pa →
    ∃ pal, arrays h !! pa = Some pal ∧ allocated h pal.

(** Every visual body is a non-empty array of points. *)
Definition visOk (h : Heap) (vps : gmap string VisualPlayer) : Prop :=
  ∀ pid vis, vps !! pid = Some vis →
    ∃ vbl, arrays h !! vis_body vis = Some vbl ∧ vbl ≠ [] ∧ allocated h vbl.

(** No visual body shares its array or a point with an authoritative
    body. *)
Definition separated (h : Heap) (ps : list (string * Player))
  (vps : gmap string VisualPlayer) : Prop :=
  ∀ pid vis vbl pid' p pa pal,
    vps !! pid = Some vis → arrays h !! vis_body vis = Some vbl →
    (pid', p) ∈ ps → p_body p = Some pa → arrays h !! pa = Some pal →
    vis_body vis ≠ pa ∧ ∀ l, l ∈ vbl → l ∉ pal.

Definition wfWorld (h : Heap) (ps : list (string * Player))
  (vps : gmap string VisualPlayer) : Prop :=
  authOk h ps ∧ visOk h vps ∧ separated h ps vps.


(** The authoritative players of [ps] read the same in [h] and [h']: the
    same array at each body and the same point at each element. *)
Definition authSame (h h' : Heap) (ps : list (string * Player)) : Prop :=
  ∀ pid p pa pal, (pid, p) ∈ ps → p_body p = Some pa →
    arrays h !! pa = Some pal →
    arrays h' !! pa = Some pal
    ∧ ∀ l, l ∈ pal → points h' !! l = points h !! l.

(** The square of the distance between [(ax, ay)] and [(bx, by)]. *)
Definition dist2 (ax ay bx by' : Q) : Q :=
  (ax - bx) * (ax - bx) + (ay - by') * (ay - by').

(** [b] lies between [a] and [c], ends included. *)
Definition between (a b c : Q) : Prop :=
  (a <= b ∧ b <= c) ∨ (c <= b ∧ b <= a).

(** What a step that may write the array [wa] and the points [W] leaves
    alone: every other array, every other point, and the presence of all
    points. *)
Definition stepFrame (h : Heap) (wa : option loc) (W : list loc) (h' : Heap)
  : Prop :=
  (∀ b, is_Some (arrays h !! b) → wa ≠ Some b →
        arrays h' !! b = arrays h !! b)
  ∧ (∀ l, is_Some (points h !! l) → l ∉ W → points h' !! l = points h !! l)
  ∧ (∀ l, is_Some (points h !! l) → is_Some (points h' !! l)).

(** The array at [a] in [h'] is a non-empty body whose points are among
    [W] or did not exist in [h]. *)
Definition bodyFrom (h h' : Heap) (W : list loc) (a : loc) : Prop :=
  ∃ vbl', arrays h' !! a = Some vbl' ∧ vbl' ≠ [] ∧ allocated h' vbl'
          ∧ ∀ l, l ∈ vbl' → l ∈ W ∨ points h !! l = None.

(** [p] has no body, or an empty one, in [h]. *)
Definition bodiless (h : Heap) (p : Player) : Prop :=
  p_body p = None ∨ ∃ pa, p_body p = Some pa ∧ arrays h !! pa = Some [].

(** The body of a loaded player is a new array of new points. *)
Definition loadedBody (h h' : Heap) (p : Player) : Prop :=
  ∀ a, p_body p = Some a →
    arrays h !! a = None
    ∧ ∃ pal, arrays h' !! a = Some pal ∧ allocated h' pal
             ∧ Forall (fun l => points h !! l = None) pal.

(** Two visual players never share their body array or a body point. *)
Definition visApart (h : Heap) (vps : gmap string VisualPlayer) : Prop :=
  ∀ k1 k2 v1 v2 b1 b2,
    k1 ≠ k2 → vps !! k1 = Some v1 → vps !! k2 = Some v2 →
    arrays h !! vis_body v1 = Some b1 → arrays h !! vis_body v2 = Some b2 →
    vis_body v1 ≠ vis_body v2 ∧ ∀ l, l ∈ b1 → l ∉ b2.

(** The body of [v] reads the same in [h] and [h']. *)
Definition visSame (h h' : Heap) (v : VisualPlayer) : Prop :=
  arrays h' !! vis_body v = arrays h !! vis_body v
  ∧ ∀ b l, arrays h !! vis_body v = Some b → l ∈ b →
           points h' !! l = points h !! l.

(** Nothing that exists in [h] is missing in [h']. *)
Definition heapGrows (h h' : Heap) : Prop :=
  (∀ a, is_Some (arrays h !! a) → is_Some (arrays h' !! a))
  ∧ (∀ l, is_Some (points h !! l) → is_Some (points h' !! l)).

(** The invariant of the component's states. *)
Definition wfGame (g : Game) : Prop :=
  wfWorld (heap g) (players g) (visualPlayers g)
  ∧ visApart (heap g) (visualPlayers g).

(** ** Drawing ([render])

    [render] and the [draw...] methods change no field: they issue calls on
    the canvas context. A method is embedded as the list of its calls, in
    order; it is [None] when a read cannot run (a point of a body that is
    not there, a [MAP_SIZE] that is not a number). *)

(** The text of a [fillText]: strings, numbers as a template literal or
    [toString] converts them, and their concatenation. *)
Inductive Text :=
| TStr (s : string)
| TNum (n : Q)
| TCat (a b : Text).

(** The calls on [this.ctx]; a property that is assigned is the call of
    its name. [arc] is always called with the angles [0] and [end]. *)
Module ctx.
Inductive Cmd :=
| fillStyle (s : string)
| strokeStyle (s : string)
| lineWidth (w : Q)
| lineCap (s : string)
| lineJoin (s : string)
| shadowBlur (b : Q)
| shadowColor (s : string)
| font (s : string)
| textAlign (s : string)
| fillRect (x y w h : Q)
| strokeRect (x y w h : Q)
| save
| restore
| translate (x y : Q)
| scale (x y : Q)
| rotate (angle : Q)
| beginPath
| moveTo (x y : Q)
| lineTo (x y : Q)
| quadraticCurveTo (cpx cpy x y : Q)
| arc (x y r a0 a1 : Q)
| stroke
| fill
| fillText (t : Text) (x y : Q)
| strokeText (t : Text) (x y : Q).
End ctx.

(** A line of [p.debug_lines]. *)
Record DebugLine := mkDebugLine {
  dl_x : Q;
  dl_y : Q;
  dl_tx : Q;
  dl_ty : Q;
  dl_color : string
}.

(** The fields of a player that only [render] reads: [radius] may be
    missing, [name], [skin], [color] and [state] are [""] when missing,
    [debug_lines] may be missing. *)
Record Look := mkLook {
  lk_radius : option Q;
  lk_color : string;
  lk_boosting : bool;
  lk_skin : string;
  lk_name : string;
  lk_state : string;
  lk_debug_lines : option (list DebugLine)
}.

(** [for (let i = a; i < n; i += k) body(i)] for a loop that leaves [i]
    and [n] alone: the calls of the iterations, at most [fuel] of them. *)
Fixpoint forLoop (fuel : nat) (i n k : nat)
  (body : nat -> option (list ctx.Cmd)) : option (list ctx.Cmd) :=
  if (i <? n)%nat then
    match fuel with
    | O => None
    | S fuel' =>
        cs ← body i;
        rest ← forLoop fuel' (i + k) n k body;
        Some (cs ++ rest)
    end
  else Some [].

(** [for (let x = 0; x <= ms; x += 100) line(x)] of [drawGrid]. *)
Fixpoint gridLoop (fuel : nat) (x ms : Q) (line : Q -> list ctx.Cmd)
  : option (list ctx.Cmd) :=
  if Qle_bool x ms then
    match fuel with
    | O => None
    | S fuel' =>
        rest ← gridLoop fuel' (x + 100) ms line;
        Some (line x ++ rest)
    end
  else Some [].

(** The number of multiples of 100 from 0 to [ms]. *)
Definition gridFuel (ms : Q) : nat := Z.to_nat (Qfloor (ms / 100) + 1).

Definition drawGrid (ms : Q) : option (list ctx.Cmd) :=
  cols ← gridLoop (gridFuel ms) 0 ms
           (fun x => [ctx.moveTo x 0; ctx.lineTo x ms]);
  rows ← gridLoop (gridFuel ms) 0 ms
           (fun y => [ctx.moveTo 0 y; ctx.lineTo ms y]);
  Some ([ctx.strokeStyle "#222"; ctx.lineWidth 2; ctx.beginPath]
        ++ cols ++ rows ++ [ctx.stroke]).

Definition drawEyes (x y angle radius : Q) : list ctx.Cmd :=
  let scale := radius / 15 in
  [ctx.save; ctx.translate x y; ctx.rotate angle;
   ctx.fillStyle "white"; ctx.beginPath;
   ctx.arc (8 * scale) (-6 * scale) (5 * scale) 0 (Math_PI * 2);
   ctx.arc (8 * scale) (6 * scale) (5 * scale) 0 (Math_PI * 2);
   ctx.fill;
   ctx.fillStyle "black"; ctx.beginPath;
   ctx.arc (9 * scale) (-6 * scale) (2.5 * scale) 0 (Math_PI * 2);
   ctx.arc (9 * scale) (6 * scale) (2.5 * scale) 0 (Math_PI * 2);
   ctx.fill; ctx.restore].

Definition drawName (cfg : Config) (x y : Q) (name : string) (radius : Q)
  (state : string) : list ctx.Cmd :=
  if negb (truthy name) then []
  else
    [ctx.save; ctx.fillStyle "white"; ctx.strokeStyle "black";
     ctx.lineWidth 3; ctx.textAlign "center"; ctx.font "bold 8px Arial";
     ctx.strokeText (TStr name) x (y + radius + 25);
     ctx.fillText (TStr name) x (y + radius + 25)]
    ++ (if DEBUG_MODE cfg && truthy state then
          [ctx.font "bold 10px Monospace";
           ctx.fillStyle
             (if String.eqb state "FLEE" then "#ff3333"
              else if String.eqb state "LOOT" then "cyan" else "#aaa");
           ctx.fillText (TCat (TStr "[") (TCat (TStr state) (TStr "]")))
                        x (y - radius - 15)]
        else [])
    ++ [ctx.restore].

(** [p.radius || 10 + Math.min(25, Math.floor(p.length / 20))] *)
Definition snakeRadius (lk : Look) (len : Q) : Q :=
  orDefault (lk_radius lk) (10 + Qmin 25 (inject_Z (Qfloor (len / 20)))).

(** [for (let i = 1; i < vis.body.length; i++) lineTo(vis.body[i])] *)
Definition lineToAll (pts : list Point) : option (list ctx.Cmd) :=
  forLoop (length pts) 1 (length pts) 1
    (fun i => b ← pts !! i; Some [ctx.lineTo (pt_x b) (pt_y b)]).

(** The polyline of the striped and spotted skins, from [beginPath] to
    [stroke]. *)
Definition strokeBody (pts : list Point) : option (list ctx.Cmd) :=
  b0 ← pts !! 0%nat;
  ls ← lineToAll pts;
  Some ([ctx.beginPath; ctx.moveTo (pt_x b0) (pt_y b0)] ++ ls ++ [ctx.stroke]).

(** The dark marks of the striped skin. *)
Definition stripeMarks (pts : list Point) : option (list ctx.Cmd) :=
  forLoop (length pts) 0 (length pts) 2
    (fun i =>
       if (i + 1 <? length pts)%nat then
         b ← pts !! i;
         b1 ← pts !! (i + 1)%nat;
         Some [ctx.moveTo (pt_x b) (pt_y b); ctx.lineTo (pt_x b1) (pt_y b1)]
       else Some []).

Definition drawStripe (pts : list Point) : option (list ctx.Cmd) :=
  body ← strokeBody pts;
  marks ← stripeMarks pts;
  Some (body
        ++ [ctx.save; ctx.strokeStyle "rgba(0,0,0,0.2)"; ctx.beginPath]
        ++ marks ++ [ctx.stroke; ctx.restore]).

(** The light spots of the spotted skin. *)
Definition spotMarks (radius : Q) (pts : list Point)
  : option (list ctx.Cmd) :=
  forLoop (length pts) 2 (length pts) 3
    (fun i =>
       b ← pts !! i;
       Some [ctx.beginPath;
             ctx.arc (pt_x b) (pt_y b) (radius * 0.6) 0 (Math_PI * 2);
             ctx.fill]).

Definition drawSpot (radius : Q) (pts : list Point)
  : option (list ctx.Cmd) :=
  body ← strokeBody pts;
  spots ← spotMarks radius pts;
  Some (body ++ [ctx.fillStyle "rgba(255,255,255,0.3)"] ++ spots).

(** The standard curve: quadratic curves through the midpoints of a body
    of more than two points, straight lines otherwise. After the loop [i]
    is [max 1 (length - 2)]. *)
Definition drawCurve (pts : list Point) : option (list ctx.Cmd) :=
  let n := length pts in
  b0 ← pts !! 0%nat;
  segs ← (if (2 <? n)%nat then
            mids ← forLoop n 1 (n - 2) 1
                     (fun i =>
                        b ← pts !! i;
                        b1 ← pts !! (i + 1)%nat;
                        let xc := (pt_x b + pt_x b1) / 2 in
                        let yc := (pt_y b + pt_y b1) / 2 in
                        Some [ctx.quadraticCurveTo (pt_x b) (pt_y b) xc yc]);
            let i := Nat.max 1 (n - 2) in
            b ← pts !! i;
            b1 ← pts !! (i + 1)%nat;
            Some (mids ++ [ctx.quadraticCurveTo (pt_x b) (pt_y b)
                                                (pt_x b1) (pt_y b1)])
          else lineToAll pts);
  Some ([ctx.beginPath; ctx.moveTo (pt_x b0) (pt_y b0)] ++ segs
        ++ [ctx.stroke]).

(** The raw circles of the debug mode. *)
Definition drawCircles (col : string) (radius : Q) (pts : list Point)
  : list ctx.Cmd :=
  ctx.fillStyle col
  :: flat_map (fun b => [ctx.beginPath;
                         ctx.arc (pt_x b) (pt_y b) radius 0 (Math_PI * 2);
                         ctx.fill]) pts.

Definition drawDebugLines (lines : list DebugLine) : list ctx.Cmd :=
  [ctx.save; ctx.lineCap "round"]
  ++ flat_map (fun line =>
                 [ctx.beginPath;
                  ctx.moveTo (dl_x line) (dl_y line);
                  ctx.lineTo (dl_tx line) (dl_ty line);
                  ctx.lineWidth
                    (if String.eqb (dl_color line) "white" then 3
                     else if String.eqb (dl_color line) "cyan" then 2 else 1);
                  ctx.strokeStyle (dl_color line);
                  ctx.stroke]) lines
  ++ [ctx.restore].

(** The body of the snake loop of [render] after its three [continue]s:
    [pts] are the points of [vis.body] and [isMe] is
    [pid === this.myId()]. *)
Definition drawSnake (cfg : Config) (isMe : bool) (p : Player) (lk : Look)
  (vis : VisualPlayer) (pts : list Point) : option (list ctx.Cmd) :=
  let radius := snakeRadius lk (p_length p) in
  shape ← (if negb (DEBUG_MODE cfg) then
             if String.eqb (lk_skin lk) "stripe" then drawStripe pts
             else if String.eqb (lk_skin lk) "spot" then drawSpot radius pts
             else drawCurve pts
           else Some (drawCircles (lk_color lk) radius pts));
  Some ([ctx.lineCap "round"; ctx.lineJoin "round";
         ctx.lineWidth (radius * 2); ctx.strokeStyle (lk_color lk)]
        ++ (if lk_boosting lk
            then [ctx.shadowBlur (radius + 5); ctx.shadowColor (lk_color lk)]
            else [])
        ++ shape
        ++ [ctx.shadowBlur 0]
        ++ (if DEBUG_MODE cfg then
              [ctx.beginPath;
               ctx.arc (vis_x vis) (vis_y vis) (radius * 0.6) 0 (Math_PI * 2);
               ctx.strokeStyle "rgba(255, 255, 0, 0.8)";
               ctx.lineWidth 1; ctx.stroke]
            else [])
        ++ [ctx.lineWidth 2;
            ctx.strokeStyle (if isMe then "rgba(0,0,0,0.5)"
                             else "rgba(255,255,255,0.4)");
            ctx.stroke]
        ++ drawEyes (vis_x vis) (vis_y vis) (vis_angle vis) radius
        ++ drawName cfg (vis_x vis) (vis_y vis) (lk_name lk) radius
             (lk_state lk)
        ++ (if DEBUG_MODE cfg then
              match lk_debug_lines lk with
              | Some lines => drawDebugLines lines
              | None => []
              end
            else [])).

(** The trail and the head dot of one player on the minimap. *)
Definition drawMinimapPlayer (ms : Q) (isMe : bool) (vis : VisualPlayer)
  (pts : list Point) : option (list ctx.Cmd) :=
  let size := 150 in
  b0 ← pts !! 0%nat;
  trail ← forLoop (length pts) 1 (length pts) 2
            (fun i =>
               b ← pts !! i;
               Some [ctx.lineTo (pt_x b / ms * size) (pt_y b / ms * size)]);
  Some ([ctx.beginPath;
         ctx.moveTo (pt_x b0 / ms * size) (pt_y b0 / ms * size)]
        ++ trail
        ++ [ctx.lineWidth (if isMe then 2 else 1);
            ctx.strokeStyle (if isMe then "rgba(0, 255, 255, 0.8)"
                             else "rgba(255, 50, 50, 0.5)");
            ctx.stroke;
            ctx.beginPath;
            ctx.arc (vis_x vis / ms * size) (vis_y vis / ms * size)
                    (if isMe then 3 else 2) 0 (Math_PI * 2);
            ctx.fillStyle (if isMe then "#ffffff" else "#ff3333");
            ctx.fill]).

(** One iteration of the loop of [drawMinimap]. *)
Definition drawMinimapEntry (ms : Q) (g : Game) (pid : string) (p : Player)
  : option (list ctx.Cmd) :=
  if isDead g && String.eqb pid (myId g) then Some []
  else
    match p_body p with
    | None => Some []
    | Some pa =>
        pal ← arrays (heap g) !! pa;
        if bool_decide (pal = []) then Some []
        else
          match visualPlayers g !! pid with
          | None => Some []
          | Some vis =>
              pts ← bodyPoints (heap g) (vis_body vis);
              drawMinimapPlayer ms (String.eqb pid (myId g)) vis pts
          end
    end.

Definition drawMinimap (w h ms : Q) (g : Game) : option (list ctx.Cmd) :=
  let size := 150 in
  let margin := 20 in
  let mapX := w - size - margin in
  let mapY := h - size - margin in
  entries ← mapM (fun e => drawMinimapEntry ms g (fst e) (snd e)) (players g);
  Some ([ctx.save; ctx.translate mapX mapY;
         ctx.fillStyle "rgba(0, 0, 0, 0.6)"; ctx.fillRect 0 0 size size;
         ctx.strokeStyle "#555"; ctx.lineWidth 2;
         ctx.strokeRect 0 0 size size]
        ++ concat entries ++ [ctx.restore]).

(** The rank [i] of the leaderboard; [entry.name.substring(0, 12)] is the
    name cut to its first 12 characters. *)
Definition drawLeaderboardEntry (boxX boxY boxW : Q) (i : nat)
  (entry : string * Q) : list ctx.Cmd :=
  let y := boxY + 20 + inject_Z (Z.of_nat i) * 25 in
  [ctx.fillText
     (TCat (TNum (inject_Z (Z.of_nat i) + 1))
           (TCat (TStr ". ") (TStr (substring 0 12 (fst entry)))))
     (boxX + 10) y;
   ctx.textAlign "right";
   ctx.fillText (TNum (snd entry)) (boxX + boxW - 10) y;
   ctx.textAlign "left"].

Definition drawLeaderboard (w : Q) (lb : list (string * Q)) : list ctx.Cmd :=
  if bool_decide (lb = []) then []
  else
    let boxW := 200 in
    let boxX := w - boxW - 20 in
    let boxY := 20 in
    [ctx.fillStyle "rgba(0,0,0,0.5)";
     ctx.fillRect boxX boxY boxW (inject_Z (Z.of_nat (length lb)) * 25 + 10);
     ctx.fillStyle "white"; ctx.font "bold 14px Arial"; ctx.textAlign "left"]
    ++ concat (imap (drawLeaderboardEntry boxX boxY boxW) lb).

(** The death screen at the end of [render]. *)
Definition drawDeathScreen (width height : Q) (g : Game) : list ctx.Cmd :=
  if isDead g && negb (spectateMode g) then
    [ctx.fillStyle "rgba(0, 0, 0, 0.4)"; ctx.fillRect 0 0 width height;
     ctx.save; ctx.shadowBlur 20; ctx.shadowColor "red";
     ctx.fillStyle "#ff3333"; ctx.font "bold 80px Arial";
     ctx.textAlign "center";
     ctx.fillText (TStr "YOU DIED") (width / 2) (height / 2 - 20);
     ctx.shadowBlur 0; ctx.fillStyle "white"; ctx.font "bold 30px Arial";
     ctx.fillText (TCat (TStr "Final Length: ") (TNum (finalScore g)))
                  (width / 2) (height / 2 + 50);
     ctx.font "20px Arial"; ctx.fillStyle "#ccc";
     ctx.fillText (TStr "Press 'S' to Spectate") (width / 2) (height / 2 + 90);
     ctx.restore]
  else [].

Section Render.

Variable Math_sin : Q -> Q.
(** [look pid] holds the fields of [this.players[pid]] that only [render]
    reads, and [dateNow fid] is the value of [Date.now()] in the iteration
    of the food [fid]. *)
Variable look : string -> Look.
Variable dateNow : string -> Q.

(** The body of the food loop after its [continue]. *)
Definition drawFood (now : Q) (f : FoodItem) : list ctx.Cmd :=
  let radius := if is_loot f then 6 + Math_sin (now / 200) * 1 else 3 in
  [ctx.beginPath;
   ctx.arc (food_x f) (food_y f) radius 0 (2 * Math_PI);
   ctx.fillStyle (food_color f);
   ctx.shadowBlur (if is_loot f then 20 else 0);
   ctx.shadowColor (food_color f);
   ctx.fill;
   ctx.shadowBlur 0].

(** One iteration of the snake loop of [render]. *)
Definition drawSnakeEntry (width : Q) (g : Game) (pid : string) (p : Player)
  : option (list ctx.Cmd) :=
  if playerSkipped g width pid then Some []
  else
    vis ← visualPlayers g !! pid;
    pts ← bodyPoints (heap g) (vis_body vis);
    drawSnake (config g) (String.eqb pid (myId g)) p (look pid) vis pts.

(** [render] on a canvas of [width] by [height]. The food loop runs in the
    order of the entries of the map. *)
Definition render (width height : Q) (g : Game) : option (list ctx.Cmd) :=
  ms ← MAP_SIZE (config g);
  grid ← drawGrid ms;
  let foods :=
    flat_map (fun e => if foodCulled g width height (snd e) then []
                       else drawFood (dateNow (fst e)) (snd e))
             (map_to_list (food g)) in
  snakes ← mapM (fun e => drawSnakeEntry width g (fst e) (snd e)) (players g);
  mini ← drawMinimap width height ms g;
  Some ([ctx.fillStyle "#171717"; ctx.fillRect 0 0 width height;
         ctx.save; ctx.translate (width / 2) (height / 2);
         ctx.scale (currentScale g) (currentScale g);
         ctx.translate (- camX g) (- camY g);
         ctx.strokeStyle "#2a2a2a"; ctx.lineWidth 10;
         ctx.strokeRect 0 0 ms ms]
        ++ grid ++ foods ++ concat snakes ++ [ctx.restore]
        ++ mini ++ drawLeaderboard width (leaderboard g)
        ++ drawDeathScreen width height g).

End Render.

(** ** Predicates of the statements on drawing *)

(** The depth of the stack of saved canvas states after the calls [cs],
    from the depth [d]; [None] when a [restore] finds the stack empty. *)
Fixpoint stackAfter (d : nat) (cs : list ctx.Cmd) : option nat :=
  match cs with
  | [] => Some d
  | ctx.save :: rest => stackAfter (S d) rest
  | ctx.restore :: rest =>
      match d with
      | O => None
      | S d' => stackAfter d' rest
      end
  | _ :: rest => stackAfter d rest
  end.

(** A call other than [save] and [restore]. *)
Definition plainCall (c : ctx.Cmd) : Prop :=
  c ≠ ctx.save ∧ c ≠ ctx.restore.

(** The point of a path call, when it has one. *)
Definition pathPoint (c : ctx.Cmd) : option (Q * Q) :=
  match c with
  | ctx.moveTo x y | ctx.lineTo x y | ctx.quadraticCurveTo _ _ x y
  | ctx.arc x y _ _ _ => Some (x, y)
  | _ => None
  end.

(** Every point of the path calls of [cs] lies in the square of side
    [size] at the origin. *)
Definition pathWithin (size : Q) (cs : list ctx.Cmd) : Prop :=
  Forall (fun c => ∀ x y, pathPoint c = Some (x, y) →
                          0 <= x ∧ x <= size ∧ 0 <= y ∧ y <= size) cs.

(** ** A further predicate of the states *)

(** The points of a visual body are distinct objects. *)
Definition visDistinct (h : Heap) (vps : gmap string VisualPlayer) : Prop :=
  ∀ pid vis vbl, vps !! pid = Some vis →
    arrays h !! vis_body vis = Some vbl → NoDup vbl.

(** ** Concrete games used by the examples *)

Definition zoomDemoTick : GameState :=
  mkGameState [("me"%string, mkPlayerData (Some [mkPoint 0 0]) 0 2500)]
              None None.

Definition zoomZeroBase : Config :=
  mkConfig (Some 5000) false (Some 0) (Some 2500).
Definition zoomLowBase : Config :=
  mkConfig (Some 5000) false (Some 0.2) (Some 2500).
Definition zoomNewborn : GameState :=
  mkGameState [("me"%string, mkPlayerData (Some [mkPoint 0 0]) 0 0)]
              None None.

Definition noTrig : Q -> Q := fun _ => 0.
Definition noAtan2 : Q -> Q -> Q := fun _ _ => 0.


(** A snake whose head is a million units above the camera. *)
Definition farAboveTick : GameState :=
  mkGameState
    [("b"%string, mkPlayerData (Some [mkPoint 0 1000000; mkPoint 0 1000010])
                               0 20)]
    None None.

Definition farAboveGame : Game :=
  default (initGame 0)
    (run noTrig noTrig noAtan2 [EvGameTick "me" farAboveTick; EvFrame 16]
         (initGame 0)).

(** Two snapshots of one snake: one point at the origin with angle 0, then
    three points with the head at (100, 0) and angle 1. *)
Definition lerpTick0 : GameState :=
  mkGameState [("b"%string, mkPlayerData (Some [mkPoint 0 0]) 0 20)]
              None None.
Definition lerpTick1 : GameState :=
  mkGameState
    [("b"%string,
      mkPlayerData (Some [mkPoint 100 0; mkPoint 90 0; mkPoint 80 0]) 1 20)]
    None None.

(** A snapshot with the head at (1000, 0). *)
Definition farTick : GameState :=
  mkGameState
    [("b"%string, mkPlayerData (Some [mkPoint 1000 0; mkPoint 990 0]) 2 20)]
    None None.

(** The snake drawn once at the origin, then moved far away. *)
Definition beforeTeleport : Game :=
  default (initGame 0)
    (run noTrig noTrig noAtan2
         [EvGameTick "me" lerpTick0; EvFrame 16; EvGameTick "me" farTick]
         (initGame 0)).


(** The snake drawn once at the origin, then moved by the second
    snapshot: the state before the frame under study. *)
Definition beforeFrame : Game :=
  default (initGame 0)
    (run noTrig noTrig noAtan2
         [EvGameTick "me" lerpTick0; EvFrame 16; EvGameTick "me" lerpTick1]
         (initGame 0)).

(** The frame 300 ms later ([dt = 0.3], [lerpSpeed = 3]). *)
Definition lateFrame : Game :=
  default (initGame 0) (handle noTrig noTrig noAtan2 (EvFrame 316) beforeFrame).

(** The frame at the same instant ([dt = 0]). *)
Definition sameInstantFrame : Game :=
  default (initGame 0) (handle noTrig noTrig noAtan2 (EvFrame 16) beforeFrame).



(** ** Concrete games of the further examples *)





(** A client that knows its id, and three events that do not carry one. *)
Definition connectedGame : Game := on_connect "me" (initGame 0).
Definition idleEvents : list Event :=
  [EvGameTick "other" zoomDemoTick; EvKeyUp "w" "KeyW"; EvDisconnect].
Definition idleGame : Game :=
  default (initGame 0) (run noTrig noTrig noAtan2 idleEvents connectedGame).

(** A spectator that scrolls far down. *)
Definition scrollEvents : list Event := [EvKeyDown "s" "KeyS"; EvWheel 1000].
Definition scrolledGame : Game :=
  default (initGame 0) (run noTrig noTrig noAtan2 scrollEvents (initGame 0)).

Definition rightFood : FoodItem := mkFood 700 100 "red" false.

(** A striped, boosting, named snake in debug state, and a clock at 0. *)
Definition stripedLook : string -> Look :=
  fun _ => mkLook None "#0f0" true "stripe" "bob" "FLEE"
                  (Some [mkDebugLine 0 0 10 10 "white"]).
Definition noClock : string -> Q := fun _ => 0.
Definition lateFrameCalls : list ctx.Cmd :=
  default [] (render noTrig stripedLook noClock 800 600 lateFrame).

Definition fourPoints : list Point :=
  [mkPoint 0 0; mkPoint 10 0; mkPoint 20 10; mkPoint 30 10].

(** * Properties *)

(** ** Comparisons *)

Lemma Qgtb_true (a b : Q) : Qgtb a b = true <-> b < a.
Proof.
  unfold Qgtb. rewrite negb_true_iff.
  split; intros H.
  - apply Qnot_le_lt. intros Hle. apply Qle_bool_iff in Hle. congruence.
  - destruct (Qle_bool a b) eqn:E; [|reflexivity].
    apply Qle_bool_iff in E. lra.
Qed.

Lemma Qgtb_false (a b : Q) : Qgtb a b = false <-> a <= b.
Proof.
  unfold Qgtb. rewrite negb_false_iff. apply Qle_bool_iff.
Qed.

Lemma Qltb_true (a b : Q) : Qltb a b = true <-> a < b.
Proof. apply (Qgtb_true b a). Qed.

Lemma Qltb_false (a b : Q) : Qltb a b = false <-> b <= a.
Proof. apply (Qgtb_false b a). Qed.

(** ** Food diffs *)

Lemma removeFood_lookup (rs : list string) (fd : gmap string FoodItem)
  (k : string) :
  removeFood rs fd !! k = if decide (k ∈ rs) then None else fd !! k.
Proof.
  unfold removeFood. revert fd.
  induction rs as [|r rs IH]; intros fd; simpl.
  - destruct (decide (k ∈ [])) as [H|H]; [set_solver | done].
  - rewrite IH. destruct (decide (k = r)) as [->|Hne].
    + rewrite lookup_delete_eq.
      destruct (decide (r ∈ r :: rs)) as [_|Hn].
      * by destruct (decide (r ∈ rs)).
      * exfalso. apply Hn. left.
    + rewrite lookup_delete_ne by done.
      destruct (decide (k ∈ rs)) as [Hin|Hin];
        destruct (decide (k ∈ r :: rs)) as [Hin'|Hin']; try done.
      * exfalso. apply Hin'. by right.
      * exfalso. apply elem_of_cons in Hin'. tauto.
Qed.


Lemma assignFood_lookup (ad fd : gmap string FoodItem) (k : string) :
  assignFood ad fd !! k =
  match ad !! k with Some v => Some v | None => fd !! k end.
Proof.
  unfold assignFood. rewrite lookup_union.
  destruct (ad !! k), (fd !! k); reflexivity.
Qed.


Lemma tickZoom_fields (g : Game) :
  players (tickZoom g) = players g ∧ myId (tickZoom g) = myId g
  ∧ isDead (tickZoom g) = isDead g ∧ food (tickZoom g) = food g
  ∧ config (tickZoom g) = config g ∧ heap (tickZoom g) = heap g
  ∧ visualPlayers (tickZoom g) = visualPlayers g
  ∧ spectateMode (tickZoom g) = spectateMode g.
Proof.
  unfold tickZoom. destruct (lookupPlayer _ _); [|done].
  destruct (negb (isDead g)); done.
Qed.

Lemma tickSnapshot_fields (sid : string) (gs : GameState) (g : Game) :
  food (tickSnapshot sid gs g) = applyFoodDiff (gs_food_diff gs) (food g)
  ∧ isDead (tickSnapshot sid gs g) = isDead g
  ∧ config (tickSnapshot sid gs g) = config g
  ∧ visualPlayers (tickSnapshot sid gs g) = visualPlayers g
  ∧ spectateMode (tickSnapshot sid gs g) = spectateMode g
  ∧ heap (tickSnapshot sid gs g) = fst (loadPlayers (heap g) (gs_players gs))
  ∧ players (tickSnapshot sid gs g)
    = snd (loadPlayers (heap g) (gs_players gs)).
Proof.
  unfold tickSnapshot.
  destruct (loadPlayers (heap g) (gs_players gs)) as [h ps]. simpl.
  destruct (negb (truthy (myId g)) && truthy sid); done.
Qed.




(** ** Zoom target *)

Lemma orDefault_supplied (q d : Q) : ¬ q == 0 → orDefault (Some q) d = q.
Proof.
  intros Hq. unfold orDefault.
  destruct (Qeq_bool q 0) eqn:E; [|reflexivity].
  apply Qeq_bool_iff in E. contradiction.
Qed.

Lemma zoomTarget_floor (cfg : Config) (len : Q) : 0.4 <= zoomTarget cfg len.
Proof. unfold zoomTarget. apply Q.le_max_l. Qed.

Lemma Qdiv_nonneg (a b : Q) : 0 <= a → 0 < b → 0 <= a / b.
Proof. intros Ha Hb. apply Qle_shift_div_l; lra. Qed.

Lemma Qdiv_antitone (b x y : Q) :
  0 <= b → 0 < x → x <= y → b / y <= b / x.
Proof.
  intros Hb Hx Hxy.
  assert (Hq : 0 <= b / x) by (by apply Qdiv_nonneg).
  assert (E : b / x * x == b) by (field; lra).
  apply Qle_shift_div_r; [lra|]. nra.
Qed.

Lemma Qdiv_monotone (a b d : Q) : 0 < d → a <= b → a / d <= b / d.
Proof.
  intros Hd Hab.
  assert (E : b / d * d == b) by (field; lra).
  apply Qle_shift_div_r; [lra|]. lra.
Qed.

Lemma zoom_quotient_antitone (base damp l1 l2 : Q) :
  0 <= base → 0 < damp → 0 <= l1 → l1 <= l2 →
  base / (1 + l2 / damp) <= base / (1 + l1 / damp).
Proof.
  intros Hb Hd H1 H2.
  pose proof (Qdiv_nonneg l1 damp H1 Hd).
  pose proof (Qdiv_monotone l1 l2 damp Hd H2).
  apply Qdiv_antitone; lra.
Qed.

Lemma zoomTarget_antitone (cfg : Config) (l1 l2 : Q) :
  0 <= orDefault (ZOOM_BASE cfg) 1.8 →
  0 < orDefault (ZOOM_DAMPENER cfg) 2500 →
  0 <= l1 → l1 <= l2 →
  zoomTarget cfg l2 <= zoomTarget cfg l1.
Proof.
  intros Hb Hd H1 H2. unfold zoomTarget.
  apply Q.max_le_compat_l. by apply zoom_quotient_antitone.
Qed.

Lemma zoomTarget_zero (cfg : Config) :
  0.4 <= orDefault (ZOOM_BASE cfg) 1.8 →
  ¬ orDefault (ZOOM_DAMPENER cfg) 2500 == 0 →
  zoomTarget cfg 0 == orDefault (ZOOM_BASE cfg) 1.8.
Proof.
  intros Hb Hd. unfold zoomTarget.
  set (b := orDefault (ZOOM_BASE cfg) 1.8) in *.
  set (d := orDefault (ZOOM_DAMPENER cfg) 2500) in *.
  assert (E : b / (1 + 0 / d) == b) by (field; lra).
  rewrite E. apply Q.max_r. exact Hb.
Qed.

Lemma on_game_tick_targetScale (sid : string) (gs : GameState) (g : Game)
  (me : Player) :
  lookupPlayer (players (on_game_tick sid gs g)) (myId (on_game_tick sid gs g))
    = Some me →
  isDead g = false →
  targetScale (on_game_tick sid gs g) = zoomTarget (config g) (p_length me).
Proof.
  unfold on_game_tick. set (g1 := tickSnapshot sid gs g).
  destruct (tickZoom_fields g1) as (-> & -> & _).
  destruct (tickSnapshot_fields sid gs g) as (_ & Hdead & Hcfg & _).
  fold g1 in Hdead, Hcfg.
  intros Hme Hd. unfold tickZoom. rewrite Hme, Hdead, Hd. simpl.
  by rewrite Hcfg.
Qed.

(** C6 (as amended): on a [game_tick] where the local player exists and is
    not dead, the camera target becomes
    [max(0.4, base / (1 + length / damp))], where [base] is the configured
    [ZOOM_BASE] unless that is missing or zero (then 1.8) and [damp] the
    configured [ZOOM_DAMPENER] unless missing or zero (then 2500). Non-zero
    configured constants are the ones used. For [base >= 0] and [damp > 0]
    the target does not increase with the length, it never goes below 0.4,
    and it equals [base] at length 0 when [base >= 0.4]. *)
Theorem tick_zoom_target (sid : string) (gs : GameState) (g : Game)
  (me : Player) :
  lookupPlayer (players (on_game_tick sid gs g)) (myId (on_game_tick sid gs g))
    = Some me →
  isDead g = false →
  let base := orDefault (ZOOM_BASE (config g)) 1.8 in
  let damp := orDefault (ZOOM_DAMPENER (config g)) 2500 in
  targetScale (on_game_tick sid gs g)
    = Qmax 0.4 (base / (1 + p_length me / damp))
  ∧ (∀ b, ZOOM_BASE (config g) = Some b → ¬ b == 0 → base = b)
  ∧ (∀ d, ZOOM_DAMPENER (config g) = Some d → ¬ d == 0 → damp = d)
  ∧ 0.4 <= targetScale (on_game_tick sid gs g)
  ∧ (0 <= base → 0 < damp → ∀ l1 l2, 0 <= l1 → l1 <= l2 →
     zoomTarget (config g) l2 <= zoomTarget (config g) l1)
  ∧ (0.4 <= base → 0 < damp → zoomTarget (config g) 0 == base).
Proof.
  intros Hme Hd base damp.
  rewrite (on_game_tick_targetScale sid gs g me Hme Hd).
  split; [reflexivity|]. split; [|split; [|split; [|split]]].
  - intros b Hb Hnz. unfold base. rewrite Hb. by apply orDefault_supplied.
  - intros d Hdm Hnz. unfold damp. rewrite Hdm. by apply orDefault_supplied.
  - apply zoomTarget_floor.
  - intros Hb Hdp l1 l2 H1 H2. by apply zoomTarget_antitone.
  - intros Hb Hdp. apply zoomTarget_zero; [exact Hb|]. fold damp. lra.
Qed.

Lemma tick_zoom_target_witness :
  targetScale (on_game_tick "me" zoomDemoTick (initGame 0)) == 0.9.
Proof.
  destruct (tick_zoom_target "me" zoomDemoTick (initGame 0)
              (mkPlayer (Some 1%positive) 0 2500) eq_refl eq_refl)
    as (H & _).
  rewrite H. reflexivity.
Defined.

(** C6, as first stated, fails: with a configured [ZOOM_BASE] of 0 the
    handler takes 1.8 and not the configured constant, and with a configured
    [ZOOM_BASE] of 0.2 the target at length 0 is the floor 0.4, not
    [ZOOM_BASE]. *)
Lemma tick_zoom_target_counterexample :
  (let g := on_game_tick "me" zoomNewborn
              (on_init_config zoomZeroBase (initGame 0)) in
   isDead g = false
   ∧ lookupPlayer (players g) (myId g) = Some (mkPlayer (Some 1%positive) 0 0)
   ∧ targetScale g == 1.8
   ∧ ¬ targetScale g == Qmax 0.4 (0 / (1 + 0 / 2500)))
  ∧ (let g := on_game_tick "me" zoomNewborn
                (on_init_config zoomLowBase (initGame 0)) in
     isDead g = false
     ∧ lookupPlayer (players g) (myId g)
       = Some (mkPlayer (Some 1%positive) 0 0)
     ∧ targetScale g == 0.4
     ∧ ¬ targetScale g == 0.2).
Proof.
  split; simpl; (split; [reflexivity|]); (split; [reflexivity|]);
    (split; [reflexivity|]); intros H; discriminate H.
Qed.

(** The older copy of the handler does not read the configuration: with
    the constants of the example (1.8 and 2500 configured, length 2500) it
    gives 1.8 / 1.625 and not 0.9. *)
Lemma zoomTarget_inline_example :
  zoomTarget_inline 2500 == 1.8 / 1.625 ∧ ¬ zoomTarget_inline 2500 == 0.9.
Proof. split; [reflexivity|]. intros H. discriminate H. Qed.

(** ** The state machine: who may set [isDead] to [false] *)

Section StateMachine.

Variable Math_cos Math_sin : Q -> Q.
Variable Math_atan2 : Q -> Q -> Q.

Lemma updateSpectatorMovement_flags (dt : Q) (g : Game) :
  isDead (updateSpectatorMovement dt g) = isDead g
  ∧ spectateMode (updateSpectatorMovement dt g) = spectateMode g
  ∧ targetScale (updateSpectatorMovement dt g) = targetScale g.
Proof.
  unfold updateSpectatorMovement.
  repeat match goal with
         | |- context [if ?b then _ else _] => destruct b; simpl
         end; done.
Qed.

Lemma updateCamera_flags (dt : Q) (g : Game) :
  isDead (updateCamera Math_cos Math_sin dt g) = isDead g
  ∧ spectateMode (updateCamera Math_cos Math_sin dt g) = spectateMode g.
Proof.
  unfold updateCamera.
  destruct (spectateMode g) eqn:Es.
  - simpl. destruct (updateSpectatorMovement_flags dt g) as (-> & -> & _).
    done.
  - destruct (isDead g) eqn:Ed; simpl; [done|].
    destruct (visualPlayers g !! myId g) as [me|]; simpl; [|done].
    destruct (hypot_gt _ _ _); done.
Qed.

Lemma updateVisuals_flags (dt : Q) (g g' : Game) :
  updateVisuals Math_cos Math_sin dt g = Some g' →
  isDead g' = isDead g ∧ spectateMode g' = spectateMode g.
Proof.
  unfold updateVisuals. intros H.
  destruct (interpolate _ _ _ _ _) as [[h vps]|]; [|discriminate].
  simpl in H. inversion H; subst; clear H.
  destruct (updateCamera_flags dt (set_visualPlayers vps (set_heap h g)))
    as (-> & ->).
  done.
Qed.

Lemma emit_flags (e : Emit) (g : Game) :
  isDead (emit e g) = isDead g ∧ spectateMode (emit e g) = spectateMode g.
Proof. done. Qed.

Lemma on_game_tick_flags (sid : string) (gs : GameState) (g : Game) :
  isDead (on_game_tick sid gs g) = isDead g
  ∧ spectateMode (on_game_tick sid gs g) = spectateMode g.
Proof.
  unfold on_game_tick.
  destruct (tickZoom_fields (tickSnapshot sid gs g))
    as (_ & _ & -> & _ & _ & _ & _ & ->).
  destruct (tickSnapshot_fields sid gs g) as (_ & -> & _ & _ & -> & _).
  done.
Qed.






End StateMachine.



(** ** Culling of snakes in [render] *)





Lemma farAboveGame_reached :
  run noTrig noTrig noAtan2 [EvGameTick "me" farAboveTick; EvFrame 16]
      (initGame 0) = Some farAboveGame.
Proof. vm_compute. reflexivity. Qed.



(** ** The heap: allocation and copies *)

Lemma point_eta (p : Point) : mkPoint (pt_x p) (pt_y p) = p.
Proof. by destruct p. Qed.

Lemma allocPoint_spec (h : Heap) (p : Point) :
  ∃ l h', allocPoint h p = (l, h')
    ∧ points h !! l = None
    ∧ points h' = <[l := p]> (points h)
    ∧ arrays h' = arrays h.
Proof.
  eexists _, _. split; [reflexivity|]. simpl. split; [|done].
  apply not_elem_of_dom. apply is_fresh.
Qed.

Lemma allocArray_spec (h : Heap) (els : list loc) :
  ∃ a h', allocArray h els = (a, h')
    ∧ arrays h !! a = None
    ∧ arrays h' = <[a := els]> (arrays h)
    ∧ points h' = points h.
Proof.
  eexists _, _. split; [reflexivity|]. simpl. split; [|done].
  apply not_elem_of_dom. apply is_fresh.
Qed.

Opaque allocPoint allocArray.

Lemma allocated_weaken (h h' : Heap) (ls : list loc) :
  points h ⊆ points h' → allocated h ls → allocated h' ls.
Proof.
  intros Hsub Hal. unfold allocated. eapply Forall_impl; [exact Hal|].
  intros l [p Hp]. exists p. by eapply lookup_weaken.
Qed.

Lemma copyPoints_spec (ls : list loc) : ∀ h : Heap,
  allocated h ls →
  ∃ h' ls', copyPoints h ls = Some (h', ls')
    ∧ arrays h' = arrays h
    ∧ points h ⊆ points h'
    ∧ Forall (fun l => points h !! l = None) ls'
    ∧ allocated h' ls'
    ∧ NoDup ls'
    ∧ Forall2 (fun b l => ∀ pb, points h !! b = Some pb →
                                 points h' !! l = Some pb) ls ls'
    ∧ (∀ l, is_Some (points h' !! l) → is_Some (points h !! l) ∨ l ∈ ls').
Proof.
  induction ls as [|b rest IH]; intros h Hal.
  - exists h, []. simpl. repeat split; try done; try constructor; auto.
  - apply Forall_cons in Hal as [[pb Hb] Hrest].
    destruct (allocPoint_spec h (mkPoint (pt_x pb) (pt_y pb)))
      as (l & h1 & Hal1 & Hfresh & Hp1 & Ha1).
    assert (Hsub1 : points h ⊆ points h1).
    { rewrite Hp1. by apply insert_subseteq. }
    destruct (IH h1 (allocated_weaken h h1 rest Hsub1 Hrest))
      as (h2 & ls' & Hc & Ha2 & Hsub2 & Hfr2 & Hal2 & Hnd & Hval & Hdom).
    exists h2, (l :: ls'). simpl. rewrite Hb. simpl. rewrite Hal1, Hc. simpl.
    assert (Hl1 : points h1 !! l = Some pb).
    { rewrite Hp1, lookup_insert_eq. by rewrite point_eta. }
    assert (Hl2 : points h2 !! l = Some pb) by (by eapply lookup_weaken).
    assert (Hnotin : l ∉ ls').
    { intros Hin. rewrite Forall_forall in Hfr2.
      specialize (Hfr2 l Hin). congruence. }
    split; [reflexivity|]. split; [congruence|].
    split; [by etrans|]. split.
    { constructor; [done|]. eapply Forall_impl; [exact Hfr2|].
      intros x Hx. simpl in Hx. destruct (points h !! x) eqn:E; [|done].
      eapply lookup_weaken in E; [|exact Hsub1]. congruence. }
    split. { constructor; [by eexists|done]. }
    split. { by constructor. }
    split.
    { constructor; [congruence|].
      eapply Forall2_impl; [exact Hval|]. intros x y Hxy px Hpx.
      apply Hxy. by eapply lookup_weaken. }
    intros x Hx. destruct (Hdom x Hx) as [H1|H1].
    + rewrite Hp1 in H1. destruct (decide (l = x)) as [->|Hne].
      * right. left.
      * rewrite lookup_insert_ne in H1 by done. by left.
    + right. by right.
Qed.

Lemma copyBody_spec (h : Heap) (pa : loc) (pal : list loc) :
  arrays h !! pa = Some pal →
  allocated h pal →
  ∃ h' a ls', copyBody h pa = Some (h', a)
    ∧ arrays h !! a = None
    ∧ arrays h' = <[a := ls']> (arrays h)
    ∧ points h ⊆ points h'
    ∧ Forall (fun l => points h !! l = None) ls'
    ∧ allocated h' ls'
    ∧ NoDup ls'
    ∧ Forall2 (fun b l => ∀ pb, points h !! b = Some pb →
                                 points h' !! l = Some pb) pal ls'
    ∧ (∀ l, is_Some (points h' !! l) → is_Some (points h !! l) ∨ l ∈ ls').
Proof.
  intros Hpa Hal.
  destruct (copyPoints_spec pal h Hal)
    as (h1 & ls' & Hc & Ha1 & Hsub & Hfr & Hal' & Hnd & Hval & Hdom).
  destruct (allocArray_spec h1 ls') as (a & h2 & Haa & Hfa & Ha2 & Hp2).
  exists h2, a, ls'. unfold copyBody. rewrite Hpa. simpl. rewrite Hc. simpl.
  rewrite Haa. rewrite Hp2, Ha2, Ha1. unfold allocated. rewrite Hp2.
  rewrite Ha1 in Hfa. done.
Qed.

Lemma last_nonempty {A} (l : list A) : l ≠ [] → ∃ x, last l = Some x.
Proof.
  intros Hne. destruct (last l) as [x|] eqn:E; [by eexists|].
  apply last_None in E. contradiction.
Qed.

Section Reconcile.

Variables vb pa : loc.
Variable pal : list loc.
Hypothesis Hsep : vb ≠ pa.

Lemma growBody_spec (fuel : nat) : ∀ (h : Heap) (vbl : list loc),
  arrays h !! vb = Some vbl →
  arrays h !! pa = Some pal →
  vbl ≠ [] →
  allocated h vbl →
  (length pal - length vbl ≤ fuel)%nat →
  ∃ h' extra, growBody fuel h vb pa = Some h'
    ∧ arrays h' = <[vb := vbl ++ extra]> (arrays h)
    ∧ points h ⊆ points h'
    ∧ Forall (fun l => points h !! l = None) extra
    ∧ NoDup extra
    ∧ length extra = (length pal - length vbl)%nat
    ∧ (∀ tl pt, last vbl = Some tl → points h !! tl = Some pt →
         Forall (fun l => points h' !! l = Some pt) extra)
    ∧ (∀ l, is_Some (points h' !! l) → is_Some (points h !! l) ∨ l ∈ extra).
Proof.
  induction fuel as [|fuel IH]; intros h vbl Hvb Hpa Hne Hal Hfuel.
  - exists h, []. simpl. rewrite Hvb, Hpa. simpl.
    destruct (Nat.ltb_spec (length vbl) (length pal)) as [Hlt|Hge]; [lia|].
    rewrite app_nil_r, insert_id by done.
    repeat split; try done; try constructor; auto. simpl. lia.
  - simpl. rewrite Hvb, Hpa. simpl.
    destruct (Nat.ltb_spec (length vbl) (length pal)) as [Hlt|Hge].
    + destruct (last_nonempty vbl Hne) as [tl Htl].
      assert (Htlin : tl ∈ vbl).
      { apply last_Some in Htl as [l' ->]. apply elem_of_app. right. left. }
      unfold allocated in Hal. rewrite Forall_forall in Hal.
      destruct (Hal tl Htlin) as [pt Hpt].
      rewrite Htl. simpl. rewrite Hpt. simpl.
      destruct (allocPoint_spec h (mkPoint (pt_x pt) (pt_y pt)))
        as (l & h1 & Hal1 & Hfresh & Hp1 & Ha1).
      rewrite Hal1. rewrite point_eta in Hp1.
      set (h2 := writeArray h1 vb (vbl ++ [l])).
      assert (Hsub1 : points h ⊆ points h2).
      { simpl. rewrite Hp1. by apply insert_subseteq. }
      assert (Hl2 : points h2 !! l = Some pt).
      { simpl. by rewrite Hp1, lookup_insert_eq. }
      destruct (IH h2 (vbl ++ [l])) as (h' & extra & Hg & Ha' & Hsub' & Hfr'
                                         & Hnd' & Hlen' & Hval' & Hdom').
      { simpl. by rewrite lookup_insert_eq. }
      { simpl. rewrite lookup_insert_ne by done. by rewrite Ha1. }
      { by destruct vbl. }
      { unfold allocated. apply Forall_app. split.
        - apply Forall_forall. intros x Hx. destruct (Hal x Hx) as [px Hpx].
          exists px. by eapply lookup_weaken.
        - constructor; [by eexists|constructor]. }
      { rewrite length_app. simpl. lia. }
      exists h', (l :: extra). rewrite Hg.
      assert (Hnotin : l ∉ extra).
      { intros Hin. rewrite Forall_forall in Hfr'.
        specialize (Hfr' l Hin). congruence. }
      split; [reflexivity|]. split.
      { rewrite Ha'. simpl. rewrite Ha1, insert_insert_eq.
        by rewrite <- app_assoc. }
      split; [by etrans|]. split.
      { constructor; [done|]. eapply Forall_impl; [exact Hfr'|].
        intros x Hx. cbv beta in Hx. destruct (points h !! x) eqn:E; [|done].
        eapply lookup_weaken in E; [|exact Hsub1]. congruence. }
      split; [by constructor|]. split.
      { simpl. rewrite Hlen', length_app. simpl. lia. }
      split.
      { intros tl' pt' Htl' Hpt'. assert (tl' = tl) by congruence. subst tl'.
        assert (pt' = pt) by congruence. subst pt'.
        constructor; [by eapply lookup_weaken|].
        apply (Hval' l pt); [|exact Hl2]. by rewrite last_snoc. }
      intros x Hx. destruct (Hdom' x Hx) as [H1|H1].
      * simpl in H1. rewrite Hp1 in H1.
        destruct (decide (l = x)) as [->|Hnx]; [right; left|].
        rewrite lookup_insert_ne in H1 by done. by left.
      * right. by right.
    + exists h, []. rewrite app_nil_r, insert_id by done.
      repeat split; try done; try constructor; auto. simpl. lia.
Qed.

Lemma removelast_take {A} (l : list A) : removelast l = take (length l - 1) l.
Proof.
  destruct l as [|x l] using rev_ind; [done|].
  rewrite removelast_last, length_app. simpl.
  replace (length l + 1 - 1)%nat with (length l) by lia.
  by rewrite take_app_length.
Qed.

Lemma shrinkBody_spec (fuel : nat) : ∀ (h : Heap) (vbl : list loc),
  arrays h !! vb = Some vbl →
  arrays h !! pa = Some pal →
  (length vbl - length pal ≤ fuel)%nat →
  ∃ h', shrinkBody fuel h vb pa = Some h'
    ∧ points h' = points h
    ∧ arrays h' = <[vb := take (length pal) vbl]> (arrays h).
Proof.
  induction fuel as [|fuel IH]; intros h vbl Hvb Hpa Hfuel.
  - exists h. simpl. rewrite Hvb, Hpa. simpl.
    destruct (Nat.ltb_spec (length pal) (length vbl)) as [Hlt|Hge]; [lia|].
    rewrite take_ge by done. by rewrite insert_id.
  - simpl. rewrite Hvb, Hpa. simpl.
    destruct (Nat.ltb_spec (length pal) (length vbl)) as [Hlt|Hge].
    + set (h1 := writeArray h vb (removelast vbl)).
      destruct (IH h1 (removelast vbl)) as (h' & Hs & Hp' & Ha').
      { simpl. by rewrite lookup_insert_eq. }
      { simpl. by rewrite lookup_insert_ne. }
      { rewrite removelast_take, length_take. lia. }
      exists h'. rewrite Hs. split; [done|]. split; [done|].
      rewrite Ha'. simpl. rewrite insert_insert_eq.
      rewrite removelast_take, take_take. f_equal. f_equal. lia.
    + exists h. rewrite take_ge by done. by rewrite insert_id.
Qed.

Lemma reconcileBody_spec (h : Heap) (vbl : list loc) :
  arrays h !! vb = Some vbl →
  arrays h !! pa = Some pal →
  vbl ≠ [] →
  allocated h vbl →
  ∃ h' extra, reconcileBody h vb pa = Some h'
    ∧ arrays h' = <[vb := take (length pal) (vbl ++ extra)]> (arrays h)
    ∧ points h ⊆ points h'
    ∧ Forall (fun l => points h !! l = None) extra
    ∧ NoDup extra
    ∧ length extra = (length pal - length vbl)%nat
    ∧ (∀ tl pt, last vbl = Some tl → points h !! tl = Some pt →
         Forall (fun l => points h' !! l = Some pt) extra)
    ∧ (∀ l, is_Some (points h' !! l) → is_Some (points h !! l) ∨ l ∈ extra).
Proof.
  intros Hvb Hpa Hne Hal.
  destruct (growBody_spec (length pal - length vbl) h vbl Hvb Hpa Hne Hal)
    as (h1 & extra & Hg & Ha1 & Hsub & Hfr & Hnd & Hlen & Hval & Hdom);
    [lia|].
  destruct (shrinkBody_spec (length vbl - length pal) h1 (vbl ++ extra))
    as (h2 & Hs & Hp2 & Ha2).
  { by rewrite Ha1, lookup_insert_eq. }
  { rewrite Ha1, lookup_insert_ne by done. exact Hpa. }
  { rewrite length_app, Hlen. lia. }
  exists h2, extra. unfold reconcileBody. rewrite Hvb, Hpa. simpl.
  rewrite Hg. simpl. rewrite Hs. rewrite Hp2.
  split; [done|]. split; [|done].
  by rewrite Ha2, Ha1, insert_insert_eq.
Qed.

End Reconcile.

(** ** Index-wise interpolation of the body *)

Lemma allocated_lookup (h : Heap) (ls : list loc) (i : nat) (l : loc) :
  allocated h ls → ls !! i = Some l → is_Some (points h !! l).
Proof.
  intros Hal Hi. unfold allocated in Hal. rewrite Forall_forall in Hal.
  apply Hal. by eapply list_elem_of_lookup_2.
Qed.

Lemma allocated_writePoint (h : Heap) (l : loc) (p : Point) (ls : list loc) :
  allocated h ls → allocated (writePoint h l p) ls.
Proof.
  intros Hal. eapply Forall_impl; [exact Hal|]. intros x [px Hx]. simpl.
  destruct (decide (l = x)) as [->|Hne].
  - rewrite lookup_insert_eq. by eexists.
  - rewrite lookup_insert_ne by done. by eexists.
Qed.

Section LerpBody.

Variable s : Q.
Variables vb pa : loc.
Variables pal vbl : list loc.
Hypothesis Hlen : length vbl = length pal.

Lemma lerpBody_spec (fuel : nat) : ∀ (i : nat) (h : Heap),
  arrays h !! pa = Some pal →
  arrays h !! vb = Some vbl →
  allocated h pal →
  allocated h vbl →
  (length pal - i ≤ fuel)%nat →
  ∃ h', lerpBody fuel s vb pa i h = Some h'
    ∧ arrays h' = arrays h
    ∧ (∀ l, l ∉ vbl → points h' !! l = points h !! l)
    ∧ (∀ l, is_Some (points h' !! l) ↔ is_Some (points h !! l))
    ∧ (NoDup vbl → (∀ l, l ∈ vbl → l ∉ pal) →
       ∀ j l b cur tgt,
         vbl !! j = Some l → pal !! j = Some b →
         points h !! l = Some cur → points h !! b = Some tgt →
         points h' !! l
         = Some (if decide (i ≤ j)%nat then lerpTo s cur tgt else cur)).
Proof.
  induction fuel as [|fuel IH]; intros i h Hpa Hvb Halp Halv Hfuel.
  - exists h. simpl. rewrite Hpa. simpl.
    destruct (Nat.ltb_spec i (length pal)) as [Hlt|Hge]; [lia|].
    repeat split; try done.
    intros _ _ j l b cur tgt Hj Hb Hl _.
    apply lookup_lt_Some in Hb. case_decide; [lia|done].
  - simpl. rewrite Hpa. simpl.
    destruct (Nat.ltb_spec i (length pal)) as [Hlt|Hge].
    + destruct (lookup_lt_is_Some_2 pal i Hlt) as [bi Hbi].
      assert (Hlt' : (i < length vbl)%nat) by lia.
      destruct (lookup_lt_is_Some_2 vbl i Hlt') as [li Hli].
      destruct (allocated_lookup h pal i bi Halp Hbi) as [tgti Htgt].
      destruct (allocated_lookup h vbl i li Halv Hli) as [curi Hcur].
      unfold lerpPoint. rewrite Hpa. simpl. rewrite Hbi. simpl.
      rewrite Htgt. simpl. rewrite Hvb. simpl. rewrite Hli. simpl.
      rewrite Hcur. simpl.
      set (h1 := writePoint h li (lerpTo s curi tgti)).
      destruct (IH (S i) h1) as (h' & Hl' & Ha' & Hfr' & Hdom' & Hval');
        [done|done|by apply allocated_writePoint
         |by apply allocated_writePoint|lia|].
      exists h'. split; [exact Hl'|]. split; [by rewrite Ha'|].
      split; [|split].
      * intros l Hl. rewrite (Hfr' l Hl). simpl.
        rewrite lookup_insert_ne; [done|]. intros ->. apply Hl.
        by eapply list_elem_of_lookup_2.
      * intros l. rewrite (Hdom' l). simpl.
        destruct (decide (li = l)) as [->|Hne].
        -- rewrite lookup_insert_eq. split; intros _; by eexists.
        -- by rewrite lookup_insert_ne.
      * intros Hnd Hdisj j l b cur tgt Hj Hb Hl Ht.
        assert (Hbl : b ≠ li).
        { intros ->. eapply (Hdisj li); by eapply list_elem_of_lookup_2. }
        assert (Ht1 : points h1 !! b = Some tgt).
        { simpl. by rewrite lookup_insert_ne. }
        destruct (decide (j = i)) as [->|Hji].
        -- assert (l = li) by congruence. subst l.
           assert (bi = b) by congruence. subst bi.
           assert (curi = cur) by congruence. subst curi.
           assert (tgti = tgt) by congruence. subst tgti.
           assert (Hl1 : points h1 !! li = Some (lerpTo s cur tgt)).
           { simpl. by rewrite lookup_insert_eq. }
           rewrite (Hval' Hnd Hdisj i li b _ tgt Hj Hb Hl1 Ht1).
           repeat case_decide; try lia; done.
        -- assert (Hlli : li ≠ l).
           { intros ->. apply Hji. by eapply NoDup_lookup. }
           assert (Hl1 : points h1 !! l = Some cur).
           { simpl. by rewrite lookup_insert_ne. }
           rewrite (Hval' Hnd Hdisj j l b cur tgt Hj Hb Hl1 Ht1).
           repeat case_decide; try lia; done.
    + exists h. repeat split; try done.
      intros _ _ j l b cur tgt Hj Hb Hl _.
      apply lookup_lt_Some in Hb. case_decide; [lia|done].
Qed.

End LerpBody.

(** ** Wrapping of the angle difference *)

Lemma Math_PI_pos : 0 < Math_PI.
Proof. reflexivity. Qed.

Opaque Math_PI.

Lemma Qnat_O : inject_Z (Z.of_nat 0) == 0.
Proof. reflexivity. Qed.

Lemma Qnat_S (n : nat) :
  inject_Z (Z.of_nat (S n)) == inject_Z (Z.of_nat n) + 1.
Proof. rewrite Nat2Z.inj_succ, <- Z.add_1_r, inject_Z_plus. reflexivity. Qed.

Lemma wrapDown_spec (fuel : nat) : ∀ d : Q,
  d <= Math_PI + inject_Z (Z.of_nat fuel) * (Math_PI * 2) →
  ∃ (r : Q) (k : nat), wrapDown fuel d = Some r
    ∧ r == d - inject_Z (Z.of_nat k) * (Math_PI * 2)
    ∧ r <= Math_PI
    ∧ (k = 0%nat → r = d)
    ∧ (k ≠ 0%nat → - Math_PI < r).
Proof.
  pose proof Math_PI_pos as Hpi.
  induction fuel as [|fuel IH]; intros d Hd.
  - exists d, 0%nat. rewrite Qnat_O in *. simpl.
    destruct (Qgtb d Math_PI) eqn:E.
    + apply Qgtb_true in E. lra.
    + apply Qgtb_false in E. repeat split; try done. lra.
  - simpl. destruct (Qgtb d Math_PI) eqn:E.
    + apply Qgtb_true in E. rewrite Qnat_S in Hd.
      destruct (IH (d - Math_PI * 2)) as (r & k & Hr & Hk & Hle & H0 & Hpos);
        [lra|].
      exists r, (S k). split; [exact Hr|]. split.
      { rewrite Qnat_S. lra. }
      split; [exact Hle|]. split; [lia|]. intros _.
      destruct k as [|k].
      * rewrite (H0 eq_refl). lra.
      * apply Hpos. lia.
    + apply Qgtb_false in E. exists d, 0%nat. rewrite Qnat_O.
      repeat split; try done. lra.
Qed.

Lemma wrapUp_spec (fuel : nat) : ∀ d : Q,
  - Math_PI - inject_Z (Z.of_nat fuel) * (Math_PI * 2) <= d →
  ∃ (r : Q) (k : nat), wrapUp fuel d = Some r
    ∧ r == d + inject_Z (Z.of_nat k) * (Math_PI * 2)
    ∧ - Math_PI <= r
    ∧ (k = 0%nat → r = d)
    ∧ (k ≠ 0%nat → r < Math_PI).
Proof.
  pose proof Math_PI_pos as Hpi.
  induction fuel as [|fuel IH]; intros d Hd.
  - exists d, 0%nat. rewrite Qnat_O in *. simpl.
    destruct (Qltb d (- Math_PI)) eqn:E.
    + apply Qltb_true in E. lra.
    + apply Qltb_false in E. repeat split; try done. lra.
  - simpl. destruct (Qltb d (- Math_PI)) eqn:E.
    + apply Qltb_true in E. rewrite Qnat_S in Hd.
      destruct (IH (d + Math_PI * 2)) as (r & k & Hr & Hk & Hle & H0 & Hpos);
        [lra|].
      exists r, (S k). split; [exact Hr|]. split.
      { rewrite Qnat_S. lra. }
      split; [exact Hle|]. split; [lia|]. intros _.
      destruct k as [|k].
      * rewrite (H0 eq_refl). lra.
      * apply Hpos. lia.
    + apply Qltb_false in E. exists d, 0%nat. rewrite Qnat_O.
      repeat split; try done. lra.
Qed.

Lemma wrapFuel_enough (d : Q) :
  Qabs d <= inject_Z (Z.of_nat (wrapFuel d)) * (Math_PI * 2).
Proof.
  pose proof Math_PI_pos as Hpi. unfold wrapFuel.
  set (x := Qabs d / (Math_PI * 2)).
  assert (Hx0 : 0 <= x).
  { unfold x. apply Qle_shift_div_l; [lra|].
    pose proof (Qabs_nonneg d). lra. }
  assert (Hc0 : (0 <= Qceiling x)%Z).
  { change 0%Z with (Qceiling 0). by apply Qceiling_resp_le. }
  rewrite Z2Nat.id by exact Hc0.
  pose proof (Qle_ceiling x) as Hc.
  assert (E : Qabs d == x * (Math_PI * 2)) by (unfold x; field; lra).
  rewrite E. nra.
Qed.

(** The two loops leave a difference in [[-π, π]] that differs from the raw
    one by a whole number of turns. *)
Lemma wrapDiff_spec (d : Q) :
  ∃ (w : Q) (k : Z), wrapDiff d = Some w
    ∧ w == d - inject_Z k * (Math_PI * 2)
    ∧ - Math_PI <= w ∧ w <= Math_PI.
Proof.
  pose proof Math_PI_pos as Hpi.
  pose proof (wrapFuel_enough d) as Hf.
  assert (Habs : - Qabs d <= d ∧ d <= Qabs d).
  { split; [|apply Qle_Qabs].
    pose proof (Qle_Qabs (- d)) as H. rewrite Qabs_opp in H. lra. }
  destruct (wrapDown_spec (wrapFuel d) d) as (r & k & Hr & Hk & Hle & H0 & Hp);
    [lra|].
  destruct k as [|k].
  - rewrite (H0 eq_refl) in *.
    destruct (wrapUp_spec (wrapFuel d) d) as (w & j & Hw & Hj & Hge & J0 & Jp);
      [lra|].
    exists w, (- Z.of_nat j)%Z. unfold wrapDiff. rewrite Hr. simpl.
    split; [exact Hw|]. split; [rewrite inject_Z_opp; lra|].
    split; [exact Hge|]. destruct j as [|j].
    + rewrite (J0 eq_refl). exact Hle.
    + assert (w < Math_PI) by (apply Jp; lia). lra.
  - assert (Hgt : - Math_PI < r) by (apply Hp; lia).
    exists r, (Z.of_nat (S k)). unfold wrapDiff. rewrite Hr. simpl.
    split.
    { destruct (wrapFuel d); simpl.
      - destruct (Qltb r (- Math_PI)) eqn:E; [|done].
        apply Qltb_true in E. lra.
      - destruct (Qltb r (- Math_PI)) eqn:E; [|done].
        apply Qltb_true in E. lra. }
    split; [exact Hk|]. split; lra.
Qed.

Lemma inject_Z_ge_1 (m : Z) : (1 <= m)%Z → 1 <= inject_Z m.
Proof. intros H. change 1 with (inject_Z 1). by rewrite <- Zle_Qle. Qed.

Lemma inject_Z_le_m1 (m : Z) : (m <= -1)%Z → inject_Z m <= -1.
Proof. intros H. change (-1) with (inject_Z (-1)). by rewrite <- Zle_Qle. Qed.

(** A wrapped difference after a step of fraction [s] in [[0, 2]] is not
    larger than the wrapped difference before it. *)
Lemma wrapped_step_shrinks (d w w' s : Q) (k k' : Z) :
  w == d - inject_Z k * (Math_PI * 2) →
  - Math_PI <= w → w <= Math_PI →
  w' == (d - w * s) - inject_Z k' * (Math_PI * 2) →
  - Math_PI <= w' → w' <= Math_PI →
  0 <= s → s <= 2 →
  Qabs w' <= Qabs w.
Proof.
  intros Hw Hwl Hwu Hw' Hwl' Hwu' Hs0 Hs2.
  pose proof Math_PI_pos as Hpi.
  assert (E : w' == w * (1 - s) + inject_Z (k - k') * (Math_PI * 2)).
  { unfold Z.sub. rewrite inject_Z_plus, inject_Z_opp. lra. }
  set (m := (k - k')%Z) in *. set (qm := inject_Z m) in *.
  apply Qabs_Qle_condition.
  destruct (Qlt_le_dec w 0) as [Hneg|Hpos].
  - rewrite (Qabs_neg w) by lra.
    destruct (Z_lt_le_dec m 0) as [Hm|Hm].
    + assert (qm <= -1) by (apply inject_Z_le_m1; lia). split; nra.
    + destruct (Z_le_lt_eq_dec 0 m Hm) as [Hm1|Hm0].
      * assert (1 <= qm) by (apply inject_Z_ge_1; lia). split; nra.
      * assert (qm == 0) by (unfold qm; rewrite <- Hm0; reflexivity).
        split; nra.
  - rewrite (Qabs_pos w) by lra.
    destruct (Z_lt_le_dec m 0) as [Hm|Hm].
    + assert (qm <= -1) by (apply inject_Z_le_m1; lia). split; nra.
    + destruct (Z_le_lt_eq_dec 0 m Hm) as [Hm1|Hm0].
      * assert (1 <= qm) by (apply inject_Z_ge_1; lia). split; nra.
      * assert (qm == 0) by (unfold qm; rewrite <- Hm0; reflexivity).
        split; nra.
Qed.

(** ** One player's step *)

Lemma paired_head (h : Heap) (pa : loc) (vis : VisualPlayer)
  (pal vbl : list loc) :
  paired h pa vis pal vbl →
  ∃ th tgt, head pal = Some th ∧ points h !! th = Some tgt.
Proof.
  intros (Hpa & Hne & Hal & _). destruct pal as [|th rest]; [done|].
  apply Forall_cons in Hal as [[tgt Ht] _]. by exists th, tgt.
Qed.

Lemma allocated_take (h : Heap) (n : nat) (ls : list loc) :
  allocated h ls → allocated h (take n ls).
Proof. apply Forall_take. Qed.

Lemma stepVisual_reconcile (h : Heap) (pa : loc) (vis : VisualPlayer)
  (pal vbl : list loc) :
  paired h pa vis pal vbl →
  ∃ h1 extra, reconcileBody h (vis_body vis) pa = Some h1
    ∧ arrays h1
      = <[vis_body vis := take (length pal) (vbl ++ extra)]> (arrays h)
    ∧ points h ⊆ points h1
    ∧ Forall (fun l => points h !! l = None) extra
    ∧ NoDup extra
    ∧ length extra = (length pal - length vbl)%nat
    ∧ (∀ tl pt, last vbl = Some tl → points h !! tl = Some pt →
         Forall (fun l => points h1 !! l = Some pt) extra)
    ∧ (∀ l, is_Some (points h1 !! l) → is_Some (points h !! l) ∨ l ∈ extra)
    ∧ paired h1 pa vis pal (take (length pal) (vbl ++ extra))
    ∧ length (take (length pal) (vbl ++ extra)) = length pal.
Proof.
  intros (Hpa & Hne & Halp & Hvb & Hnev & Halv & Hsep).
  destruct (reconcileBody_spec (vis_body vis) pa pal Hsep h vbl
              Hvb Hpa Hnev Halv)
    as (h1 & extra & Hr & Ha1 & Hsub & Hfr & Hnd & Hlen & Htail & Hdom).
  exists h1, extra.
  assert (Hlen1 : length (take (length pal) (vbl ++ extra)) = length pal).
  { rewrite length_take, length_app, Hlen. lia. }
  split; [exact Hr|]. split; [exact Ha1|]. split; [exact Hsub|].
  split; [exact Hfr|]. split; [exact Hnd|]. split; [exact Hlen|].
  split; [exact Htail|]. split; [exact Hdom|]. split; [|exact Hlen1].
  split; [by rewrite Ha1, lookup_insert_ne|]. split; [done|].
  split; [by eapply allocated_weaken|].
  split; [by rewrite Ha1, lookup_insert_eq|]. split.
  { intros E. rewrite E in Hlen1. simpl in Hlen1. by destruct pal. }
  split; [|done]. apply allocated_take. apply Forall_app. split.
  - by eapply allocated_weaken.
  - destruct (last_nonempty vbl Hnev) as [tl Htl].
    assert (Htlin : tl ∈ vbl).
    { apply last_Some in Htl as [l' ->]. apply elem_of_app. right. left. }
    unfold allocated in Halv. rewrite Forall_forall in Halv.
    destruct (Halv tl Htlin) as [pt Hpt].
    eapply Forall_impl; [exact (Htail tl pt Htl Hpt)|].
    intros x Hx. cbv beta in Hx. by exists pt.
Qed.

(** The teleport branch. *)
Lemma stepVisual_snap (s : Q) (pid : string) (p : Player) (pa : loc)
  (vis : VisualPlayer) (h : Heap) (vps : gmap string VisualPlayer)
  (pal vbl : list loc) (th : loc) (tgt : Point) :
  paired h pa vis pal vbl →
  head pal = Some th → points h !! th = Some tgt →
  hypot_gt (pt_x tgt - vis_x vis) (pt_y tgt - vis_y vis) 500 = true →
  ∃ h1 h2 a ls',
    reconcileBody h (vis_body vis) pa = Some h1
    ∧ copyBody h1 pa = Some (h2, a)
    ∧ stepVisual s pid p pa vis h vps
      = Some (h2, <[pid := mkVisual (pt_x tgt) (pt_y tgt) (p_angle p) a]> vps)
    ∧ (∀ b, b ≠ vis_body vis → is_Some (arrays h !! b) →
         arrays h2 !! b = arrays h !! b)
    ∧ points h ⊆ points h2
    ∧ arrays h !! a = None
    ∧ arrays h2 !! a = Some ls'
    ∧ Forall (fun l => points h !! l = None) ls'
    ∧ allocated h2 ls'
    ∧ NoDup ls'
    ∧ Forall2 (fun b l => ∀ pb, points h !! b = Some pb →
                                 points h2 !! l = Some pb) pal ls'
    ∧ ∃ extra,
        arrays h2 !! vis_body vis = Some (take (length pal) (vbl ++ extra))
        ∧ Forall (fun l => points h !! l = None) extra
        ∧ allocated h2 (take (length pal) (vbl ++ extra))
        ∧ take (length pal) (vbl ++ extra) ≠ [].
Proof.
  intros Hp Hth Htgt Hfar.
  destruct (stepVisual_reconcile h pa vis pal vbl Hp)
    as (h1 & extra & Hr & Ha1 & Hsub1 & Hfrx & _ & _ & _ & _ & Hp1 & _).
  destruct Hp1 as (Hpa1 & Hne & Halp1 & Hvb1 & Hnev1 & Halv1 & Hsep).
  destruct (copyBody_spec h1 pa pal Hpa1 Halp1)
    as (h2 & a & ls' & Hc & Hfa & Ha2 & Hsub2 & Hfr & Hal2 & Hnd & Hval & _).
  exists h1, h2, a, ls'. split; [exact Hr|]. split; [exact Hc|].
  assert (Htgt1 : points h1 !! th = Some tgt) by (by eapply lookup_weaken).
  split.
  { unfold stepVisual. rewrite Hr. simpl. rewrite Hpa1. simpl.
    rewrite Hth. simpl. rewrite Htgt1. simpl. rewrite Hfar, Hc. done. }
  assert (Hfa0 : arrays h !! a = None).
  { destruct (decide (a = vis_body vis)) as [->|Hne'].
    - congruence.
    - rewrite Ha1, lookup_insert_ne in Hfa by done. done. }
  split.
  { intros b Hb [x Hx]. rewrite Ha2, Ha1.
    rewrite lookup_insert_ne by congruence.
    by rewrite lookup_insert_ne. }
  split; [by etrans|]. split; [exact Hfa0|].
  split; [by rewrite Ha2, lookup_insert_eq|]. split.
  { eapply Forall_impl; [exact Hfr|]. intros x Hx. cbv beta in Hx.
    destruct (points h !! x) eqn:E; [|done].
    eapply lookup_weaken in E; [|exact Hsub1]. congruence. }
  split; [exact Hal2|]. split; [exact Hnd|]. split.
  { eapply Forall2_impl; [exact Hval|]. intros x y Hxy px Hpx.
    apply Hxy. by eapply lookup_weaken. }
  exists extra. split.
  { rewrite Ha2, lookup_insert_ne by congruence. exact Hvb1. }
  split; [exact Hfrx|]. split; [by eapply allocated_weaken|exact Hnev1].
Qed.

(** The interpolation branch. *)
Lemma stepVisual_lerp (s : Q) (pid : string) (p : Player) (pa : loc)
  (vis : VisualPlayer) (h : Heap) (vps : gmap string VisualPlayer)
  (pal vbl : list loc) (th : loc) (tgt : Point) :
  paired h pa vis pal vbl →
  head pal = Some th → points h !! th = Some tgt →
  hypot_gt (pt_x tgt - vis_x vis) (pt_y tgt - vis_y vis) 500 = false →
  ∃ h1 extra w h2,
    reconcileBody h (vis_body vis) pa = Some h1
    ∧ wrapDiff (p_angle p - vis_angle vis) = Some w
    ∧ lerpBody (length pal) s (vis_body vis) pa 0 h1 = Some h2
    ∧ stepVisual s pid p pa vis h vps
      = Some (h2, <[pid := mkVisual
                     (vis_x vis + (pt_x tgt - vis_x vis) * s)
                     (vis_y vis + (pt_y tgt - vis_y vis) * s)
                     (vis_angle vis + w * s)
                     (vis_body vis)]> vps)
    ∧ arrays h2
      = <[vis_body vis := take (length pal) (vbl ++ extra)]> (arrays h)
    ∧ Forall (fun l => points h !! l = None) extra
    ∧ (∀ l, l ∉ vbl → is_Some (points h !! l) →
         points h2 !! l = points h !! l)
    ∧ (∀ l, is_Some (points h !! l) → is_Some (points h2 !! l))
    ∧ allocated h2 (take (length pal) (vbl ++ extra))
    ∧ length (take (length pal) (vbl ++ extra)) = length pal
    ∧ points h ⊆ points h1
    ∧ length extra = (length pal - length vbl)%nat
    ∧ (∀ l, l ∉ take (length pal) (vbl ++ extra) →
         points h2 !! l = points h1 !! l)
    ∧ (NoDup (take (length pal) (vbl ++ extra)) →
       (∀ l, l ∈ take (length pal) (vbl ++ extra) → l ∉ pal) →
       ∀ j l b cur tg,
         take (length pal) (vbl ++ extra) !! j = Some l → pal !! j = Some b →
         points h1 !! l = Some cur → points h1 !! b = Some tg →
         points h2 !! l = Some (lerpTo s cur tg)).
Proof.
  intros Hp Hth Htgt Hnear.
  destruct (stepVisual_reconcile h pa vis pal vbl Hp)
    as (h1 & extra & Hr & Ha1 & Hsub1 & Hfr & _ & Hlenx & _ & Hdom1 & Hp1
        & Hlen1).
  destruct Hp1 as (Hpa1 & Hne & Halp1 & Hvb1 & Hnev1 & Halv1 & Hsep).
  destruct (wrapDiff_spec (p_angle p - vis_angle vis))
    as (w & k & Hw & _).
  destruct (lerpBody_spec s (vis_body vis) pa pal
              (take (length pal) (vbl ++ extra)) Hlen1 (length pal) 0%nat h1
              Hpa1 Hvb1 Halp1 Halv1)
    as (h2 & Hl & Ha2 & Hfr2 & Hdom2 & Hval2); [lia|].
  exists h1, extra, w, h2.
  assert (Htgt1 : points h1 !! th = Some tgt) by (by eapply lookup_weaken).
  split; [exact Hr|]. split; [exact Hw|]. split; [exact Hl|]. split.
  { unfold stepVisual. rewrite Hr. simpl. rewrite Hpa1. simpl.
    rewrite Hth. simpl. rewrite Htgt1. simpl. rewrite Hnear, Hw. simpl.
    rewrite Hl. done. }
  split; [by rewrite Ha2|]. split; [exact Hfr|]. split.
  { intros l Hl0 [pl Hpl]. rewrite Hfr2.
    - rewrite Hpl. by eapply lookup_weaken.
    - intros Hin. apply elem_of_take in Hin as (i & Hi & _).
      apply list_elem_of_lookup_2 in Hi.
      apply elem_of_app in Hi as [Hi|Hi]; [done|].
      rewrite Forall_forall in Hfr. specialize (Hfr l Hi). congruence. }
  split.
  { intros l [pl Hpl]. apply Hdom2. exists pl. by eapply lookup_weaken. }
  split.
  { eapply Forall_impl; [exact Halv1|]. intros x Hx. by apply Hdom2. }
  split; [exact Hlen1|]. split; [exact Hsub1|]. split; [exact Hlenx|].
  split; [exact Hfr2|].
  intros Hnd Hdisj j l b cur tg Hj Hb Hcur Htg.
  rewrite (Hval2 Hnd Hdisj j l b cur tg Hj Hb Hcur Htg).
  case_decide; [done|lia].
Qed.

(** ** Bodies by value *)

Lemma bodyPoints_Some (h : Heap) (a : loc) (pts : list Point) :
  bodyPoints h a = Some pts
  ↔ ∃ els, arrays h !! a = Some els
           ∧ Forall2 (fun l pt => points h !! l = Some pt) els pts.
Proof.
  unfold bodyPoints. split.
  - intros H. destruct (arrays h !! a) as [els|]; [|discriminate].
    simpl in H. exists els. split; [done|]. by apply mapM_Some.
  - intros (els & -> & HF). simpl. by apply mapM_Some.
Qed.

Lemma allocated_values (h : Heap) (ls : list loc) :
  allocated h ls →
  ∃ pts, Forall2 (fun l pt => points h !! l = Some pt) ls pts.
Proof.
  induction ls as [|l ls IH]; intros Hal.
  - exists []. constructor.
  - apply Forall_cons in Hal as [[pt Hpt] Hrest].
    destruct (IH Hrest) as [pts Hpts]. exists (pt :: pts). by constructor.
Qed.

Lemma hypot_gt_500 (a b : Q) :
  hypot_gt a b 500 = true ↔ 500 * 500 < a * a + b * b.
Proof.
  unfold hypot_gt. rewrite orb_true_iff, Qltb_true, Qgtb_true. split.
  - intros [H|H]; [lra|exact H].
  - intros H. by right.
Qed.

Lemma hypot_gt_500_false (a b : Q) :
  hypot_gt a b 500 = false ↔ a * a + b * b <= 500 * 500.
Proof.
  destruct (hypot_gt a b 500) eqn:E.
  - apply hypot_gt_500 in E. split; [discriminate|lra].
  - split; [|done]. intros _.
    destruct (Qlt_le_dec (500 * 500) (a * a + b * b)) as [H|H]; [|exact H].
    apply hypot_gt_500 in H. congruence.
Qed.

Lemma stepPlayer_existing (s : Q) (pid : string) (p : Player) (pa : loc)
  (vis : VisualPlayer) (h : Heap) (vps : gmap string VisualPlayer)
  (pal : list loc) :
  p_body p = Some pa → arrays h !! pa = Some pal → pal ≠ [] →
  vps !! pid = Some vis →
  stepPlayer s pid p (h, vps) = stepVisual s pid p pa vis h vps.
Proof.
  intros Hb Hpa Hne Hv. unfold stepPlayer. rewrite Hb, Hpa. simpl.
  rewrite bool_decide_eq_false_2 by done. by rewrite Hv.
Qed.

(** The teleport, in the step of one player: when the authoritative head
    is more than 500 away from the visual head (the squared distance
    exceeds 500 squared), the step, for any [lerpSpeed], sets the visual head to
    the authoritative head and the visual angle to the authoritative angle,
    and installs as visual body a new array of new points equal, point by
    point, to the authoritative body; the head distance is 0 afterwards. *)
Lemma teleport_snaps_step (s : Q) (pid : string) (p : Player) (pa : loc)
  (vis : VisualPlayer) (h : Heap) (vps : gmap string VisualPlayer)
  (pal vbl : list loc) (th : loc) (tgt : Point) :
  p_body p = Some pa → vps !! pid = Some vis →
  paired h pa vis pal vbl →
  head pal = Some th → points h !! th = Some tgt →
  500 * 500 < dist2 (pt_x tgt) (pt_y tgt) (vis_x vis) (vis_y vis) →
  ∃ h' vis' pts ls',
    stepPlayer s pid p (h, vps) = Some (h', <[pid := vis']> vps)
    ∧ vis_x vis' = pt_x tgt ∧ vis_y vis' = pt_y tgt
    ∧ vis_angle vis' = p_angle p
    ∧ dist2 (pt_x tgt) (pt_y tgt) (vis_x vis') (vis_y vis') == 0
    ∧ bodyPoints h pa = Some pts
    ∧ bodyPoints h' pa = Some pts
    ∧ bodyPoints h' (vis_body vis') = Some pts
    ∧ arrays h !! vis_body vis' = None
    ∧ arrays h' !! vis_body vis' = Some ls'
    ∧ Forall (fun l => points h !! l = None) ls'.
Proof.
  intros Hb Hv Hp Hth Htgt Hfar.
  pose proof Hp as (Hpa & Hne & Halp & Hvb & _ & _ & Hsep).
  destruct (stepVisual_snap s pid p pa vis h vps pal vbl th tgt Hp Hth Htgt)
    as (h1 & h2 & a & ls' & _ & _ & Hstep & Hfr & Hsub & Hfa & Ha2 & Hfresh
        & Hal2 & Hnd & Hval & _).
  { apply hypot_gt_500. unfold dist2 in Hfar; exact Hfar. }
  destruct (allocated_values h pal Halp) as [pts Hpts].
  exists h2, (mkVisual (pt_x tgt) (pt_y tgt) (p_angle p) a), pts, ls'.
  split.
  { rewrite (stepPlayer_existing s pid p pa vis h vps pal); done. }
  simpl. repeat (split; [reflexivity|]). split.
  { unfold dist2. ring. }
  split. { apply bodyPoints_Some. by exists pal. }
  split.
  { apply bodyPoints_Some. exists pal. split.
    - rewrite Hfr; [done|congruence|by eexists].
    - eapply Forall2_impl; [exact Hpts|]. intros l pt Hl.
      cbv beta in Hl. by eapply lookup_weaken. }
  split.
  { apply bodyPoints_Some. exists ls'. split; [done|].
    clear -Hval Hpts. revert pts Hpts.
    induction Hval as [|b l pal ls' Hbl Hrest IH]; intros pts Hpts.
    - inversion Hpts. constructor.
    - inversion Hpts as [|? pt ? pts' Hb Hpts']; subst.
      constructor; [by apply Hbl|by apply IH]. }
  done.
Qed.

(** The head, in the step of one player: when the authoritative head is at
    most 500 away from the visual head, the step with elapsed time [dt]
    moves each head
    coordinate by the fraction [10.0 * dt] of its gap, not clamped, so each
    gap is multiplied by [1 - 10.0 * dt]: the distance strictly decreases
    when [0 < dt < 0.2] and the heads differ, and the step does not
    overshoot when [0 <= dt <= 0.1]. *)
Lemma head_interpolation_step (dt : Q) (pid : string) (p : Player) (pa : loc)
  (vis : VisualPlayer) (h : Heap) (vps : gmap string VisualPlayer)
  (pal vbl : list loc) (th : loc) (tgt : Point) :
  p_body p = Some pa → vps !! pid = Some vis →
  paired h pa vis pal vbl →
  head pal = Some th → points h !! th = Some tgt →
  dist2 (pt_x tgt) (pt_y tgt) (vis_x vis) (vis_y vis) <= 500 * 500 →
  ∃ h' vis',
    stepPlayer (10.0 * dt) pid p (h, vps) = Some (h', <[pid := vis']> vps)
    ∧ pt_x tgt - vis_x vis' == (1 - 10.0 * dt) * (pt_x tgt - vis_x vis)
    ∧ pt_y tgt - vis_y vis' == (1 - 10.0 * dt) * (pt_y tgt - vis_y vis)
    ∧ (0 < dt → dt < 0.2 →
       0 < dist2 (pt_x tgt) (pt_y tgt) (vis_x vis) (vis_y vis) →
       dist2 (pt_x tgt) (pt_y tgt) (vis_x vis') (vis_y vis')
       < dist2 (pt_x tgt) (pt_y tgt) (vis_x vis) (vis_y vis))
    ∧ (0 <= dt → dt <= 0.1 →
       between (vis_x vis) (vis_x vis') (pt_x tgt)
       ∧ between (vis_y vis) (vis_y vis') (pt_y tgt)).
Proof.
  intros Hb Hv Hp Hth Htgt Hnear.
  pose proof Hp as (Hpa & Hne & Halp & Hvb & _ & _ & Hsep).
  destruct (stepVisual_lerp (10.0 * dt) pid p pa vis h vps pal vbl th tgt
              Hp Hth Htgt)
    as (h1 & extra & w & h2 & _ & _ & _ & Hstep & _ & _ & Hfr & _).
  { apply hypot_gt_500_false. exact Hnear. }
  eexists h2, _. split.
  { rewrite (stepPlayer_existing _ pid p pa vis h vps pal); done. }
  simpl. set (gx := pt_x tgt - vis_x vis). set (gy := pt_y tgt - vis_y vis).
  set (s := 10.0 * dt).
  assert (Ex : pt_x tgt - (vis_x vis + gx * s) == (1 - s) * gx)
    by (unfold gx; ring).
  assert (Ey : pt_y tgt - (vis_y vis + gy * s) == (1 - s) * gy)
    by (unfold gy; ring).
  split; [exact Ex|]. split; [exact Ey|].
  split.
  - intros H0 H2 Hd. unfold dist2 in *. fold gx gy in Hd |- *.
    rewrite Ex, Ey. assert (0 < s ∧ s < 2) as [Hs0 Hs2] by (unfold s; lra).
    assert (E : (1 - s) * gx * ((1 - s) * gx) + (1 - s) * gy * ((1 - s) * gy)
                == (1 - s) * (1 - s) * (gx * gx + gy * gy)) by ring.
    rewrite E. assert (Hsq : (1 - s) * (1 - s) < 1) by nra. nra.
  - intros H0 H1. assert (0 <= s ∧ s <= 1) as [Hs0 Hs1] by (unfold s; lra).
    unfold between.
    split.
    + destruct (Qlt_le_dec gx 0) as [Hg|Hg]; [right|left]; split; nra.
    + destruct (Qlt_le_dec gy 0) as [Hg|Hg]; [right|left]; split; nra.
Qed.

(** The angle, in the step of one player: the step wraps the raw difference into
    [[-π, π]] (both ends included: a raw difference of exactly [-π] stays),
    a whole number of turns away from the raw one, and adds the fraction
    [10.0 * dt] of it to the visual angle; for [0 <= dt <= 0.2] the wrapped
    difference after the step is not larger in magnitude than the one
    before. With the authoritative angle at -3.1 and the visual angle at 3.1
    the wrapped difference is positive and below 0.1: the visual angle
    moves up through π, the short way. *)
Lemma angle_interpolation_step (dt : Q) (pid : string) (p : Player) (pa : loc)
  (vis : VisualPlayer) (h : Heap) (vps : gmap string VisualPlayer)
  (pal vbl : list loc) (th : loc) (tgt : Point) :
  p_body p = Some pa → vps !! pid = Some vis →
  paired h pa vis pal vbl →
  head pal = Some th → points h !! th = Some tgt →
  dist2 (pt_x tgt) (pt_y tgt) (vis_x vis) (vis_y vis) <= 500 * 500 →
  ∃ h' vis' w k,
    stepPlayer (10.0 * dt) pid p (h, vps) = Some (h', <[pid := vis']> vps)
    ∧ wrapDiff (p_angle p - vis_angle vis) = Some w
    ∧ w == (p_angle p - vis_angle vis) - inject_Z k * (Math_PI * 2)
    ∧ - Math_PI <= w ∧ w <= Math_PI
    ∧ vis_angle vis' = vis_angle vis + w * (10.0 * dt)
    ∧ (0 <= dt → dt <= 0.2 →
       ∃ w', wrapDiff (p_angle p - vis_angle vis') = Some w'
             ∧ Qabs w' <= Qabs w)
    ∧ (∃ w0, wrapDiff (-3.1 - 3.1) = Some w0 ∧ 0 < w0 ∧ w0 < 0.1).
Proof.
  intros Hb Hv Hp Hth Htgt Hnear.
  pose proof Hp as (Hpa & Hne & Halp & Hvb & _ & _ & Hsep).
  destruct (stepVisual_lerp (10.0 * dt) pid p pa vis h vps pal vbl th tgt
              Hp Hth Htgt)
    as (h1 & extra & w & h2 & _ & Hw & _ & Hstep & _).
  { apply hypot_gt_500_false. exact Hnear. }
  destruct (wrapDiff_spec (p_angle p - vis_angle vis))
    as (w1 & k & Hw1 & Hk & Hlo & Hhi).
  assert (w1 = w) by congruence. subst w1.
  eexists h2, _, w, k. split.
  { rewrite (stepPlayer_existing _ pid p pa vis h vps pal); done. }
  simpl. split; [exact Hw|]. split; [exact Hk|]. split; [exact Hlo|].
  split; [exact Hhi|]. split; [reflexivity|]. split.
  - intros H0 H2.
    destruct (wrapDiff_spec (p_angle p - (vis_angle vis + w * (10.0 * dt))))
      as (w' & k' & Hw' & Hk' & Hlo' & Hhi').
    exists w'. split; [exact Hw'|].
    apply (wrapped_step_shrinks (p_angle p - vis_angle vis) w w'
             (10.0 * dt) k k'); try done; try lra.
  - eexists. split; [vm_compute; reflexivity|]. split; reflexivity.
Qed.

Lemma Forall2_last {A B} (P : A → B → Prop) (l : list A) (k : list B)
  (x : A) :
  Forall2 P l k → last l = Some x → ∃ y, last k = Some y ∧ P x y.
Proof.
  intros HF Hl. apply last_Some in Hl as [l' ->].
  apply Forall2_app_inv_l in HF as (k1 & k2 & H1 & H2 & ->).
  inversion H2 as [|? y ? ? Hxy Hnil]; subst. inversion Hnil; subst.
  exists y. by rewrite last_snoc.
Qed.

Lemma Forall_replicate_values (h : Heap) (ls : list loc) (pt : Point) :
  Forall (fun l => points h !! l = Some pt) ls →
  Forall2 (fun l q => points h !! l = Some q) ls (replicate (length ls) pt).
Proof.
  induction 1 as [|l ls Hl Hrest IH]; simpl; by constructor.
Qed.

(** The lengths, in the step of one player with a visual player and a
    non-empty authoritative body: the reconciliation loops leave the visual body
    as long as the authoritative body: a shorter body is extended with
    copies of its tail point, a longer one loses points at the tail, and the
    authoritative body is not touched. The index-wise interpolation is then
    defined, and at the end of the player's step the visual body still has
    the authoritative length. *)
Lemma body_length_reconciled_step (s : Q) (pid : string) (p : Player) (pa : loc)
  (vis : VisualPlayer) (h : Heap) (vps : gmap string VisualPlayer)
  (pal vbl : list loc) :
  p_body p = Some pa → vps !! pid = Some vis →
  paired h pa vis pal vbl →
  ∃ vpts tailpt h1,
    bodyPoints h (vis_body vis) = Some vpts
    ∧ last vpts = Some tailpt
    ∧ reconcileBody h (vis_body vis) pa = Some h1
    ∧ bodyPoints h1 (vis_body vis)
      = Some (take (length pal)
                (vpts ++ replicate (length pal - length vpts) tailpt))
    ∧ length (take (length pal)
                (vpts ++ replicate (length pal - length vpts) tailpt))
      = length pal
    ∧ arrays h1 !! pa = Some pal
    ∧ is_Some (lerpBody (length pal) s (vis_body vis) pa 0 h1)
    ∧ ∃ h' vis' ls',
        stepPlayer s pid p (h, vps) = Some (h', <[pid := vis']> vps)
        ∧ arrays h' !! vis_body vis' = Some ls'
        ∧ length ls' = length pal
        ∧ arrays h' !! pa = Some pal.
Proof.
  intros Hb Hv Hp.
  pose proof Hp as (Hpa & Hne & Halp & Hvb & Hnev & Halv & Hsep).
  destruct (allocated_values h vbl Halv) as [vpts Hvpts].
  destruct (last_nonempty vbl Hnev) as [tl Htl].
  destruct (Forall2_last _ vbl vpts tl Hvpts Htl) as (tailpt & Hlast & Htlpt).
  destruct (stepVisual_reconcile h pa vis pal vbl Hp)
    as (h1 & extra & Hr & Ha1 & Hsub1 & Hfr & Hnd & Hlenx & Htail & Hdom1
        & Hp1 & Hlen1).
  pose proof Hp1 as (Hpa1 & _ & Halp1 & Hvb1 & Hnev1 & Halv1 & _).
  assert (Hlv : length vpts = length vbl).
  { symmetry. by eapply Forall2_length. }
  exists vpts, tailpt, h1.
  split. { apply bodyPoints_Some. by exists vbl. }
  split; [exact Hlast|]. split; [exact Hr|]. split.
  { apply bodyPoints_Some. eexists. split; [exact Hvb1|].
    apply Forall2_take. apply Forall2_app.
    - eapply Forall2_impl; [exact Hvpts|]. intros l pt Hl.
      cbv beta in Hl. by eapply lookup_weaken.
    - rewrite Hlv, <- Hlenx. apply Forall_replicate_values.
      by apply (Htail tl tailpt). }
  split.
  { rewrite length_take, length_app, length_replicate. lia. }
  split; [exact Hpa1|]. split.
  { destruct (lerpBody_spec s (vis_body vis) pa pal
                (take (length pal) (vbl ++ extra)) Hlen1 (length pal) 0%nat h1
                Hpa1 Hvb1 Halp1 Halv1) as (h2 & Hl & _); [lia|].
    by exists h2. }
  destruct pal as [|th rest] eqn:Epal; [done|]. rewrite <- Epal in *.
  assert (Hth : head pal = Some th) by (by rewrite Epal).
  assert (Htgt : is_Some (points h !! th)).
  { unfold allocated in Halp. rewrite Forall_forall in Halp. apply Halp.
    rewrite Epal. left. }
  destruct Htgt as [tgt Htgt].
  rewrite (stepPlayer_existing s pid p pa vis h vps pal) by done.
  destruct (hypot_gt (pt_x tgt - vis_x vis) (pt_y tgt - vis_y vis) 500)
    eqn:Efar.
  - destruct (stepVisual_snap s pid p pa vis h vps pal vbl th tgt
                Hp Hth Htgt Efar)
      as (h1' & h2 & a & ls' & _ & _ & Hstep & Hframe & _ & Hfa & Ha2 & _ & _
          & _ & Hval & _).
    eexists h2, _, ls'. split; [exact Hstep|]. simpl.
    split; [exact Ha2|]. split.
    + symmetry. by eapply Forall2_length.
    + rewrite Hframe; [done|congruence|by eexists].
  - destruct (stepVisual_lerp s pid p pa vis h vps pal vbl th tgt
                Hp Hth Htgt Efar)
      as (h1' & extra' & w & h2 & _ & _ & _ & Hstep & Ha2 & _ & _ & _ & _
          & Hlen2 & _).
    eexists h2, _, _. split; [exact Hstep|]. simpl.
    rewrite Ha2. split; [by rewrite lookup_insert_eq|].
    split; [exact Hlen2|]. by rewrite lookup_insert_ne.
Qed.

(** ** First sighting of a player *)

Lemma wrapDiff_small (d : Q) :
  - Math_PI <= d → d <= Math_PI → wrapDiff d = Some d.
Proof.
  intros Hlo Hhi. unfold wrapDiff.
  assert (Hd : ∀ n, wrapDown n d = Some d).
  { intros n. destruct n; simpl;
      (destruct (Qgtb d Math_PI) eqn:E; [apply Qgtb_true in E; lra|done]). }
  assert (Hu : ∀ n, wrapUp n d = Some d).
  { intros n. destruct n; simpl;
      (destruct (Qltb d (- Math_PI)) eqn:E; [apply Qltb_true in E; lra|done]). }
  rewrite Hd. simpl. apply Hu.
Qed.

Lemma createVisual_spec (h : Heap) (p : Player) (pa : loc) (pal : list loc)
  (th : loc) (tgt : Point) :
  arrays h !! pa = Some pal → allocated h pal →
  head pal = Some th → points h !! th = Some tgt →
  ∃ h1 a ls',
    createVisual h p pa
      = Some (h1, mkVisual (pt_x tgt) (pt_y tgt) (p_angle p) a)
    ∧ arrays h !! a = None
    ∧ arrays h1 = <[a := ls']> (arrays h)
    ∧ points h ⊆ points h1
    ∧ Forall (fun l => points h !! l = None) ls'
    ∧ allocated h1 ls'
    ∧ NoDup ls'
    ∧ Forall2 (fun b l => ∀ pb, points h !! b = Some pb →
                                 points h1 !! l = Some pb) pal ls'
    ∧ (∀ l, is_Some (points h1 !! l) → is_Some (points h !! l) ∨ l ∈ ls').
Proof.
  intros Hpa Hal Hth Htgt.
  destruct (copyBody_spec h pa pal Hpa Hal)
    as (h1 & a & ls' & Hc & Hfa & Ha1 & Hsub & Hfr & Hal1 & Hnd & Hval & Hdom).
  exists h1, a, ls'. split; [|done].
  unfold createVisual. rewrite Hc. simpl.
  assert (Hpa1 : arrays h1 !! pa = Some pal).
  { rewrite Ha1, lookup_insert_ne; [done|congruence]. }
  rewrite Hpa1. simpl. rewrite Hth. simpl.
  by rewrite (lookup_weaken _ _ _ _ Htgt Hsub).
Qed.

Lemma lerpTo_same (s : Q) (pt : Point) : Point_eq (lerpTo s pt pt) pt.
Proof. unfold Point_eq, lerpTo. simpl. split; ring. Qed.

(** The creation, in the step of one player: a player without a visual entry and with
    a non-empty authoritative body gets, in that same step, a visual player
    whose head is the first authoritative point, whose angle is the
    authoritative angle and whose body is a new array of new points equal,
    point by point, to the authoritative body; a player whose body is
    missing or empty leaves the heap and the visual map as they are. *)
Lemma first_sighting_step (s : Q) (pid : string) (p : Player)
  (h : Heap) (vps : gmap string VisualPlayer) :
  (∀ pa pal th tgt,
     p_body p = Some pa → arrays h !! pa = Some pal → allocated h pal →
     head pal = Some th → points h !! th = Some tgt →
     vps !! pid = None →
     ∃ h' vis' apts vpts ls',
       stepPlayer s pid p (h, vps) = Some (h', <[pid := vis']> vps)
       ∧ vis_x vis' == pt_x tgt ∧ vis_y vis' == pt_y tgt
       ∧ vis_angle vis' == p_angle p
       ∧ bodyPoints h pa = Some apts
       ∧ bodyPoints h' pa = Some apts
       ∧ bodyPoints h' (vis_body vis') = Some vpts
       ∧ Forall2 Point_eq vpts apts
       ∧ arrays h !! vis_body vis' = None
       ∧ arrays h' !! vis_body vis' = Some ls'
       ∧ Forall (fun l => points h !! l = None) ls'
       ∧ (∀ b, is_Some (arrays h !! b) → arrays h' !! b = arrays h !! b)
       ∧ (∀ l, is_Some (points h !! l) → points h' !! l = points h !! l))
  ∧ (p_body p = None → stepPlayer s pid p (h, vps) = Some (h, vps))
  ∧ (∀ pa, p_body p = Some pa → arrays h !! pa = Some [] →
           stepPlayer s pid p (h, vps) = Some (h, vps)).
Proof.
  split; [|split].
  2: { intros Hb. unfold stepPlayer. by rewrite Hb. }
  2: { intros pa Hb Hpa. unfold stepPlayer. rewrite Hb, Hpa. done. }
  intros pa pal th tgt Hb Hpa Halp Hth Htgt Hv.
  assert (Hne : pal ≠ []) by (by destruct pal).
  destruct (createVisual_spec h p pa pal th tgt Hpa Halp Hth Htgt)
    as (h1 & a & ls' & Hc & Hfa & Ha1 & Hsub1 & Hfr & Hal1 & Hnd & Hval
        & Hdom1).
  set (vis0 := mkVisual (pt_x tgt) (pt_y tgt) (p_angle p) a) in *.
  assert (Hapa : a ≠ pa) by congruence.
  assert (Hpa1 : arrays h1 !! pa = Some pal).
  { by rewrite Ha1, lookup_insert_ne. }
  assert (Hlen : length pal = length ls') by (by eapply Forall2_length).
  assert (Hp1 : paired h1 pa vis0 pal ls').
  { split; [exact Hpa1|]. split; [exact Hne|].
    split; [by eapply allocated_weaken|].
    split; [simpl; by rewrite Ha1, lookup_insert_eq|].
    split; [intros ->; by destruct pal|]. split; [exact Hal1|exact Hapa]. }
  assert (Htgt1 : points h1 !! th = Some tgt) by (by eapply lookup_weaken).
  destruct (stepVisual_lerp s pid p pa vis0 h1 vps pal ls' th tgt
              Hp1 Hth Htgt1)
    as (h2 & extra & w & h3 & _ & Hw & _ & Hstep & Ha3 & Hfrx & Hfr3 & Hdom3
        & Hal3 & Hlen3 & Hsub2 & Hlenx & Hfr23 & Hval3).
  { apply hypot_gt_500_false. simpl. nra. }
  change (vis_body vis0) with a in Ha3.
  assert (extra = []) as ->.
  { apply length_zero_iff_nil. lia. }
  rewrite app_nil_r, take_ge in * by lia.
  assert (Hw0 : w = p_angle p - p_angle p).
  { pose proof Math_PI_pos. simpl in Hw.
    rewrite wrapDiff_small in Hw by lra. congruence. }
  destruct (allocated_values h pal Halp) as [apts Hapts].
  assert (Hdisj : ∀ l, l ∈ ls' → l ∉ pal).
  { intros l Hl Hin. rewrite Forall_forall in Hfr. specialize (Hfr l Hl).
    unfold allocated in Halp. rewrite Forall_forall in Halp.
    destruct (Halp l Hin) as [x Hx]. congruence. }
  eexists h3, _, apts, ((fun pb => lerpTo s pb pb) <$> apts), ls'.
  split.
  { unfold stepPlayer. rewrite Hb, Hpa. simpl.
    rewrite bool_decide_eq_false_2 by done. rewrite Hv, Hc. simpl.
    exact Hstep. }
  simpl. split; [ring|]. split; [ring|]. split; [rewrite Hw0; ring|].
  split. { apply bodyPoints_Some. by exists pal. }
  assert (Hpal3 : ∀ b pb, b ∈ pal → points h !! b = Some pb →
                          points h3 !! b = Some pb).
  { intros b pb Hin Hpb. rewrite Hfr3.
    - by eapply lookup_weaken.
    - intros Hb'. by apply (Hdisj b).
    - exists pb. by eapply lookup_weaken. }
  split.
  { apply bodyPoints_Some. exists pal. split.
    - rewrite Ha3, lookup_insert_ne by done. exact Hpa1.
    - apply Forall2_same_length_lookup. split; [by eapply Forall2_length|].
      intros i b pb Hi Hpi. apply Hpal3; [by eapply list_elem_of_lookup_2|].
      by apply (Forall2_lookup_lr _ _ _ _ _ _ Hapts Hi Hpi). }
  split.
  { apply bodyPoints_Some. exists ls'. split.
    - rewrite Ha3. by rewrite lookup_insert_eq.
    - apply Forall2_same_length_lookup. split.
      { rewrite length_fmap. rewrite <- Hlen. by eapply Forall2_length. }
      intros i l pt Hi Hpt. rewrite list_lookup_fmap in Hpt.
      destruct (apts !! i) as [pb|] eqn:Epb; [|discriminate].
      simpl in Hpt. injection Hpt as <-.
      destruct (lookup_lt_is_Some_2 pal i) as [b Hbi].
      { rewrite Hlen. by eapply lookup_lt_Some. }
      pose proof (Forall2_lookup_lr _ _ _ _ _ _ Hapts Hbi Epb) as Hpb.
      cbv beta in Hpb.
      pose proof (Forall2_lookup_lr _ _ _ _ _ _ Hval Hbi Hi) as Hcopy.
      cbv beta in Hcopy. specialize (Hcopy pb Hpb).
      apply (Hval3 Hnd Hdisj i l b pb pb Hi Hbi).
      + by eapply lookup_weaken.
      + eapply lookup_weaken; [|exact Hsub2]. by eapply lookup_weaken. }
  split.
  { apply Forall2_fmap_l. apply Forall_Forall2_diag.
    apply Forall_forall. intros pt _. apply lerpTo_same. }
  split; [exact Hfa|]. split; [by rewrite Ha3, lookup_insert_eq|].
  split; [exact Hfr|]. split.
  - intros b [x Hx]. rewrite Ha3, lookup_insert_ne by congruence.
    rewrite Ha1, lookup_insert_ne by congruence. done.
  - intros l [x Hx]. rewrite Hfr3.
    + rewrite Hx. by eapply lookup_weaken.
    + intros Hin. rewrite Forall_forall in Hfr. specialize (Hfr l Hin).
      congruence.
    + exists x. by eapply lookup_weaken.
Qed.

(** ** What a step leaves alone *)

Lemma elem_of_take_app (n : nat) (l : loc) (vbl extra : list loc) :
  l ∈ take n (vbl ++ extra) → l ∈ vbl ∨ l ∈ extra.
Proof.
  intros Hin. apply elem_of_take in Hin as (i & Hi & _).
  apply list_elem_of_lookup_2 in Hi. by apply elem_of_app in Hi.
Qed.

Lemma stepVisual_frame (s : Q) (pid : string) (p : Player) (pa : loc)
  (vis : VisualPlayer) (h : Heap) (vps : gmap string VisualPlayer)
  (pal vbl : list loc) :
  paired h pa vis pal vbl →
  ∃ h' vis',
    stepVisual s pid p pa vis h vps = Some (h', <[pid := vis']> vps)
    ∧ stepFrame h (Some (vis_body vis)) vbl h'
    ∧ bodyFrom h h' vbl (vis_body vis)
    ∧ bodyFrom h h' vbl (vis_body vis')
    ∧ (vis_body vis' = vis_body vis ∨ arrays h !! vis_body vis' = None).
Proof.
  intros Hp. destruct (paired_head h pa vis pal vbl Hp) as (th & tgt & Hth & Htgt).
  pose proof Hp as (Hpa & Hne & Halp & Hvb & Hnev & Halv & Hsep).
  destruct (hypot_gt (pt_x tgt - vis_x vis) (pt_y tgt - vis_y vis) 500)
    eqn:Efar.
  - destruct (stepVisual_snap s pid p pa vis h vps pal vbl th tgt
                Hp Hth Htgt Efar)
      as (h1 & h2 & a & ls' & _ & _ & Hstep & Hframe & Hsub & Hfa & Ha2 & Hfresh
          & Hal2 & Hnd & Hval & extra & Hvb2 & Hfrx & Halx & Hnex).
    eexists h2, _. split; [exact Hstep|]. simpl. split; [|split; [|split]].
    + split; [|split].
      * intros b Hb Hne'. apply Hframe; [congruence|done].
      * intros l [x Hx] _. rewrite Hx. by eapply lookup_weaken.
      * intros l [x Hx]. exists x. by eapply lookup_weaken.
    + eexists. split; [exact Hvb2|]. split; [exact Hnex|].
      split; [exact Halx|]. intros l Hl.
      apply elem_of_take_app in Hl as [Hl|Hl]; [by left|right].
      rewrite Forall_forall in Hfrx. by apply Hfrx.
    + exists ls'. split; [exact Ha2|]. split.
      { intros ->. apply Forall2_length in Hval. by destruct pal. }
      split; [exact Hal2|]. intros l Hl. right.
      rewrite Forall_forall in Hfresh. by apply Hfresh.
    + by right.
  - destruct (stepVisual_lerp s pid p pa vis h vps pal vbl th tgt
                Hp Hth Htgt Efar)
      as (h1 & extra & w & h2 & _ & _ & _ & Hstep & Ha2 & Hfrx & Hfr & Hdom
          & Hal2 & Hlen2 & _).
    assert (Hbody : bodyFrom h h2 vbl (vis_body vis)).
    { eexists. split; [by rewrite Ha2, lookup_insert_eq|]. split.
      { intros E. rewrite E in Hlen2. by destruct pal. }
      split; [exact Hal2|]. intros l Hl.
      apply elem_of_take_app in Hl as [Hl|Hl]; [by left|right].
      rewrite Forall_forall in Hfrx. by apply Hfrx. }
    eexists h2, _. split; [exact Hstep|]. simpl. split; [|split; [|split]].
    + split; [|split].
      * intros b Hb Hne'. rewrite Ha2, lookup_insert_ne; [done|congruence].
      * intros l Hl Hnot. by apply Hfr.
      * exact Hdom.
    + exact Hbody.
    + exact Hbody.
    + by left.
Qed.

Lemma stepPlayer_frame (s : Q) (pid : string) (p : Player) (h : Heap)
  (vps : gmap string VisualPlayer) :
  (∀ pa, p_body p = Some pa →
         ∃ pal, arrays h !! pa = Some pal ∧ allocated h pal) →
  (∀ vis pa pal, vps !! pid = Some vis → p_body p = Some pa →
                 arrays h !! pa = Some pal → pal ≠ [] →
                 ∃ vbl, paired h pa vis pal vbl) →
  ∃ h' vps', stepPlayer s pid p (h, vps) = Some (h', vps')
    ∧ ((h' = h ∧ vps' = vps
        ∧ (p_body p = None
           ∨ ∃ pa, p_body p = Some pa ∧ arrays h !! pa = Some []))
       ∨ (∃ vis' wa W,
            vps' = <[pid := vis']> vps
            ∧ stepFrame h wa W h'
            ∧ bodyFrom h h' W (vis_body vis')
            ∧ match vps !! pid with
              | Some vis => wa = Some (vis_body vis)
                            ∧ arrays h !! vis_body vis = Some W
                            ∧ bodyFrom h h' W (vis_body vis)
              | None => wa = None ∧ W = []
              end
            ∧ ((∃ vis, vps !! pid = Some vis
                       ∧ vis_body vis' = vis_body vis)
               ∨ arrays h !! vis_body vis' = None)
            ∧ ∃ pa pal, p_body p = Some pa ∧ arrays h !! pa = Some pal
                        ∧ pal ≠ [])).
Proof.
  intros Hauth Hvis.
  destruct (p_body p) as [pa|] eqn:Hb.
  2: { exists h, vps. split; [unfold stepPlayer; by rewrite Hb|].
       left. repeat split; by left. }
  destruct (Hauth pa eq_refl) as (pal & Hpa & Halp).
  destruct pal as [|th rest] eqn:Epal.
  { exists h, vps. split; [unfold stepPlayer; by rewrite Hb, Hpa|].
    left. repeat split. right. by exists pa. }
  rewrite <- Epal in *.
  assert (Hne : pal ≠ []) by (by rewrite Epal).
  destruct (vps !! pid) as [vis|] eqn:Hv.
  - destruct (Hvis vis pa pal eq_refl eq_refl Hpa Hne) as (vbl & Hp).
    destruct (stepVisual_frame s pid p pa vis h vps pal vbl Hp)
      as (h' & vis' & Hstep & Hfr & Hb1 & Hb2 & Hor).
    exists h', (<[pid := vis']> vps). split.
    { rewrite (stepPlayer_existing s pid p pa vis h vps pal); done. }
    right. exists vis', (Some (vis_body vis)), vbl.
    split; [done|]. split; [exact Hfr|]. split; [exact Hb2|].
    split; [split; [done|split; [apply Hp|exact Hb1]]|].
    split; [|by exists pa, pal].
    destruct Hor as [Hor|Hor]; [left; by exists vis|by right].
  - assert (Hth : head pal = Some th) by (by rewrite Epal).
    assert (Htgt : is_Some (points h !! th)).
    { unfold allocated in Halp. rewrite Forall_forall in Halp. apply Halp.
      rewrite Epal. left. }
    destruct Htgt as [tgt Htgt].
    destruct (first_sighting_step s pid p h vps) as (Hcreate & _).
    destruct (Hcreate pa pal th tgt Hb Hpa Halp Hth Htgt Hv)
      as (h' & vis' & apts & vpts & ls' & Hstep & _ & _ & _ & Hap & _ & Hvp
          & HF2 & Hfa & Ha' & Hfresh & Hfra & Hfrp).
    exists h', (<[pid := vis']> vps). split; [exact Hstep|].
    right. exists vis', None, []. split; [done|]. split.
    { split; [|split].
      - intros b Hb' _. by apply Hfra.
      - intros l Hl _. by apply Hfrp.
      - intros l Hl. rewrite (Hfrp l Hl). exact Hl. }
    split.
    { exists ls'. split; [exact Ha'|]. split.
      { intros ->. apply bodyPoints_Some in Hvp as (els & Hels & HF).
        assert (els = []) by congruence. subst els.
        apply Forall2_length in HF. apply Forall2_length in HF2.
        apply bodyPoints_Some in Hap as (els & Hels' & HF').
        assert (els = pal) by congruence. subst els.
        apply Forall2_length in HF'. rewrite Epal in HF'. simpl in *. lia. }
      split.
      { apply bodyPoints_Some in Hvp as (els & Hels & HF).
        assert (els = ls') by congruence. subst els.
        clear -HF. induction HF; constructor; [by eexists|done]. }
      intros l Hl. right. rewrite Forall_forall in Hfresh. by apply Hfresh. }
    split; [done|]. split; [by right|by exists pa, pal].
Qed.

(** ** The world invariant *)

Lemma authSame_refl (h : Heap) (ps : list (string * Player)) :
  authSame h h ps.
Proof. intros pid p pa pal _ _ Hpa. by split. Qed.

Lemma authSame_trans (h1 h2 h3 : Heap) (ps : list (string * Player)) :
  authSame h1 h2 ps → authSame h2 h3 ps → authSame h1 h3 ps.
Proof.
  intros H12 H23 pid p pa pal Hin Hb Hpa.
  destruct (H12 pid p pa pal Hin Hb Hpa) as [Hpa2 Hp2].
  destruct (H23 pid p pa pal Hin Hb Hpa2) as [Hpa3 Hp3].
  split; [exact Hpa3|]. intros l Hl. by rewrite Hp3, Hp2.
Qed.

Lemma authSame_bodyPoints (h h' : Heap) (ps : list (string * Player))
  (pid : string) (p : Player) (pa : loc) :
  authSame h h' ps → authOk h ps → (pid, p) ∈ ps → p_body p = Some pa →
  bodyPoints h' pa = bodyPoints h pa ∧ is_Some (bodyPoints h pa).
Proof.
  intros Hsame Hok Hin Hb.
  destruct (Hok pid p pa Hin Hb) as (pal & Hpa & Hal).
  destruct (Hsame pid p pa pal Hin Hb Hpa) as [Hpa' Hpts].
  destruct (allocated_values h pal Hal) as [pts Hv].
  assert (H1 : bodyPoints h pa = Some pts).
  { apply bodyPoints_Some. by exists pal. }
  assert (H2 : bodyPoints h' pa = Some pts).
  { apply bodyPoints_Some. exists pal. split; [exact Hpa'|].
    apply Forall2_same_length_lookup. split; [by eapply Forall2_length|].
    intros i l pt Hi Hpt. rewrite Hpts by (by eapply list_elem_of_lookup_2).
    by apply (Forall2_lookup_lr _ _ _ _ _ _ Hv Hi Hpt). }
  rewrite H1, H2. split; [done|by eexists].
Qed.

Section StepWorld.

Variable h h' : Heap.
Variable ps : list (string * Player).
Variable vps : gmap string VisualPlayer.
Variable wa : option loc.
Variable W : list loc.

Hypothesis Hwf : wfWorld h ps vps.
Hypothesis Hframe : stepFrame h wa W h'.
Hypothesis Hwrit :
  (wa = None ∧ W = [])
  ∨ (∃ pid vis, vps !! pid = Some vis ∧ wa = Some (vis_body vis)
                ∧ arrays h !! vis_body vis = Some W
                ∧ bodyFrom h h' W (vis_body vis)).

Lemma step_auth_array (pid : string) (p : Player) (pa : loc)
  (pal : list loc) :
  (pid, p) ∈ ps → p_body p = Some pa → arrays h !! pa = Some pal →
  arrays h' !! pa = Some pal.
Proof.
  intros Hin Hb Hpa. pose proof Hwf as (_ & _ & Hsep).
  pose proof Hframe as (Hfa & _). rewrite Hfa; [done|by eexists|].
  destruct Hwrit as [[Ewa _]|(k & vis & Hv & Ewa & HW & _)];
    rewrite Ewa; [done|].
  intros E. injection E as E.
  destruct (Hsep k vis W pid p pa pal Hv HW Hin Hb Hpa) as [Hne _].
  congruence.
Qed.

Lemma step_auth_point (pid : string) (p : Player) (pa : loc)
  (pal : list loc) (l : loc) :
  (pid, p) ∈ ps → p_body p = Some pa → arrays h !! pa = Some pal →
  l ∈ pal → points h' !! l = points h !! l.
Proof.
  intros Hin Hb Hpa Hl. pose proof Hwf as (Hok & _ & Hsep).
  pose proof Hframe as (_ & Hfp & _).
  destruct (Hok pid p pa Hin Hb) as (pal' & Hpa' & Hal).
  assert (pal' = pal) by congruence. subst pal'.
  unfold allocated in Hal. rewrite Forall_forall in Hal.
  apply Hfp; [by apply Hal|].
  destruct Hwrit as [[_ EW]|(k & vis & Hv & _ & HW & _)].
  - rewrite EW. apply not_elem_of_nil.
  - intros HlW.
    destruct (Hsep k vis W pid p pa pal Hv HW Hin Hb Hpa) as [_ Hd].
    by apply (Hd l).
Qed.

Lemma step_authSame : authSame h h' ps.
Proof.
  intros pid p pa pal Hin Hb Hpa. split.
  - by eapply step_auth_array.
  - intros l Hl. by eapply step_auth_point.
Qed.

Lemma step_allocated (ls : list loc) : allocated h ls → allocated h' ls.
Proof.
  intros Hal. pose proof Hframe as (_ & _ & Hdom).
  eapply Forall_impl; [exact Hal|]. intros l Hl. by apply Hdom.
Qed.

Lemma step_authOk : authOk h' ps.
Proof.
  intros pid p pa Hin Hb. pose proof Hwf as (Hok & _).
  destruct (Hok pid p pa Hin Hb) as (pal & Hpa & Hal).
  exists pal. split; [by eapply step_auth_array|by apply step_allocated].
Qed.

(** A visual body of the old map, read in the new heap. *)
Lemma step_old_body (k : string) (v : VisualPlayer) :
  vps !! k = Some v →
  ∃ Wk, arrays h !! vis_body v = Some Wk ∧ bodyFrom h h' Wk (vis_body v).
Proof.
  intros Hv. pose proof Hwf as (_ & Hvok & _).
  destruct (Hvok k v Hv) as (vbl & Hvb & Hne & Hal).
  destruct Hwrit as [[Ewa _]|(k' & vis & Hv' & Ewa & HW & Hbf)].
  - exists vbl. split; [done|]. exists vbl.
    pose proof Hframe as (Hfa & _).
    split; [rewrite Hfa; [done|by eexists|by rewrite Ewa]|].
    split; [done|]. split; [by apply step_allocated|]. intros l Hl. by left.
  - destruct (decide (vis_body v = vis_body vis)) as [E|Hne'].
    + exists W. rewrite E. by split.
    + exists vbl. split; [done|]. exists vbl.
      pose proof Hframe as (Hfa & _).
      split; [rewrite Hfa; [done|by eexists|rewrite Ewa; congruence]|].
      split; [done|]. split; [by apply step_allocated|]. intros l Hl. by left.
Qed.

(** A body made of old visual points and new points is separate from
    every authoritative body. *)
Lemma step_body_separate (vbl' : list loc) (pid : string) (p : Player)
  (pa : loc) (pal : list loc) :
  (∀ l, l ∈ vbl' →
        (∃ k v Wk, vps !! k = Some v ∧ arrays h !! vis_body v = Some Wk
                   ∧ l ∈ Wk)
        ∨ points h !! l = None) →
  (pid, p) ∈ ps → p_body p = Some pa → arrays h !! pa = Some pal →
  ∀ l, l ∈ vbl' → l ∉ pal.
Proof.
  intros Hfrom Hin Hb Hpa l Hl Hlp.
  pose proof Hwf as (Hok & _ & Hsep).
  destruct (Hfrom l Hl) as [(k & v & Wk & Hv & HWk & HlW)|Hfresh].
  - destruct (Hsep k v Wk pid p pa pal Hv HWk Hin Hb Hpa) as [_ Hd].
    by apply (Hd l).
  - destruct (Hok pid p pa Hin Hb) as (pal' & Hpa' & Hal).
    assert (pal' = pal) by congruence. subst pal'.
    unfold allocated in Hal. rewrite Forall_forall in Hal.
    destruct (Hal l Hlp) as [x Hx]. congruence.
Qed.

End StepWorld.

Lemma stepPlayer_world (s : Q) (pid : string) (p : Player) (h : Heap)
  (vps : gmap string VisualPlayer) (ps : list (string * Player)) :
  wfWorld h ps vps → (pid, p) ∈ ps →
  ∃ h' vps', stepPlayer s pid p (h, vps) = Some (h', vps')
    ∧ wfWorld h' ps vps'
    ∧ authSame h h' ps
    ∧ (∀ k, k ≠ pid → vps' !! k = vps !! k)
    ∧ ((p_body p = None
        ∨ ∃ pa, p_body p = Some pa ∧ arrays h !! pa = Some []) →
       vps' = vps).
Proof.
  intros Hwf Hin. pose proof Hwf as (Hok & Hvok & Hsep).
  destruct (stepPlayer_frame s pid p h vps)
    as (h' & vps' & Hstep & [(-> & -> & Hwhy)|Hch]).
  { intros pa Hb. by apply (Hok pid p pa). }
  { intros vis pa pal Hv Hb Hpa Hne.
    destruct (Hvok pid vis Hv) as (vbl & Hvb & Hnev & Halv).
    destruct (Hok pid p pa Hin Hb) as (pal' & Hpa' & Halp).
    assert (pal' = pal) by congruence. subst pal'.
    destruct (Hsep pid vis vbl pid p pa pal Hv Hvb Hin Hb Hpa) as [Hd _].
    exists vbl. by repeat split. }
  { exists h, vps. split; [exact Hstep|]. split; [exact Hwf|].
    split; [apply authSame_refl|]. by split. }
  destruct Hch as (vis' & wa & W & -> & Hframe & Hnew & Hold & Hor & Hbody).
  assert (Hwrit : (wa = None ∧ W = [])
                  ∨ (∃ k vis, vps !! k = Some vis ∧ wa = Some (vis_body vis)
                              ∧ arrays h !! vis_body vis = Some W
                              ∧ bodyFrom h h' W (vis_body vis))).
  { destruct (vps !! pid) as [vis|] eqn:Hv.
    - destruct Hold as (-> & HW & Hbf). right. by exists pid, vis.
    - by left. }
  assert (HfromW : ∀ l, l ∈ W →
            ∃ k v Wk, vps !! k = Some v ∧ arrays h !! vis_body v = Some Wk
                      ∧ l ∈ Wk).
  { intros l Hl. destruct Hwrit as [[_ ->]|(k & vis & Hv & _ & HW & _)].
    - by apply not_elem_of_nil in Hl.
    - by exists k, vis, W. }
  exists h', (<[pid := vis']> vps). split; [exact Hstep|].
  split; [|split; [by eapply step_authSame|split]].
  - split; [by eapply step_authOk|]. split.
    + intros k v Hkv. destruct (decide (pid = k)) as [<-|Hne].
      * rewrite lookup_insert_eq in Hkv. injection Hkv as <-.
        destruct Hnew as (vbl' & H1 & H2 & H3 & _). by exists vbl'.
      * rewrite lookup_insert_ne in Hkv by done.
        destruct (step_old_body h h' ps vps wa W Hwf Hframe Hwrit k v Hkv)
          as (Wk & _ & vbl2 & H1 & H2 & H3 & _).
        by exists vbl2.
    + intros k v vblk pid' p' pa' pal'' Hkv Hvb' Hin' Hb' Hpa''.
      destruct (Hok pid' p' pa' Hin' Hb') as (pal' & Hpa' & Halp').
      pose proof (step_auth_array h h' ps vps wa W Hwf Hframe Hwrit
                    pid' p' pa' pal' Hin' Hb' Hpa') as Hpa2.
      assert (pal'' = pal') by congruence. subst pal''.
      destruct (decide (pid = k)) as [<-|Hne].
      * rewrite lookup_insert_eq in Hkv. injection Hkv as <-.
        destruct Hnew as (vbl' & H1 & _ & _ & Hfrom).
        assert (vblk = vbl') by congruence. subst vblk. split.
        -- destruct Hor as [(vis & Hv & ->)|Hfresh]; [|congruence].
           destruct (Hvok pid vis Hv) as (vbl & Hvb & _).
           by destruct (Hsep pid vis vbl pid' p' pa' pal' Hv Hvb Hin' Hb' Hpa').
        -- apply (step_body_separate h ps vps Hwf vbl' pid' p' pa' pal');
             try done.
           intros l Hl. destruct (Hfrom l Hl) as [HlW|Hfr]; [left|by right].
           by apply HfromW.
      * rewrite lookup_insert_ne in Hkv by done.
        destruct (step_old_body h h' ps vps wa W Hwf Hframe Hwrit k v Hkv)
          as (Wk & HWk & vbl2 & H1 & _ & _ & Hfrom).
        assert (vblk = vbl2) by congruence. subst vblk. split.
        -- by destruct (Hsep k v Wk pid' p' pa' pal' Hkv HWk Hin' Hb' Hpa').
        -- apply (step_body_separate h ps vps Hwf vbl2 pid' p' pa' pal');
             try done.
           intros l Hl. destruct (Hfrom l Hl) as [HlW|Hfr]; [left|by right].
           by exists k, v, Wk.
  - intros k Hne. by rewrite lookup_insert_ne.
  - intros Hwhy. destruct Hbody as (pa & pal & Hb & Hpa & Hne).
    destruct Hwhy as [Hn|(pa' & Hb' & Hpa')]; congruence.
Qed.


(** ** Visual players among themselves *)

Lemma visSame_refl (h : Heap) (v : VisualPlayer) : visSame h h v.
Proof. by split. Qed.

Lemma visSame_trans (h1 h2 h3 : Heap) (v : VisualPlayer) :
  visSame h1 h2 v → visSame h2 h3 v → visSame h1 h3 v.
Proof.
  intros [Ha12 Hp12] [Ha23 Hp23]. split; [congruence|].
  intros b l Hb Hl. rewrite (Hp23 b l); [by apply (Hp12 b)|congruence|done].
Qed.

Lemma visSame_bodyPoints (h h' : Heap) (v : VisualPlayer) :
  visSame h h' v → bodyPoints h' (vis_body v) = bodyPoints h (vis_body v).
Proof.
  intros [Ha Hp]. apply option_eq. intros pts. rewrite !bodyPoints_Some.
  split; intros (els & Hels & HF); exists els.
  - rewrite Ha in Hels. split; [done|].
    apply Forall2_same_length_lookup. split; [by eapply Forall2_length|].
    intros i l pt Hi Hpt. rewrite <- (Hp els l Hels).
    + by apply (Forall2_lookup_lr _ _ _ _ _ _ HF Hi Hpt).
    + by eapply list_elem_of_lookup_2.
  - split; [by rewrite Ha|].
    apply Forall2_same_length_lookup. split; [by eapply Forall2_length|].
    intros i l pt Hi Hpt. rewrite (Hp els l Hels).
    + by apply (Forall2_lookup_lr _ _ _ _ _ _ HF Hi Hpt).
    + by eapply list_elem_of_lookup_2.
Qed.

Lemma heapGrows_refl (h : Heap) : heapGrows h h.
Proof. by split. Qed.

Lemma heapGrows_trans (h1 h2 h3 : Heap) :
  heapGrows h1 h2 → heapGrows h2 h3 → heapGrows h1 h3.
Proof. intros [A1 P1] [A2 P2]. split; auto. Qed.

Lemma wfWorld_frame_premises (h : Heap) (ps : list (string * Player))
  (vps : gmap string VisualPlayer) (pid : string) (p : Player) :
  wfWorld h ps vps → (pid, p) ∈ ps →
  (∀ pa, p_body p = Some pa →
         ∃ pal, arrays h !! pa = Some pal ∧ allocated h pal)
  ∧ (∀ vis pa pal, vps !! pid = Some vis → p_body p = Some pa →
                   arrays h !! pa = Some pal → pal ≠ [] →
                   ∃ vbl, paired h pa vis pal vbl).
Proof.
  intros (Hok & Hvok & Hsep) Hin. split.
  - intros pa Hb. by apply (Hok pid p pa).
  - intros vis pa pal Hv Hb Hpa Hne.
    destruct (Hvok pid vis Hv) as (vbl & Hvb & Hnev & Halv).
    destruct (Hok pid p pa Hin Hb) as (pal' & Hpa' & Halp).
    assert (pal' = pal) by congruence. subst pal'.
    destruct (Hsep pid vis vbl pid p pa pal Hv Hvb Hin Hb Hpa) as [Hd _].
    exists vbl. by repeat split.
Qed.

Lemma wfWorld_paired (h : Heap) (ps : list (string * Player))
  (vps : gmap string VisualPlayer) (pid : string) (p : Player)
  (vis : VisualPlayer) (pa : loc) (pal : list loc) :
  wfWorld h ps vps → (pid, p) ∈ ps → vps !! pid = Some vis →
  p_body p = Some pa → arrays h !! pa = Some pal → pal ≠ [] →
  ∃ vbl, paired h pa vis pal vbl.
Proof.
  intros Hwf Hin Hv Hb Hpa Hne.
  destruct (wfWorld_frame_premises h ps vps pid p Hwf Hin) as [_ H].
  by apply H.
Qed.

Lemma stepPlayer_apart (s : Q) (pid : string) (p : Player) (h : Heap)
  (vps : gmap string VisualPlayer) (ps : list (string * Player))
  (h' : Heap) (vps' : gmap string VisualPlayer) :
  wfWorld h ps vps → visApart h vps → (pid, p) ∈ ps →
  stepPlayer s pid p (h, vps) = Some (h', vps') →
  visApart h' vps'
  ∧ (∀ k v, k ≠ pid → vps !! k = Some v → visSame h h' v)
  ∧ heapGrows h h'.
Proof.
  intros Hwf Hap Hin Hstep. pose proof Hwf as (Hok & Hvok & Hsep).
  destruct (wfWorld_frame_premises h ps vps pid p Hwf Hin) as [Hp1 Hp2].
  destruct (stepPlayer_frame s pid p h vps Hp1 Hp2)
    as (h2 & vps2 & Hstep2 & Hcases).
  rewrite Hstep in Hstep2. injection Hstep2 as <- <-.
  destruct Hcases as [(-> & -> & _)|Hch].
  { split; [exact Hap|]. split; [intros; apply visSame_refl|].
    apply heapGrows_refl. }
  destruct Hch as (vis' & wa & W & -> & Hframe & Hnew & Hold & Hor & _).
  pose proof Hframe as (Hfa & Hfp & Hdom).
  assert (Hsame : ∀ k v, k ≠ pid → vps !! k = Some v → visSame h h' v).
  { intros k v Hne Hk. destruct (Hvok k v Hk) as (b & Hb & _ & Hal).
    split.
    - apply Hfa; [by eexists|].
      destruct (vps !! pid) as [vis|] eqn:Hv.
      + destruct Hold as (-> & HW & _). intros E. injection E as E.
        destruct (Hap k pid v vis b W Hne Hk Hv Hb HW) as [Hd _]. congruence.
      + destruct Hold as (-> & _). done.
    - intros b' l Hb' Hl. assert (b' = b) by congruence. subst b'.
      unfold allocated in Hal. rewrite Forall_forall in Hal.
      apply Hfp; [by apply Hal|].
      destruct (vps !! pid) as [vis|] eqn:Hv.
      + destruct Hold as (_ & HW & _).
        destruct (Hap k pid v vis b W Hne Hk Hv Hb HW) as [_ Hd].
        by apply Hd.
      + destruct Hold as (_ & ->). apply not_elem_of_nil. }
  assert (Hnewsep : ∀ k v b vbl', k ≠ pid → vps !! k = Some v →
            arrays h !! vis_body v = Some b →
            arrays h' !! vis_body vis' = Some vbl' →
            vis_body vis' ≠ vis_body v
            ∧ (∀ l, l ∈ vbl' → l ∉ b)).
  { intros k v b vbl' Hne Hk Hb Hvbl'.
    destruct (Hvok k v Hk) as (b0 & Hb0 & _ & Hal).
    assert (b0 = b) by congruence. subst b0.
    unfold allocated in Hal. rewrite Forall_forall in Hal.
    destruct Hnew as (vbl2 & Hvbl2 & _ & _ & Hfrom).
    assert (vbl2 = vbl') by congruence. subst vbl2. split.
    - destruct Hor as [(vis & Hv & ->)|Hfresh]; [|congruence].
      rewrite Hv in Hold. destruct Hold as (_ & HW & _).
      destruct (Hap pid k vis v W b (not_eq_sym Hne) Hv Hk HW Hb) as [Hd _].
      exact Hd.
    - intros l Hl Hlb. destruct (Hfrom l Hl) as [HlW|Hfr].
      + destruct (vps !! pid) as [vis|] eqn:Hv.
        * destruct Hold as (_ & HW & _).
          destruct (Hap pid k vis v W b (not_eq_sym Hne) Hv Hk HW Hb)
            as [_ Hd].
          by apply (Hd l).
        * destruct Hold as (_ & ->). by apply not_elem_of_nil in HlW.
      + destruct (Hal l Hlb) as [x Hx]. congruence. }
  split; [|split; [exact Hsame|]].
  - intros k1 k2 v1 v2 b1 b2 Hne H1 H2 Hb1 Hb2.
    destruct (decide (k1 = pid)) as [->|Hn1];
      destruct (decide (k2 = pid)) as [->|Hn2]; [done| | |].
    + rewrite lookup_insert_eq in H1. injection H1 as <-.
      rewrite lookup_insert_ne in H2 by done.
      destruct (Hsame k2 v2 Hn2 H2) as [Ha2 _]. rewrite Ha2 in Hb2.
      by apply (Hnewsep k2 v2 b2 b1).
    + rewrite lookup_insert_eq in H2. injection H2 as <-.
      rewrite lookup_insert_ne in H1 by done.
      destruct (Hsame k1 v1 Hn1 H1) as [Ha1 _]. rewrite Ha1 in Hb1.
      destruct (Hnewsep k1 v1 b1 b2 Hn1 H1 Hb1 Hb2) as [Hd1 Hd2].
      split; [congruence|]. intros l Hl Hl2. by apply (Hd2 l).
    + rewrite lookup_insert_ne in H1 by done.
      rewrite lookup_insert_ne in H2 by done.
      destruct (Hsame k1 v1 Hn1 H1) as [Ha1 _]. rewrite Ha1 in Hb1.
      destruct (Hsame k2 v2 Hn2 H2) as [Ha2 _]. rewrite Ha2 in Hb2.
      by apply (Hap k1 k2 v1 v2 b1 b2).
  - split; [|exact Hdom]. intros a Ha.
    destruct (decide (wa = Some a)) as [Ewa|Hnwa].
    + destruct (vps !! pid) as [vis|] eqn:Hv.
      * destruct Hold as (Ewa' & _ & (vbl1 & Hvbl1 & _)).
        assert (a = vis_body vis) by congruence. subst a. by eexists.
      * destruct Hold as (Ewa' & _). congruence.
    + by rewrite Hfa.
Qed.

(** ** The whole frame *)

Lemma stepPlayers_cons (s : Q) (pid : string) (p : Player)
  (qs : list (string * Player)) (hv : Heap * gmap string VisualPlayer) :
  stepPlayers s ((pid, p) :: qs) hv
  = stepPlayer s pid p hv ≫= stepPlayers s qs.
Proof. reflexivity. Qed.

Lemma stepPlayers_world (s : Q) (ps qs : list (string * Player)) :
  ∀ (h : Heap) (vps : gmap string VisualPlayer),
  wfWorld h ps vps → visApart h vps → (∀ e, e ∈ qs → e ∈ ps) →
  ∃ h' vps', stepPlayers s qs (h, vps) = Some (h', vps')
    ∧ wfWorld h' ps vps' ∧ visApart h' vps'
    ∧ authSame h h' ps ∧ heapGrows h h'
    ∧ (∀ k, vps !! k = None →
            (∀ p, (k, p) ∈ qs → bodiless h p) → vps' !! k = None)
    ∧ (∀ k, (∀ p, (k, p) ∉ qs) →
            vps' !! k = vps !! k
            ∧ ∀ v, vps !! k = Some v → visSame h h' v).
Proof.
  induction qs as [|[pid p] qs IH]; intros h vps Hwf Hap Hsub.
  - exists h, vps. split; [done|]. split; [done|]. split; [done|].
    split; [apply authSame_refl|]. split; [apply heapGrows_refl|].
    split; [by intros k Hk _|]. intros k _. split; [done|].
    intros v _. apply visSame_refl.
  - assert (Hin : (pid, p) ∈ ps) by (apply Hsub; left).
    destruct (stepPlayer_world s pid p h vps ps Hwf Hin)
      as (h1 & vps1 & Hstep & Hwf1 & Hsame1 & Hother & Hnone).
    destruct (stepPlayer_apart s pid p h vps ps h1 vps1 Hwf Hap Hin Hstep)
      as (Hap1 & Hvs1 & Hgr1).
    destruct (IH h1 vps1 Hwf1 Hap1)
      as (h2 & vps2 & Hrest & Hwf2 & Hap2 & Hsame2 & Hgr2 & Hno2 & Hoth2).
    { intros e He. apply Hsub. by right. }
    exists h2, vps2. rewrite stepPlayers_cons, Hstep. simpl.
    split; [exact Hrest|]. split; [exact Hwf2|]. split; [exact Hap2|].
    split; [by eapply authSame_trans|].
    split; [by eapply heapGrows_trans|]. split.
    + intros k Hk Hbl. apply Hno2.
      * destruct (decide (k = pid)) as [->|Hne].
        -- rewrite Hnone; [done|]. apply Hbl. left.
        -- by rewrite Hother.
      * intros p' Hin'. destruct (Hbl p' (list_elem_of_further _ _ _ Hin'))
          as [Hn|(pa & Hb & Hpa)]; [by left|right].
        exists pa. split; [done|].
        assert (Hps : (k, p') ∈ ps) by (apply Hsub; by right).
        by destruct (Hsame1 k p' pa [] Hps Hb Hpa).
    + intros k Hk.
      assert (Hne : k ≠ pid).
      { intros ->. apply (Hk p). left. }
      destruct (Hoth2 k) as [E2 Hv2].
      { intros p' Hin'. apply (Hk p'). by right. }
      split; [by rewrite E2, Hother|].
      intros v Hv. eapply visSame_trans; [by apply (Hvs1 k)|].
      apply Hv2. by rewrite Hother.
Qed.

(** The loop, seen from one player [pid] that occurs once: the state
    [(h0, vps0)] at its turn, the state [(h1, vps1)] after its step, and
    the end of the loop, where its visual player is as its step left it. *)
Lemma stepPlayers_focus (s : Q) (ps qs : list (string * Player))
  (pid : string) (p : Player) :
  ∀ (h : Heap) (vps : gmap string VisualPlayer),
  wfWorld h ps vps → visApart h vps → (∀ e, e ∈ qs → e ∈ ps) →
  NoDup (fst <$> qs) → (pid, p) ∈ qs →
  ∃ h0 vps0 h1 vps1 h' vps',
    stepPlayers s qs (h, vps) = Some (h', vps')
    ∧ stepPlayer s pid p (h0, vps0) = Some (h1, vps1)
    ∧ wfWorld h0 ps vps0 ∧ authSame h h0 ps ∧ heapGrows h h0
    ∧ vps0 !! pid = vps !! pid
    ∧ (∀ v, vps !! pid = Some v → visSame h h0 v)
    ∧ authSame h h' ps
    ∧ vps' !! pid = vps1 !! pid
    ∧ (∀ v, vps1 !! pid = Some v → visSame h1 h' v).
Proof.
  induction qs as [|[k q] qs IH]; intros h vps Hwf Hap Hsub Hnd Hin.
  { by apply elem_of_nil in Hin. }
  rewrite fmap_cons in Hnd. apply NoDup_cons in Hnd as [Hk Hnd]. simpl in Hk.
  assert (Hkin : (k, q) ∈ ps) by (apply Hsub; left).
  destruct (stepPlayer_world s k q h vps ps Hwf Hkin)
    as (h1 & vps1 & Hstep & Hwf1 & Hsame1 & Hother & _).
  destruct (stepPlayer_apart s k q h vps ps h1 vps1 Hwf Hap Hkin Hstep)
    as (Hap1 & Hvs1 & Hgr1).
  assert (Hsub' : ∀ e, e ∈ qs → e ∈ ps).
  { intros e He. apply Hsub. by right. }
  apply elem_of_cons in Hin as [E|Hin].
  - injection E as -> ->.
    destruct (stepPlayers_world s ps qs h1 vps1 Hwf1 Hap1 Hsub')
      as (h2 & vps2 & Hrest & _ & _ & Hsame2 & _ & _ & Hoth2).
    destruct (Hoth2 k) as [E2 Hv2].
    { intros p' Hin'. apply Hk. apply list_elem_of_fmap.
      by exists (k, p'). }
    exists h, vps, h1, vps1, h2, vps2.
    rewrite stepPlayers_cons, Hstep. simpl.
    split; [exact Hrest|]. split; [done|]. split; [exact Hwf|].
    split; [apply authSame_refl|]. split; [apply heapGrows_refl|].
    split; [done|]. split; [intros; apply visSame_refl|].
    split; [by eapply authSame_trans|]. by split.
  - assert (Hne : pid ≠ k).
    { intros ->. apply Hk. apply list_elem_of_fmap. by exists (k, p). }
    destruct (IH h1 vps1 Hwf1 Hap1 Hsub' Hnd Hin)
      as (h0 & vps0 & h1' & vps1' & h2 & vps2 & Hrest & Hfocus & Hwf0
          & Hsame0 & Hgr0 & Hv0 & Hvs0 & Hsame2 & Hend & Hvend).
    exists h0, vps0, h1', vps1', h2, vps2.
    rewrite stepPlayers_cons, Hstep. simpl.
    split; [exact Hrest|]. split; [exact Hfocus|]. split; [exact Hwf0|].
    split; [by eapply authSame_trans|].
    split; [by eapply heapGrows_trans|].
    split; [by rewrite Hv0, Hother|]. split.
    + intros v Hv. eapply visSame_trans; [by apply (Hvs1 pid)|].
      apply Hvs0. by rewrite Hother.
    + split; [by eapply authSame_trans|]. by split.
Qed.

Lemma cleanupVisuals_lookup (ps : list (string * Player)) (me : string)
  (vps : gmap string VisualPlayer) (k : string) (v : VisualPlayer) :
  cleanupVisuals ps me vps !! k = Some v → vps !! k = Some v.
Proof.
  unfold cleanupVisuals. intros H.
  by apply map_lookup_filter_Some in H as [H _].
Qed.

Lemma lookupPlayer_is_Some (ps : list (string * Player)) (pid : string)
  (p : Player) :
  (pid, p) ∈ ps → is_Some (lookupPlayer ps pid).
Proof.
  intros Hin. unfold lookupPlayer.
  destruct (List.find _ ps) as [e|] eqn:E; [by eexists|].
  apply list_elem_of_In in Hin.
  pose proof (find_none _ _ E _ Hin) as Hf. simpl in Hf.
  by rewrite String.eqb_refl in Hf.
Qed.

Lemma cleanupVisuals_keeps (ps : list (string * Player)) (me : string)
  (vps : gmap string VisualPlayer) (pid : string) (p : Player) :
  (pid, p) ∈ ps → cleanupVisuals ps me vps !! pid = vps !! pid.
Proof.
  intros Hin. unfold cleanupVisuals.
  destruct (vps !! pid) as [v|] eqn:Hv.
  - apply map_lookup_filter_Some. split; [done|]. left. simpl.
    by eapply lookupPlayer_is_Some.
  - apply map_lookup_filter_None. by left.
Qed.

Lemma cleanupVisuals_wf (h : Heap) (ps : list (string * Player))
  (me : string) (vps : gmap string VisualPlayer) :
  wfWorld h ps vps → wfWorld h ps (cleanupVisuals ps me vps).
Proof.
  intros (Hok & Hvok & Hsep). split; [exact Hok|]. split.
  - intros k v Hk. apply (Hvok k). by eapply cleanupVisuals_lookup.
  - intros k v vbl pid p pa pal Hk. apply (Hsep k).
    by eapply cleanupVisuals_lookup.
Qed.

Lemma cleanupVisuals_apart (h : Heap) (ps : list (string * Player))
  (me : string) (vps : gmap string VisualPlayer) :
  visApart h vps → visApart h (cleanupVisuals ps me vps).
Proof.
  intros Hap k1 k2 v1 v2 b1 b2 Hne H1 H2.
  apply (Hap k1 k2); [done|by eapply cleanupVisuals_lookup..].
Qed.

Lemma interpolate_world (dt : Q) (ps : list (string * Player)) (me : string)
  (h : Heap) (vps : gmap string VisualPlayer) :
  wfWorld h ps vps → visApart h vps →
  ∃ h' vps', interpolate dt ps me h vps = Some (h', vps')
    ∧ wfWorld h' ps vps' ∧ visApart h' vps'
    ∧ authSame h h' ps
    ∧ (∀ k, vps !! k = None →
            (∀ p, (k, p) ∈ ps → bodiless h p) → vps' !! k = None).
Proof.
  intros Hwf Hap. unfold interpolate.
  destruct (stepPlayers_world (10.0 * dt) ps ps h (cleanupVisuals ps me vps))
    as (h' & vps' & Hs & Hwf' & Hap' & Hsame & _ & Hno & _);
    [by apply cleanupVisuals_wf|by apply cleanupVisuals_apart|done|].
  exists h', vps'. split; [exact Hs|]. split; [exact Hwf'|].
  split; [exact Hap'|]. split; [exact Hsame|].
  intros k Hk Hbl. apply Hno; [|exact Hbl].
  destruct (cleanupVisuals ps me vps !! k) as [v|] eqn:E; [|done].
  apply cleanupVisuals_lookup in E. congruence.
Qed.

Lemma interpolate_focus (dt : Q) (ps : list (string * Player)) (me : string)
  (h : Heap) (vps : gmap string VisualPlayer) (pid : string) (p : Player) :
  wfWorld h ps vps → visApart h vps →
  NoDup (fst <$> ps) → (pid, p) ∈ ps →
  ∃ h0 vps0 h1 vps1 h' vps',
    interpolate dt ps me h vps = Some (h', vps')
    ∧ stepPlayer (10.0 * dt) pid p (h0, vps0) = Some (h1, vps1)
    ∧ wfWorld h0 ps vps0 ∧ authSame h h0 ps ∧ heapGrows h h0
    ∧ vps0 !! pid = vps !! pid
    ∧ (∀ v, vps !! pid = Some v → visSame h h0 v)
    ∧ authSame h h' ps
    ∧ vps' !! pid = vps1 !! pid
    ∧ (∀ v, vps1 !! pid = Some v → visSame h1 h' v).
Proof.
  intros Hwf Hap Hnd Hin. unfold interpolate.
  destruct (stepPlayers_focus (10.0 * dt) ps ps pid p h
              (cleanupVisuals ps me vps))
    as (h0 & vps0 & h1 & vps1 & h' & vps' & Hs & Hstep & Hwf0 & Hsame0 & Hgr0
        & Hv0 & Hvs0 & Hsame & Hend & Hvend);
    [by apply cleanupVisuals_wf|by apply cleanupVisuals_apart|done|done|done|].
  rewrite (cleanupVisuals_keeps ps me vps pid p Hin) in Hv0, Hvs0.
  by exists h0, vps0, h1, vps1, h', vps'.
Qed.

Section Frame.

Variable Math_cos Math_sin : Q -> Q.

Lemma updateSpectatorMovement_world (dt : Q) (g : Game) :
  heap (updateSpectatorMovement dt g) = heap g
  ∧ players (updateSpectatorMovement dt g) = players g
  ∧ visualPlayers (updateSpectatorMovement dt g) = visualPlayers g.
Proof.
  unfold updateSpectatorMovement.
  repeat match goal with
         | |- context [if ?b then _ else _] => destruct b; simpl
         end; done.
Qed.

Lemma updateCamera_world (dt : Q) (g : Game) :
  heap (updateCamera Math_cos Math_sin dt g) = heap g
  ∧ players (updateCamera Math_cos Math_sin dt g) = players g
  ∧ visualPlayers (updateCamera Math_cos Math_sin dt g) = visualPlayers g.
Proof.
  unfold updateCamera. destruct (spectateMode g).
  - simpl. apply updateSpectatorMovement_world.
  - destruct (isDead g); simpl; [done|].
    destruct (visualPlayers g !! myId g) as [me|]; simpl; [|done].
    destruct (hypot_gt _ _ _); done.
Qed.

Lemma updateVisuals_world (dt : Q) (g : Game) :
  wfGame g →
  ∃ g', updateVisuals Math_cos Math_sin dt g = Some g'
    ∧ wfGame g'
    ∧ players g' = players g
    ∧ authSame (heap g) (heap g') (players g)
    ∧ (∀ k, visualPlayers g !! k = None →
            (∀ p, (k, p) ∈ players g → bodiless (heap g) p) →
            visualPlayers g' !! k = None).
Proof.
  intros [Hwf Hap].
  destruct (interpolate_world dt (players g) (myId g) (heap g)
              (visualPlayers g) Hwf Hap)
    as (h' & vps' & Hi & Hwf' & Hap' & Hsame & Hno).
  unfold updateVisuals. rewrite Hi. simpl. eexists. split; [reflexivity|].
  unfold wfGame.
  destruct (updateCamera_world dt (set_visualPlayers vps' (set_heap h' g)))
    as (-> & -> & ->).
  simpl. done.
Qed.

(** [updateVisuals], seen from one player that occurs once in the map. *)
Lemma updateVisuals_focus (dt : Q) (g : Game) (pid : string) (p : Player) :
  wfGame g → NoDup (fst <$> players g) → (pid, p) ∈ players g →
  ∃ h0 vps0 h1 vps1 g',
    updateVisuals Math_cos Math_sin dt g = Some g'
    ∧ stepPlayer (10.0 * dt) pid p (h0, vps0) = Some (h1, vps1)
    ∧ wfWorld h0 (players g) vps0
    ∧ authSame (heap g) h0 (players g) ∧ heapGrows (heap g) h0
    ∧ vps0 !! pid = visualPlayers g !! pid
    ∧ (∀ v, visualPlayers g !! pid = Some v → visSame (heap g) h0 v)
    ∧ authSame (heap g) (heap g') (players g)
    ∧ visualPlayers g' !! pid = vps1 !! pid
    ∧ (∀ v, vps1 !! pid = Some v → visSame h1 (heap g') v).
Proof.
  intros [Hwf Hap] Hnd Hin.
  destruct (interpolate_focus dt (players g) (myId g) (heap g)
              (visualPlayers g) pid p Hwf Hap Hnd Hin)
    as (h0 & vps0 & h1 & vps1 & h' & vps' & Hi & Hstep & Hwf0 & Hsame0 & Hgr0
        & Hv0 & Hvs0 & Hsame & Hend & Hvend).
  unfold updateVisuals. rewrite Hi. simpl.
  eexists h0, vps0, h1, vps1, _. split; [reflexivity|].
  destruct (updateCamera_world dt (set_visualPlayers vps' (set_heap h' g)))
    as (-> & _ & ->).
  simpl. done.
Qed.

End Frame.

(** ** Snapshots and reachable states *)

Lemma allocPoints_spec (pts : list Point) : ∀ h : Heap,
  ∃ h' ls, allocPoints h pts = (h', ls)
    ∧ arrays h' = arrays h
    ∧ points h ⊆ points h'
    ∧ Forall (fun l => points h !! l = None) ls
    ∧ allocated h' ls.
Proof.
  induction pts as [|pt pts IH]; intros h.
  - exists h, []. repeat split; try done; constructor.
  - destruct (allocPoint_spec h pt) as (l & h1 & Hal & Hfresh & Hp1 & Ha1).
    destruct (IH h1) as (h2 & ls & Hrest & Ha2 & Hsub2 & Hfr2 & Hal2).
    assert (Hsub1 : points h ⊆ points h1).
    { rewrite Hp1. by apply insert_subseteq. }
    exists h2, (l :: ls). simpl. rewrite Hal, Hrest.
    split; [done|]. split; [congruence|]. split; [by etrans|]. split.
    + constructor; [done|]. eapply Forall_impl; [exact Hfr2|].
      intros x Hx. cbv beta in Hx. destruct (points h !! x) eqn:E; [|done].
      eapply lookup_weaken in E; [|exact Hsub1]. congruence.
    + constructor; [|done]. exists pt. eapply lookup_weaken; [|exact Hsub2].
      by rewrite Hp1, lookup_insert_eq.
Qed.

Lemma loadPlayer_spec (h : Heap) (d : PlayerData) :
  ∃ h' p, loadPlayer h d = (h', p)
    ∧ arrays h ⊆ arrays h' ∧ points h ⊆ points h'
    ∧ loadedBody h h' p.
Proof.
  unfold loadPlayer. destruct (pd_body d) as [pts|].
  - destruct (allocPoints_spec pts h) as (h1 & ls & Hl & Ha1 & Hsub & Hfr & Hal).
    destruct (allocArray_spec h1 ls) as (a & h2 & Haa & Hfa & Ha2 & Hp2).
    rewrite Hl, Haa. eexists _, _. split; [reflexivity|].
    rewrite Ha1 in Hfa. split.
    { rewrite Ha2, Ha1. by apply insert_subseteq. }
    split; [by rewrite Hp2|].
    intros a' Ha'. simpl in Ha'. injection Ha' as <-. split; [done|].
    exists ls. split; [by rewrite Ha2, lookup_insert_eq|].
    split; [|done]. unfold allocated. by rewrite Hp2.
  - eexists _, _. split; [reflexivity|]. split; [done|]. split; [done|].
    intros a Ha. discriminate.
Qed.

Lemma loadedBody_weaken (h0 h h' h'' : Heap) (p : Player) :
  arrays h0 ⊆ arrays h → points h0 ⊆ points h →
  arrays h' ⊆ arrays h'' → points h' ⊆ points h'' →
  loadedBody h h' p → loadedBody h0 h'' p.
Proof.
  intros Ha0 Hp0 Ha Hp Hl a Hb.
  destruct (Hl a Hb) as (Hfa & pal & Hpal & Hal & Hfr). split.
  - destruct (arrays h0 !! a) eqn:E; [|done].
    eapply lookup_weaken in E; [|exact Ha0]. congruence.
  - exists pal. split; [by eapply lookup_weaken|].
    split; [by eapply allocated_weaken|].
    eapply Forall_impl; [exact Hfr|]. intros l Hx. cbv beta in Hx.
    destruct (points h0 !! l) eqn:E; [|done].
    eapply lookup_weaken in E; [|exact Hp0]. congruence.
Qed.

Lemma loadPlayers_spec (ds : list (string * PlayerData)) : ∀ h : Heap,
  ∃ h' ps, loadPlayers h ds = (h', ps)
    ∧ arrays h ⊆ arrays h' ∧ points h ⊆ points h'
    ∧ ∀ pid p, (pid, p) ∈ ps → loadedBody h h' p.
Proof.
  induction ds as [|[pid d] ds IH]; intros h.
  - exists h, []. split; [done|]. split; [done|]. split; [done|].
    intros k q Hin. by apply elem_of_nil in Hin.
  - destruct (loadPlayer_spec h d) as (h1 & p & Hl & Ha1 & Hp1 & Hb1).
    destruct (IH h1) as (h2 & ps & Hrest & Ha2 & Hp2 & Hb2).
    exists h2, ((pid, p) :: ps). simpl. rewrite Hl, Hrest.
    split; [done|]. split; [by etrans|]. split; [by etrans|].
    intros pid' p' Hin. apply elem_of_cons in Hin as [E|Hin].
    + injection E as -> ->.
      by apply (loadedBody_weaken h h h1 h2).
    + by apply (loadedBody_weaken h h1 h2 h2); [..|eapply Hb2].
Qed.

Lemma wfWorld_snapshot (h h' : Heap) (ps0 ps : list (string * Player))
  (vps : gmap string VisualPlayer) :
  wfWorld h ps0 vps →
  arrays h ⊆ arrays h' → points h ⊆ points h' →
  (∀ pid p, (pid, p) ∈ ps → loadedBody h h' p) →
  wfWorld h' ps vps.
Proof.
  intros (_ & Hvok & _) Ha Hp Hload. split; [|split].
  - intros pid p pa Hin Hb.
    destruct (Hload pid p Hin pa Hb) as (_ & pal & Hpal & Hal & _).
    by exists pal.
  - intros k v Hk. destruct (Hvok k v Hk) as (vbl & Hvb & Hne & Hal).
    exists vbl. split; [by eapply lookup_weaken|].
    split; [done|by eapply allocated_weaken].
  - intros k v vbl pid p pa pal Hk Hvb Hin Hb Hpa.
    destruct (Hvok k v Hk) as (vbl0 & Hvb0 & _ & Hal0).
    assert (Hvb1 : arrays h' !! vis_body v = Some vbl0)
      by (by eapply lookup_weaken).
    assert (vbl = vbl0) by congruence. subst vbl.
    destruct (Hload pid p Hin pa Hb) as (Hfa & pal' & Hpal & _ & Hfr).
    assert (pal' = pal) by congruence. subst pal'.
    split; [congruence|]. intros l Hl Hlp.
    unfold allocated in Hal0. rewrite Forall_forall in Hal0, Hfr.
    destruct (Hal0 l Hl) as [x Hx]. specialize (Hfr l Hlp). congruence.
Qed.

Lemma visApart_snapshot (h h' : Heap) (vps : gmap string VisualPlayer) :
  visOk h vps → visApart h vps → arrays h ⊆ arrays h' → visApart h' vps.
Proof.
  intros Hvok Hap Ha k1 k2 v1 v2 b1 b2 Hne H1 H2 Hb1 Hb2.
  destruct (Hvok k1 v1 H1) as (c1 & Hc1 & _).
  destruct (Hvok k2 v2 H2) as (c2 & Hc2 & _).
  assert (b1 = c1).
  { eapply lookup_weaken in Hc1; [|exact Ha]. congruence. }
  assert (b2 = c2).
  { eapply lookup_weaken in Hc2; [|exact Ha]. congruence. }
  subst. by apply (Hap k1 k2 v1 v2).
Qed.

Lemma wfGame_initGame (now : Q) : wfGame (initGame now).
Proof.
  split; [split; [|split]|].
  4: { intros k1 k2 v1 v2 b1 b2 _ Hk.
       change (visualPlayers (initGame now))
         with (∅ : gmap string VisualPlayer) in Hk.
       by rewrite lookup_empty in Hk. }
  - intros pid p pa Hin. by apply elem_of_nil in Hin.
  - intros k v Hk.
    change (visualPlayers (initGame now))
      with (∅ : gmap string VisualPlayer) in Hk.
    by rewrite lookup_empty in Hk.
  - intros k v vbl pid p pa pal Hk.
    change (visualPlayers (initGame now))
      with (∅ : gmap string VisualPlayer) in Hk.
    by rewrite lookup_empty in Hk.
Qed.

Lemma wfGame_ext (g g' : Game) :
  heap g' = heap g → players g' = players g →
  visualPlayers g' = visualPlayers g → wfGame g → wfGame g'.
Proof. unfold wfGame. by intros -> -> ->. Qed.

Lemma wfGame_on_game_tick (sid : string) (gs : GameState) (g : Game) :
  wfGame g → wfGame (on_game_tick sid gs g).
Proof.
  intros [Hwf Hap]. unfold wfGame, on_game_tick.
  destruct (tickZoom_fields (tickSnapshot sid gs g))
    as (-> & _ & _ & _ & _ & -> & -> & _).
  destruct (tickSnapshot_fields sid gs g)
    as (_ & _ & _ & -> & _ & -> & ->).
  destruct (loadPlayers_spec (gs_players gs) (heap g))
    as (h' & ps & Hl & Ha & Hp & Hload).
  rewrite Hl. simpl. split.
  - by apply (wfWorld_snapshot (heap g) h' (players g)).
  - apply (visApart_snapshot (heap g)); [apply Hwf|done|done].
Qed.

Section Reachable.

Variable Math_cos Math_sin : Q -> Q.
Variable Math_atan2 : Q -> Q -> Q.

Lemma wfGame_handle (e : Event) (g g' : Game) :
  handle Math_cos Math_sin Math_atan2 e g = Some g' →
  wfGame g → wfGame g'.
Proof.
  intros Hh Hwf.
  destruct e; simpl in Hh; try (injection Hh as <-).
  - unfold on_connect. destruct (truthy socketId); exact Hwf.
  - exact Hwf.
  - exact Hwf.
  - exact Hwf.
  - unfold on_init_player. destruct (truthy id); exact Hwf.
  - exact Hwf.
  - by apply wfGame_on_game_tick.
  - unfold renderLoop in Hh.
    destruct (updateVisuals_world Math_cos Math_sin
                ((now - lastTime g) / 1000) (set_lastTime now g) Hwf)
      as (g1 & Hu & Hwf1 & _).
    congruence.
  - unfold onMouseMove. destruct (negb (truthy (myId g)) || isDead g);
      exact Hwf.
  - unfold startBoost. destruct (truthy (myId g) && negb (isDead g));
      exact Hwf.
  - unfold endBoost. destruct (truthy (myId g)); exact Hwf.
  - unfold startBoostMouse. destruct (truthy (myId g) && negb (isDead g));
      exact Hwf.
  - unfold endBoostMouse. destruct (truthy (myId g)); exact Hwf.
  - unfold onKeyDown, toggleSpectator, cheatBoost, startBoost.
    eapply wfGame_ext; [..|exact Hwf];
      repeat match goal with
             | |- context [if ?b then _ else _] => destruct b; simpl
             end; reflexivity.
  - unfold onWheel. destruct (negb (spectateMode g)); exact Hwf.
  - unfold onKeyUp, endBoost.
    eapply wfGame_ext; [..|exact Hwf];
      repeat match goal with
             | |- context [if ?b then _ else _] => destruct b; simpl
             end; reflexivity.
Qed.

(** Every state the component reaches from its start satisfies the world
    invariant, and no frame gets stuck there. *)
Lemma wfGame_run (es : list Event) : ∀ g g' : Game,
  run Math_cos Math_sin Math_atan2 es g = Some g' → wfGame g → wfGame g'.
Proof.
  induction es as [|e es IH]; intros g g' Hr Hwf; simpl in Hr.
  - by injection Hr as <-.
  - destruct (handle Math_cos Math_sin Math_atan2 e g) as [g1|] eqn:E;
      [|discriminate].
    simpl in Hr. apply (IH g1 g' Hr). by apply (wfGame_handle e g g1).
Qed.

(** C9: in a state that satisfies the world invariant (every reachable
    state does), [updateVisuals] returns for every [dt], keeps the map of
    authoritative players, and leaves every authoritative body as it was:
    the same array with the same points, read by value or by location; the
    angle and the length are fields of the kept records. *)
Theorem updateVisuals_keeps_authoritative (dt : Q) (g : Game) :
  wfGame g →
  ∃ g', updateVisuals Math_cos Math_sin dt g = Some g'
    ∧ players g' = players g
    ∧ (∀ pid p pa, (pid, p) ∈ players g → p_body p = Some pa →
         is_Some (bodyPoints (heap g) pa)
         ∧ bodyPoints (heap g') pa = bodyPoints (heap g) pa
         ∧ arrays (heap g') !! pa = arrays (heap g) !! pa
         ∧ ∀ pal l, arrays (heap g) !! pa = Some pal → l ∈ pal →
                    points (heap g') !! l = points (heap g) !! l)
    ∧ (∀ pid p, lookupPlayer (players g') pid = Some p →
                lookupPlayer (players g) pid = Some p)
    ∧ wfGame g'.
Proof.
  intros Hwf.
  destruct (updateVisuals_world Math_cos Math_sin dt g Hwf)
    as (g' & Hu & Hwf' & Hps & Hsame & _).
  exists g'. split; [exact Hu|]. split; [exact Hps|].
  split; [|split; [by rewrite Hps|exact Hwf']].
  intros pid p pa Hin Hb. pose proof Hwf as ((Hok & _) & _).
  destruct (authSame_bodyPoints (heap g) (heap g') (players g) pid p pa
              Hsame Hok Hin Hb) as [Heq Hsome].
  destruct (Hok pid p pa Hin Hb) as (pal & Hpa & _).
  destruct (Hsame pid p pa pal Hin Hb Hpa) as [Hpa' Hpts].
  split; [exact Hsome|]. split; [exact Heq|]. split; [congruence|].
  intros pal' l Hpal' Hl. assert (pal' = pal) by congruence. subst pal'.
  by apply Hpts.
Qed.

End Reachable.

(** ** The claims on a whole frame

    The statements below follow one player through a call of
    [updateVisuals]. They are about a state [g] of the component: [wfGame g]
    holds in every state reached from the initial one ([wfGame_run]), and
    the map of players holds each key once. *)

Lemma heapGrows_fresh_array (h h0 : Heap) (a : loc) :
  heapGrows h h0 → arrays h0 !! a = None → arrays h !! a = None.
Proof.
  intros [Ha _] Hn. destruct (arrays h !! a) eqn:E; [|done].
  destruct (Ha a) as [x Hx]; [by eexists|congruence].
Qed.

Lemma heapGrows_fresh_points (h h0 : Heap) (ls : list loc) :
  heapGrows h h0 → Forall (fun l => points h0 !! l = None) ls →
  Forall (fun l => points h !! l = None) ls.
Proof.
  intros [_ Hp] HF. eapply Forall_impl; [exact HF|]. intros l Hn.
  cbv beta in Hn. destruct (points h !! l) eqn:E; [|done].
  destruct (Hp l) as [x Hx]; [by eexists|congruence].
Qed.

Section Claims.

Variable Math_cos Math_sin : Q -> Q.

(** The turn, in a frame, of a player that has a visual player. *)
Lemma updateVisuals_turn (dt : Q) (g : Game) (pid : string) (p : Player)
  (pa : loc) (pal : list loc) (th : loc) (tgt : Point) (vis : VisualPlayer) :
  wfGame g → NoDup (fst <$> players g) → (pid, p) ∈ players g →
  p_body p = Some pa → arrays (heap g) !! pa = Some pal →
  head pal = Some th → points (heap g) !! th = Some tgt →
  visualPlayers g !! pid = Some vis →
  ∃ h0 vps0 h1 vps1 g' vbl,
    updateVisuals Math_cos Math_sin dt g = Some g'
    ∧ stepPlayer (10.0 * dt) pid p (h0, vps0) = Some (h1, vps1)
    ∧ vps0 !! pid = Some vis
    ∧ paired h0 pa vis pal vbl
    ∧ points h0 !! th = Some tgt
    ∧ authSame (heap g) h0 (players g) ∧ heapGrows (heap g) h0
    ∧ visSame (heap g) h0 vis
    ∧ authSame (heap g) (heap g') (players g)
    ∧ visualPlayers g' !! pid = vps1 !! pid
    ∧ (∀ v, vps1 !! pid = Some v → visSame h1 (heap g') v).
Proof.
  intros Hwf Hnd Hin Hb Hpa Hth Htgt Hv.
  destruct (updateVisuals_focus Math_cos Math_sin dt g pid p Hwf Hnd Hin)
    as (h0 & vps0 & h1 & vps1 & g' & Hu & Hstep & Hwf0 & Hsame0 & Hgr0 & Hv0
        & Hvs0 & Hsame & Hend & Hvend).
  rewrite Hv in Hv0.
  destruct (Hsame0 pid p pa pal Hin Hb Hpa) as [Hpa0 Hpts0].
  assert (Hne : pal ≠ []) by (by destruct pal).
  assert (Hthin : th ∈ pal).
  { destruct pal as [|x rest]; [done|]. injection Hth as ->. left. }
  destruct (wfWorld_paired h0 (players g) vps0 pid p vis pa pal
              Hwf0 Hin Hv0 Hb Hpa0 Hne) as [vbl Hp].
  exists h0, vps0, h1, vps1, g', vbl.
  split; [exact Hu|]. split; [exact Hstep|]. split; [exact Hv0|].
  split; [exact Hp|]. split; [by rewrite Hpts0|].
  split; [exact Hsame0|]. split; [exact Hgr0|]. split; [by apply Hvs0|].
  by split.
Qed.

(** C2: in a frame where the authoritative head of a player is more than
    500 away from its visual head (the squared distance exceeds 500
    squared), [updateVisuals], for any [dt], sets the visual head to the
    authoritative head and the visual angle to the authoritative angle, and
    installs as visual body a new array of new points equal, point by
    point, to the authoritative body, which it leaves as it was; the head
    distance is 0 afterwards. *)
Theorem teleport_snaps (dt : Q) (g : Game) (pid : string) (p : Player)
  (pa : loc) (pal : list loc) (th : loc) (tgt : Point) (vis : VisualPlayer) :
  wfGame g → NoDup (fst <$> players g) → (pid, p) ∈ players g →
  p_body p = Some pa → arrays (heap g) !! pa = Some pal →
  head pal = Some th → points (heap g) !! th = Some tgt →
  visualPlayers g !! pid = Some vis →
  500 * 500 < dist2 (pt_x tgt) (pt_y tgt) (vis_x vis) (vis_y vis) →
  ∃ g' vis' pts ls',
    updateVisuals Math_cos Math_sin dt g = Some g'
    ∧ visualPlayers g' !! pid = Some vis'
    ∧ vis_x vis' = pt_x tgt ∧ vis_y vis' = pt_y tgt
    ∧ vis_angle vis' = p_angle p
    ∧ dist2 (pt_x tgt) (pt_y tgt) (vis_x vis') (vis_y vis') == 0
    ∧ bodyPoints (heap g) pa = Some pts
    ∧ bodyPoints (heap g') pa = Some pts
    ∧ bodyPoints (heap g') (vis_body vis') = Some pts
    ∧ arrays (heap g) !! vis_body vis' = None
    ∧ arrays (heap g') !! vis_body vis' = Some ls'
    ∧ Forall (fun l => points (heap g) !! l = None) ls'.
Proof.
  intros Hwf Hnd Hin Hb Hpa Hth Htgt Hv Hfar.
  destruct (updateVisuals_turn dt g pid p pa pal th tgt vis
              Hwf Hnd Hin Hb Hpa Hth Htgt Hv)
    as (h0 & vps0 & h1 & vps1 & g' & vbl & Hu & Hstep & Hv0 & Hp & Htgt0
        & Hsame0 & Hgr0 & Hvs0 & Hsame & Hend & Hvend).
  destruct (teleport_snaps_step (10.0 * dt) pid p pa vis h0 vps0 pal vbl th
              tgt Hb Hv0 Hp Hth Htgt0 Hfar)
    as (h1' & vis' & pts & ls' & Hstep' & Hx & Hy & Han & Hd & Hpts0 & Hpts1
        & Hvpts & Hfa & Hls & Hfr).
  rewrite Hstep in Hstep'. injection Hstep' as <- ->.
  rewrite lookup_insert_eq in Hend.
  specialize (Hvend vis' (lookup_insert_eq _ _ _)).
  pose proof Hwf as ((Hok & _) & _).
  destruct (authSame_bodyPoints (heap g) h0 (players g) pid p pa
              Hsame0 Hok Hin Hb) as [E0 _].
  destruct (authSame_bodyPoints (heap g) (heap g') (players g) pid p pa
              Hsame Hok Hin Hb) as [E1 _].
  exists g', vis', pts, ls'. split; [exact Hu|]. split; [exact Hend|].
  split; [exact Hx|]. split; [exact Hy|]. split; [exact Han|].
  split; [exact Hd|]. split; [by rewrite <- E0|].
  split; [by rewrite E1, <- E0|].
  split; [by rewrite (visSame_bodyPoints h1 (heap g') vis' Hvend)|].
  split; [by eapply heapGrows_fresh_array|].
  split; [destruct Hvend as [-> _]; exact Hls|].
  by eapply heapGrows_fresh_points.
Qed.

(** C1 (as amended): in a frame where the authoritative head of a player
    is at most 500 away from its visual head, [updateVisuals] with elapsed
    time [dt] moves each head coordinate by the fraction [10.0 * dt] of its
    gap, not clamped, so each gap is multiplied by [1 - 10.0 * dt]: the
    distance strictly decreases when [0 < dt < 0.2] and the heads differ,
    and the step does not overshoot when [0 <= dt <= 0.1]. *)
Theorem head_interpolation (dt : Q) (g : Game) (pid : string) (p : Player)
  (pa : loc) (pal : list loc) (th : loc) (tgt : Point) (vis : VisualPlayer) :
  wfGame g → NoDup (fst <$> players g) → (pid, p) ∈ players g →
  p_body p = Some pa → arrays (heap g) !! pa = Some pal →
  head pal = Some th → points (heap g) !! th = Some tgt →
  visualPlayers g !! pid = Some vis →
  dist2 (pt_x tgt) (pt_y tgt) (vis_x vis) (vis_y vis) <= 500 * 500 →
  ∃ g' vis',
    updateVisuals Math_cos Math_sin dt g = Some g'
    ∧ visualPlayers g' !! pid = Some vis'
    ∧ points (heap g') !! th = Some tgt
    ∧ pt_x tgt - vis_x vis' == (1 - 10.0 * dt) * (pt_x tgt - vis_x vis)
    ∧ pt_y tgt - vis_y vis' == (1 - 10.0 * dt) * (pt_y tgt - vis_y vis)
    ∧ (0 < dt → dt < 0.2 →
       0 < dist2 (pt_x tgt) (pt_y tgt) (vis_x vis) (vis_y vis) →
       dist2 (pt_x tgt) (pt_y tgt) (vis_x vis') (vis_y vis')
       < dist2 (pt_x tgt) (pt_y tgt) (vis_x vis) (vis_y vis))
    ∧ (0 <= dt → dt <= 0.1 →
       between (vis_x vis) (vis_x vis') (pt_x tgt)
       ∧ between (vis_y vis) (vis_y vis') (pt_y tgt)).
Proof.
  intros Hwf Hnd Hin Hb Hpa Hth Htgt Hv Hnear.
  destruct (updateVisuals_turn dt g pid p pa pal th tgt vis
              Hwf Hnd Hin Hb Hpa Hth Htgt Hv)
    as (h0 & vps0 & h1 & vps1 & g' & vbl & Hu & Hstep & Hv0 & Hp & Htgt0
        & Hsame0 & Hgr0 & Hvs0 & Hsame & Hend & Hvend).
  destruct (head_interpolation_step dt pid p pa vis h0 vps0 pal vbl th tgt
              Hb Hv0 Hp Hth Htgt0 Hnear)
    as (h1' & vis' & Hstep' & Hx & Hy & Hdec & Hbet).
  rewrite Hstep in Hstep'. injection Hstep' as <- ->.
  rewrite lookup_insert_eq in Hend.
  exists g', vis'. split; [exact Hu|]. split; [exact Hend|]. split.
  { destruct (Hsame pid p pa pal Hin Hb Hpa) as [_ Hpts].
    rewrite Hpts; [done|]. destruct pal as [|x rest]; [done|].
    injection Hth as ->. left. }
  done.
Qed.

(** C4 (as amended): in a frame where a player is interpolated (its heads
    at most 500 apart), [updateVisuals] wraps the raw angle difference into
    [[-π, π]] (both ends included: a raw difference of exactly [-π] stays),
    a whole number of turns away from the raw one, and adds the fraction
    [10.0 * dt] of it to the visual angle; for [0 <= dt <= 0.2] the wrapped
    difference after the frame is not larger in magnitude than the one
    before. With the authoritative angle at -3.1 and the visual angle at 3.1
    the wrapped difference is positive and below 0.1: the visual angle
    moves up through π, the short way. *)
Theorem angle_interpolation (dt : Q) (g : Game) (pid : string) (p : Player)
  (pa : loc) (pal : list loc) (th : loc) (tgt : Point) (vis : VisualPlayer) :
  wfGame g → NoDup (fst <$> players g) → (pid, p) ∈ players g →
  p_body p = Some pa → arrays (heap g) !! pa = Some pal →
  head pal = Some th → points (heap g) !! th = Some tgt →
  visualPlayers g !! pid = Some vis →
  dist2 (pt_x tgt) (pt_y tgt) (vis_x vis) (vis_y vis) <= 500 * 500 →
  ∃ g' vis' w k,
    updateVisuals Math_cos Math_sin dt g = Some g'
    ∧ visualPlayers g' !! pid = Some vis'
    ∧ wrapDiff (p_angle p - vis_angle vis) = Some w
    ∧ w == (p_angle p - vis_angle vis) - inject_Z k * (Math_PI * 2)
    ∧ - Math_PI <= w ∧ w <= Math_PI
    ∧ vis_angle vis' = vis_angle vis + w * (10.0 * dt)
    ∧ (0 <= dt → dt <= 0.2 →
       ∃ w', wrapDiff (p_angle p - vis_angle vis') = Some w'
             ∧ Qabs w' <= Qabs w)
    ∧ (∃ w0, wrapDiff (-3.1 - 3.1) = Some w0 ∧ 0 < w0 ∧ w0 < 0.1).
Proof.
  intros Hwf Hnd Hin Hb Hpa Hth Htgt Hv Hnear.
  destruct (updateVisuals_turn dt g pid p pa pal th tgt vis
              Hwf Hnd Hin Hb Hpa Hth Htgt Hv)
    as (h0 & vps0 & h1 & vps1 & g' & vbl & Hu & Hstep & Hv0 & Hp & Htgt0
        & Hsame0 & Hgr0 & Hvs0 & Hsame & Hend & Hvend).
  destruct (angle_interpolation_step dt pid p pa vis h0 vps0 pal vbl th tgt
              Hb Hv0 Hp Hth Htgt0 Hnear)
    as (h1' & vis' & w & k & Hstep' & Hrest).
  rewrite Hstep in Hstep'. injection Hstep' as <- ->.
  rewrite lookup_insert_eq in Hend.
  exists g', vis', w, k. split; [exact Hu|]. split; [exact Hend|].
  exact Hrest.
Qed.

(** C3: for a player present in both maps with a non-empty authoritative
    body, [updateVisuals] reconciles the lengths at the player's turn (in
    the heap [h0] of that moment the visual and the authoritative body read
    as at the start of the frame): a shorter visual body is extended with
    copies of its tail point, a longer one loses points at the tail, until
    it is as long as the authoritative body, which is not touched; the
    index-wise interpolation is then defined, and at the end of the frame
    the visual body has the authoritative length. *)
Theorem body_length_reconciled (dt : Q) (g : Game) (pid : string)
  (p : Player) (pa : loc) (pal : list loc) (vis : VisualPlayer) :
  wfGame g → NoDup (fst <$> players g) → (pid, p) ∈ players g →
  p_body p = Some pa → arrays (heap g) !! pa = Some pal → pal ≠ [] →
  visualPlayers g !! pid = Some vis →
  ∃ h0 vpts tailpt hr g' vis' ls',
    bodyPoints (heap g) (vis_body vis) = Some vpts
    ∧ bodyPoints h0 (vis_body vis) = Some vpts
    ∧ arrays h0 !! pa = Some pal
    ∧ last vpts = Some tailpt
    ∧ reconcileBody h0 (vis_body vis) pa = Some hr
    ∧ bodyPoints hr (vis_body vis)
      = Some (take (length pal)
                (vpts ++ replicate (length pal - length vpts) tailpt))
    ∧ length (take (length pal)
                (vpts ++ replicate (length pal - length vpts) tailpt))
      = length pal
    ∧ arrays hr !! pa = Some pal
    ∧ is_Some (lerpBody (length pal) (10.0 * dt) (vis_body vis) pa 0 hr)
    ∧ updateVisuals Math_cos Math_sin dt g = Some g'
    ∧ visualPlayers g' !! pid = Some vis'
    ∧ arrays (heap g') !! vis_body vis' = Some ls'
    ∧ length ls' = length pal
    ∧ arrays (heap g') !! pa = Some pal.
Proof.
  intros Hwf Hnd Hin Hb Hpa Hne Hv.
  destruct pal as [|th rest] eqn:Epal; [done|]. rewrite <- Epal in *.
  assert (Hth : head pal = Some th) by (by rewrite Epal).
  pose proof Hwf as ((Hok & _) & _).
  destruct (Hok pid p pa Hin Hb) as (pal' & Hpa' & Hal).
  assert (pal' = pal) by congruence. subst pal'.
  assert (Htgt : is_Some (points (heap g) !! th)).
  { unfold allocated in Hal. rewrite Forall_forall in Hal. apply Hal.
    rewrite Epal. left. }
  destruct Htgt as [tgt Htgt].
  destruct (updateVisuals_turn dt g pid p pa pal th tgt vis
              Hwf Hnd Hin Hb Hpa Hth Htgt Hv)
    as (h0 & vps0 & h1 & vps1 & g' & vbl & Hu & Hstep & Hv0 & Hp & Htgt0
        & Hsame0 & Hgr0 & Hvs0 & Hsame & Hend & Hvend).
  destruct (body_length_reconciled_step (10.0 * dt) pid p pa vis h0 vps0 pal
              vbl Hb Hv0 Hp)
    as (vpts & tailpt & hr & Hvp & Hl & Hr & Hbr & Hlen & Hpar & Hlerp
        & h1' & vis' & ls' & Hstep' & Hls & Hlls & Hpa1).
  rewrite Hstep in Hstep'. injection Hstep' as <- ->.
  rewrite lookup_insert_eq in Hend.
  specialize (Hvend vis' (lookup_insert_eq _ _ _)).
  exists h0, vpts, tailpt, hr, g', vis', ls'.
  split; [by rewrite <- (visSame_bodyPoints (heap g) h0 vis Hvs0)|].
  split; [exact Hvp|]. split; [apply Hp|]. split; [exact Hl|].
  split; [exact Hr|]. split; [exact Hbr|]. split; [exact Hlen|].
  split; [exact Hpar|]. split; [exact Hlerp|]. split; [exact Hu|].
  split; [exact Hend|]. split; [destruct Hvend as [-> _]; exact Hls|].
  split; [exact Hlls|]. by destruct (Hsame pid p pa pal Hin Hb Hpa).
Qed.


End Claims.

(** ** The claims at concrete states *)

Lemma beforeFrame_reached :
  run noTrig noTrig noAtan2
      [EvGameTick "me" lerpTick0; EvFrame 16; EvGameTick "me" lerpTick1]
      (initGame 0) = Some beforeFrame.
Proof. vm_compute. reflexivity. Qed.

Lemma wfGame_beforeFrame : wfGame beforeFrame.
Proof.
  exact (wfGame_run noTrig noTrig noAtan2 _ _ _ beforeFrame_reached
           (wfGame_initGame 0)).
Qed.

Lemma beforeFrame_players :
  players beforeFrame = [("b"%string, mkPlayer (Some 3%positive) 1 20)].
Proof. vm_compute. reflexivity. Qed.

Lemma beforeTeleport_reached :
  run noTrig noTrig noAtan2
      [EvGameTick "me" lerpTick0; EvFrame 16; EvGameTick "me" farTick]
      (initGame 0) = Some beforeTeleport.
Proof. vm_compute. reflexivity. Qed.

Lemma wfGame_beforeTeleport : wfGame beforeTeleport.
Proof.
  exact (wfGame_run noTrig noTrig noAtan2 _ _ _ beforeTeleport_reached
           (wfGame_initGame 0)).
Qed.

Lemma beforeTeleport_players :
  players beforeTeleport = [("b"%string, mkPlayer (Some 3%positive) 2 20)].
Proof. vm_compute. reflexivity. Qed.



Lemma NoDup_one_key (k : string) (p : Player) : NoDup (fst <$> [(k, p)]).
Proof. simpl. apply NoDup_singleton. Qed.

Lemma teleport_snaps_witness :
  ∃ g' vis' pts,
    updateVisuals noTrig noTrig (1 # 60) beforeTeleport = Some g'
    ∧ visualPlayers g' !! "b"%string = Some vis'
    ∧ vis_x vis' = 1000 ∧ vis_y vis' = 0 ∧ vis_angle vis' = 2
    ∧ bodyPoints (heap g') 3%positive = Some pts
    ∧ bodyPoints (heap g') (vis_body vis') = Some pts
    ∧ arrays (heap beforeTeleport) !! vis_body vis' = None.
Proof.
  destruct (teleport_snaps noTrig noTrig (1 # 60) beforeTeleport "b"
              (mkPlayer (Some 3%positive) 2 20) 3%positive
              [3%positive; 4%positive] 3%positive (mkPoint 1000 0)
              (mkVisual 0.0000 0.0000 0.0000 2%positive))
    as (g' & vis' & pts & ls' & Hu & Hv & Hx & Hy & Ha & _ & _ & Hp & Hvp
        & Hfa & _).
  - exact wfGame_beforeTeleport.
  - rewrite beforeTeleport_players. apply NoDup_one_key.
  - rewrite beforeTeleport_players. left.
  - reflexivity.
  - vm_compute. reflexivity.
  - reflexivity.
  - vm_compute. reflexivity.
  - vm_compute. reflexivity.
  - vm_compute. reflexivity.
  - by exists g', vis', pts.
Defined.

Lemma head_interpolation_witness :
  ∃ g' vis',
    updateVisuals noTrig noTrig (1 # 20) beforeFrame = Some g'
    ∧ visualPlayers g' !! "b"%string = Some vis'
    ∧ vis_x vis' == 50 ∧ vis_y vis' == 0
    ∧ dist2 100 0 (vis_x vis') (vis_y vis') < dist2 100 0 0 0
    ∧ between 0 (vis_x vis') 100.
Proof.
  destruct (head_interpolation noTrig noTrig (1 # 20) beforeFrame "b"
              (mkPlayer (Some 3%positive) 1 20) 3%positive
              [3%positive; 4%positive; 5%positive] 3%positive (mkPoint 100 0)
              (mkVisual 0.0000 0.0000 0.0000 2%positive))
    as (g' & vis' & Hu & Hv & _ & Hx & Hy & Hdec & Hbet).
  - exact wfGame_beforeFrame.
  - rewrite beforeFrame_players. apply NoDup_one_key.
  - rewrite beforeFrame_players. left.
  - reflexivity.
  - vm_compute. reflexivity.
  - reflexivity.
  - vm_compute. reflexivity.
  - vm_compute. reflexivity.
  - vm_compute. discriminate.
  - exists g', vis'. split; [exact Hu|]. split; [exact Hv|].
    simpl in Hx, Hy. split; [lra|]. split; [lra|].
    assert (Hd : dist2 100 0 (vis_x vis') (vis_y vis')
                 < dist2 100 0 0.0000 0.0000) by (apply Hdec; reflexivity).
    assert (Hb : between 0.0000 (vis_x vis') 100)
      by (apply Hbet; discriminate).
    split.
    + unfold dist2 in *. lra.
    + unfold between in *. lra.
Defined.

Lemma angle_interpolation_witness :
  ∃ g' vis' w w',
    updateVisuals noTrig noTrig (1 # 20) beforeFrame = Some g'
    ∧ visualPlayers g' !! "b"%string = Some vis'
    ∧ wrapDiff (1 - 0.0000) = Some w
    ∧ wrapDiff (1 - vis_angle vis') = Some w'
    ∧ Qabs w' <= Qabs w.
Proof.
  destruct (angle_interpolation noTrig noTrig (1 # 20) beforeFrame "b"
              (mkPlayer (Some 3%positive) 1 20) 3%positive
              [3%positive; 4%positive; 5%positive] 3%positive (mkPoint 100 0)
              (mkVisual 0.0000 0.0000 0.0000 2%positive))
    as (g' & vis' & w & k & Hu & Hv & Hw & _ & _ & _ & _ & Hshrink & _).
  - exact wfGame_beforeFrame.
  - rewrite beforeFrame_players. apply NoDup_one_key.
  - rewrite beforeFrame_players. left.
  - reflexivity.
  - vm_compute. reflexivity.
  - reflexivity.
  - vm_compute. reflexivity.
  - vm_compute. reflexivity.
  - vm_compute. discriminate.
  - destruct Hshrink as (w' & Hw' & Hle); [discriminate|discriminate|].
    by exists g', vis', w, w'.
Defined.

Lemma body_length_reconciled_witness :
  ∃ g' vis' ls',
    updateVisuals noTrig noTrig (1 # 20) beforeFrame = Some g'
    ∧ visualPlayers g' !! "b"%string = Some vis'
    ∧ arrays (heap g') !! vis_body vis' = Some ls'
    ∧ length ls' = 3%nat
    ∧ arrays (heap g') !! 3%positive
      = Some [3%positive; 4%positive; 5%positive].
Proof.
  destruct (body_length_reconciled noTrig noTrig (1 # 20) beforeFrame "b"
              (mkPlayer (Some 3%positive) 1 20) 3%positive
              [3%positive; 4%positive; 5%positive]
              (mkVisual 0.0000 0.0000 0.0000 2%positive))
    as (h0 & vpts & tailpt & hr & g' & vis' & ls' & _ & _ & _ & _ & _ & _ & _
        & _ & _ & Hu & Hv & Hls & Hlen & Hpa).
  - exact wfGame_beforeFrame.
  - rewrite beforeFrame_players. apply NoDup_one_key.
  - rewrite beforeFrame_players. left.
  - reflexivity.
  - vm_compute. reflexivity.
  - discriminate.
  - vm_compute. reflexivity.
  - by exists g', vis', ls'.
Defined.

Lemma updateVisuals_keeps_authoritative_witness :
  ∃ g', updateVisuals noTrig noTrig (3 # 10) beforeFrame = Some g'
    ∧ players g' = players beforeFrame
    ∧ bodyPoints (heap g') 3%positive
      = Some [mkPoint 100 0; mkPoint 90 0; mkPoint 80 0].
Proof.
  destruct (updateVisuals_keeps_authoritative noTrig noTrig (3 # 10)
              beforeFrame wfGame_beforeFrame)
    as (g' & Hu & Hps & Hbodies & _).
  exists g'. split; [exact Hu|]. split; [exact Hps|].
  destruct (Hbodies "b"%string (mkPlayer (Some 3%positive) 1 20) 3%positive)
    as (_ & -> & _).
  - rewrite beforeFrame_players. left.
  - reflexivity.
  - vm_compute. reflexivity.
Defined.




(** C1, as first stated, fails: after a frame with [dt = 0.3] the visual
    head, 100 away from the authoritative head before, is 200 away on the
    other side of it; after a frame with [dt = 0] it has not moved. *)
Lemma head_interpolation_counterexample :
  (∃ v0, visualPlayers beforeFrame !! "b"%string = Some v0
         ∧ vis_x v0 == 0 ∧ vis_y v0 == 0)
  ∧ lookupPlayer (players beforeFrame) "b"
    = Some (mkPlayer (Some 3%positive) 1 20)
  ∧ bodyPoints (heap beforeFrame) 3%positive
    = Some [mkPoint 100 0; mkPoint 90 0; mkPoint 80 0]
  ∧ handle noTrig noTrig noAtan2 (EvFrame 316) beforeFrame = Some lateFrame
  ∧ (∃ v1, visualPlayers lateFrame !! "b"%string = Some v1
           ∧ vis_x v1 == 300 ∧ vis_y v1 == 0
           ∧ dist2 100 0 0 0 < dist2 100 0 (vis_x v1) (vis_y v1)
           ∧ ¬ between 0 (vis_x v1) 100)
  ∧ handle noTrig noTrig noAtan2 (EvFrame 16) beforeFrame
    = Some sameInstantFrame
  ∧ (∃ v2, visualPlayers sameInstantFrame !! "b"%string = Some v2
           ∧ vis_x v2 == 0 ∧ vis_y v2 == 0
           ∧ ¬ dist2 100 0 (vis_x v2) (vis_y v2) < dist2 100 0 0 0).
Proof.
  split.
  { eexists. split; [vm_compute; reflexivity|]. split; reflexivity. }
  split; [vm_compute; reflexivity|]. split; [vm_compute; reflexivity|].
  split; [vm_compute; reflexivity|]. split.
  { eexists. split; [vm_compute; reflexivity|].
    split; [reflexivity|]. split; [reflexivity|]. split; [reflexivity|].
    unfold between. simpl. intros [[H1 H2]|[H1 H2]].
    - apply H2. reflexivity.
    - apply H2. reflexivity. }
  split; [vm_compute; reflexivity|].
  eexists. split; [vm_compute; reflexivity|].
  split; [reflexivity|]. split; [reflexivity|].
  intros H. vm_compute in H. discriminate H.
Qed.

(** C4, as first stated, fails: after the frame with [dt = 0.3] the
    wrapped difference has gone from 1 to -2; and a raw difference of
    exactly [-π] is left at [-π], outside the half-open interval. *)
Lemma angle_interpolation_counterexample :
  (∃ v0, visualPlayers beforeFrame !! "b"%string = Some v0
         ∧ vis_angle v0 == 0
         ∧ wrapDiff (1 - vis_angle v0) = Some (1 - vis_angle v0))
  ∧ handle noTrig noTrig noAtan2 (EvFrame 316) beforeFrame = Some lateFrame
  ∧ (∃ v1 w', visualPlayers lateFrame !! "b"%string = Some v1
              ∧ vis_angle v1 == 3
              ∧ wrapDiff (1 - vis_angle v1) = Some w'
              ∧ Qabs 1 < Qabs w')
  ∧ (∃ w, wrapDiff (- Math_PI - 0) = Some w ∧ w == - Math_PI
          ∧ ¬ - Math_PI < w).
Proof.
  split.
  { eexists. split; [vm_compute; reflexivity|].
    split; [reflexivity|vm_compute; reflexivity]. }
  split; [vm_compute; reflexivity|]. split.
  { eexists. eexists. split; [vm_compute; reflexivity|].
    split; [reflexivity|]. split; [vm_compute; reflexivity|]. reflexivity. }
  eexists. split; [vm_compute; reflexivity|]. split; [reflexivity|].
  intros H. vm_compute in H. discriminate H.
Qed.

(** * Further properties of the component *)

(** ** The spectator camera *)

Lemma pan_step_Y (g gi : Game) (cx cy d : Q) (c : bool) :
  gi = set_camX cx (set_camY cy g) →
  (if c then set_camY (camY gi + d) gi else gi)
  = set_camX cx (set_camY (if c then cy + d else cy) g).
Proof. intros ->. by destruct c. Qed.

Lemma pan_step_X (g gi : Game) (cx cy d : Q) (c : bool) :
  gi = set_camX cx (set_camY cy g) →
  (if c then set_camX (camX gi + d) gi else gi)
  = set_camX (if c then cx + d else cx) (set_camY cy g).
Proof. intros ->. by destruct c. Qed.

Lemma pan_keyDown (g gi : Game) (cx cy : Q) (k : string) :
  gi = set_camX cx (set_camY cy g) → keyDown gi k = keyDown g k.
Proof. by intros ->. Qed.

(** [updateSpectatorMovement] writes the camera only; the five tests add
    up, the key [arrowdown] being tested twice. *)
Lemma updateSpectatorMovement_spec (dt : Q) (g : Game) :
  let speed := 1500 * dt / currentScale g in
  let up := keyDown g "w" || keyDown g "arrowup" in
  let down := keyDown g "arrowdown" in
  let sdown := keyDown g "s" || keyDown g "arrowdown" in
  let left := keyDown g "a" || keyDown g "arrowleft" in
  let right := keyDown g "d" || keyDown g "arrowright" in
  ∃ cx cy,
    updateSpectatorMovement dt g = set_camX cx (set_camY cy g)
    ∧ cx == camX g - (if left then speed else 0)
               + (if right then speed else 0)
    ∧ cy == camY g - (if up then speed else 0) + (if down then speed else 0)
               + (if sdown then speed else 0).
Proof.
  intros speed up down sdown left right.
  assert (E0 : g = set_camX (camX g) (set_camY (camY g) g)) by by destruct g.
  unfold updateSpectatorMovement. fold speed.
  set (g1 := if keyDown g "w" || keyDown g "arrowup"
             then set_camY (camY g - speed) g else g).
  assert (E1 : g1 = set_camX (camX g)
                      (set_camY (if up then camY g + - speed else camY g) g)).
  { unfold g1. fold up. rewrite E0 at 3. destruct up; [|done]. by destruct g. }
  rewrite (pan_keyDown g g1 _ _ "arrowdown" E1).
  set (g2 := if keyDown g "arrowdown"
             then set_camY (camY g1 + speed) g1 else g1).
  pose proof (pan_step_Y g g1 _ _ speed down E1) as E2. fold g2 in E2.
  rewrite (pan_keyDown g g2 _ _ "s" E2), (pan_keyDown g g2 _ _ "arrowdown" E2).
  set (g3 := if keyDown g "s" || keyDown g "arrowdown"
             then set_camY (camY g2 + speed) g2 else g2).
  pose proof (pan_step_Y g g2 _ _ speed sdown E2) as E3. fold g3 in E3.
  rewrite (pan_keyDown g g3 _ _ "a" E3), (pan_keyDown g g3 _ _ "arrowleft" E3).
  set (g4 := if keyDown g "a" || keyDown g "arrowleft"
             then set_camX (camX g3 - speed) g3 else g3).
  pose proof (pan_step_X g g3 _ _ (- speed) left E3) as E4.
  change (if left then set_camX (camX g3 + - speed) g3 else g3) with g4 in E4.
  rewrite (pan_keyDown g g4 _ _ "d" E4), (pan_keyDown g g4 _ _ "arrowright" E4).
  pose proof (pan_step_X g g4 _ _ speed right E4) as E5.
  eexists _, _. split; [exact E5|].
  split.
  - destruct left, right; ring.
  - destruct up, down, sdown; ring.
Qed.

(** ** The local id *)

Section Identity.

Variable Math_cos Math_sin : Q -> Q.
Variable Math_atan2 : Q -> Q -> Q.

Lemma updateSpectatorMovement_myId (dt : Q) (g : Game) :
  myId (updateSpectatorMovement dt g) = myId g
  ∧ emitted (updateSpectatorMovement dt g) = emitted g
  ∧ keysPressed (updateSpectatorMovement dt g) = keysPressed g
  ∧ currentScale (updateSpectatorMovement dt g) = currentScale g.
Proof. by destruct (updateSpectatorMovement_spec dt g) as (cx & cy & -> & _). Qed.

Lemma updateCamera_myId (dt : Q) (g : Game) :
  myId (updateCamera Math_cos Math_sin dt g) = myId g
  ∧ emitted (updateCamera Math_cos Math_sin dt g) = emitted g
  ∧ targetScale (updateCamera Math_cos Math_sin dt g) = targetScale g
  ∧ keysPressed (updateCamera Math_cos Math_sin dt g) = keysPressed g.
Proof.
  unfold updateCamera.
  destruct (spectateMode g) eqn:Es.
  - cbv zeta. set (U := updateSpectatorMovement dt g).
    change (myId U = myId g ∧ emitted U = emitted g
            ∧ targetScale U = targetScale g ∧ keysPressed U = keysPressed g).
    unfold U.
    destruct (updateSpectatorMovement_myId dt g) as (-> & -> & -> & _).
    by destruct (updateSpectatorMovement_flags dt g) as (_ & _ & ->).
  - destruct (isDead g) eqn:Ed; simpl; [done|].
    destruct (visualPlayers g !! myId g) as [me|]; simpl; [|done].
    destruct (hypot_gt _ _ _); done.
Qed.

Lemma updateVisuals_myId (dt : Q) (g g' : Game) :
  updateVisuals Math_cos Math_sin dt g = Some g' →
  myId g' = myId g ∧ emitted g' = emitted g
  ∧ targetScale g' = targetScale g ∧ keysPressed g' = keysPressed g.
Proof.
  unfold updateVisuals. intros H.
  destruct (interpolate _ _ _ _ _) as [[h vps]|]; [|discriminate].
  simpl in H. injection H as <-.
  destruct (updateCamera_myId dt (set_visualPlayers vps (set_heap h g)))
    as (-> & -> & -> & ->).
  done.
Qed.

Lemma tickSnapshot_myId (sid : string) (gs : GameState) (g : Game) :
  myId (tickSnapshot sid gs g)
  = (if negb (truthy (myId g)) && truthy sid then sid else myId g)
  ∧ emitted (tickSnapshot sid gs g) = emitted g
  ∧ targetScale (tickSnapshot sid gs g) = targetScale g
  ∧ myScore (tickSnapshot sid gs g) = myScore g
  ∧ playerCount (tickSnapshot sid gs g) = length (gs_players gs)
  ∧ leaderboard (tickSnapshot sid gs g) = default [] (gs_leaderboard gs)
  ∧ keysPressed (tickSnapshot sid gs g) = keysPressed g.
Proof.
  unfold tickSnapshot.
  destruct (loadPlayers (heap g) (gs_players gs)) as [h ps] eqn:E. simpl.
  assert (Hlen : length ps = length (gs_players gs)).
  { clear -E. revert h ps E. generalize (heap g).
    induction (gs_players gs) as [|[pid d] ds IH]; intros h0 h ps E.
    - simpl in E. by injection E as <- <-.
    - simpl in E. destruct (loadPlayer h0 d) as [h1 p].
      destruct (loadPlayers h1 ds) as [h2 ps2] eqn:E2.
      injection E as <- <-. simpl. f_equal. by eapply IH. }
  destruct (negb (truthy (myId g)) && truthy sid); simpl; by rewrite Hlen.
Qed.

Lemma tickZoom_myId (g : Game) :
  emitted (tickZoom g) = emitted g
  ∧ playerCount (tickZoom g) = playerCount g
  ∧ leaderboard (tickZoom g) = leaderboard g
  ∧ keysPressed (tickZoom g) = keysPressed g.
Proof.
  unfold tickZoom. destruct (lookupPlayer _ _); [|done].
  destruct (negb (isDead g)); done.
Qed.

Lemma on_game_tick_myId (sid : string) (gs : GameState) (g : Game) :
  myId (on_game_tick sid gs g)
  = (if negb (truthy (myId g)) && truthy sid then sid else myId g)
  ∧ emitted (on_game_tick sid gs g) = emitted g
  ∧ keysPressed (on_game_tick sid gs g) = keysPressed g.
Proof.
  unfold on_game_tick.
  destruct (tickZoom_fields (tickSnapshot sid gs g)) as (_ & -> & _).
  destruct (tickZoom_myId (tickSnapshot sid gs g)) as (-> & _ & _ & ->).
  by destruct (tickSnapshot_myId sid gs g) as (-> & -> & _ & _ & _ & _ & ->).
Qed.

Lemma toggleSpectator_myId (g : Game) :
  myId (toggleSpectator g) = myId g
  ∧ keysPressed (toggleSpectator g) = keysPressed g.
Proof. unfold toggleSpectator. by destruct (negb (spectateMode g)). Qed.

Lemma boost_myId (g : Game) :
  myId (startBoost g) = myId g ∧ myId (endBoost g) = myId g
  ∧ myId (cheatBoost g) = myId g
  ∧ keysPressed (startBoost g) = keysPressed g
  ∧ keysPressed (endBoost g) = keysPressed g
  ∧ keysPressed (cheatBoost g) = keysPressed g.
Proof.
  unfold startBoost, endBoost, cheatBoost.
  destruct (truthy (myId g)), (isDead g); done.
Qed.

Lemma onKeyDown_myId (key code : string) (g : Game) :
  myId (onKeyDown key code g) = myId g
  ∧ keysPressed (onKeyDown key code g)
    = <[toLowerCase key := true]> (keysPressed g).
Proof.
  unfold onKeyDown.
  set (g0 := set_keysPressed _ g).
  set (g1 := if String.eqb (toLowerCase key) "s" then toggleSpectator g0
             else g0).
  assert (H1 : myId g1 = myId g ∧ keysPressed g1 = keysPressed g0).
  { unfold g1. destruct (String.eqb (toLowerCase key) "s"); [|done].
    by destruct (toggleSpectator_myId g0) as [-> ->]. }
  set (g2 := if String.eqb (toLowerCase key) "c" then cheatBoost g1 else g1).
  assert (H2 : myId g2 = myId g1 ∧ keysPressed g2 = keysPressed g1).
  { unfold g2. destruct (String.eqb (toLowerCase key) "c"); [|done].
    destruct (boost_myId g1) as (_ & _ & -> & _ & _ & ->). done. }
  destruct H1 as [<- E1], H2 as [<- E2].
  destruct (String.eqb code "Space").
  - destruct (boost_myId g2) as (-> & _ & _ & -> & _). by rewrite E2, E1.
  - by rewrite E2, E1.
Qed.

Lemma onKeyUp_myId (key code : string) (g : Game) :
  myId (onKeyUp key code g) = myId g
  ∧ keysPressed (onKeyUp key code g)
    = <[toLowerCase key := false]> (keysPressed g).
Proof.
  unfold onKeyUp. destruct (String.eqb code "Space"); [|done].
  set (g0 := set_keysPressed _ g).
  by destruct (boost_myId g0) as (_ & -> & _ & _ & -> & _).
Qed.

(** What a step of the component does to the local id: it leaves it, or
    stores a non-empty id that the server sent. *)
Lemma handle_myId (e : Event) (g g' : Game) :
  handle Math_cos Math_sin Math_atan2 e g = Some g' →
  myId g' = myId g
  ∨ ∃ sid, truthy sid = true ∧ myId g' = sid
           ∧ (e = EvConnect sid ∨ e = EvInitPlayer sid
              ∨ ∃ gs, e = EvGameTick sid gs ∧ truthy (myId g) = false).
Proof.
  intros Hh.
  destruct e; simpl in Hh; try (injection Hh as <-); try (by left).
  - unfold on_connect. destruct (truthy socketId) eqn:E; [|by left].
    right. exists socketId. auto.
  - unfold on_init_player. destruct (truthy id) eqn:E; [|by left].
    right. exists id. auto.
  - destruct (on_game_tick_myId socketId gs g) as (-> & _).
    destruct (truthy (myId g)) eqn:E1; simpl; [by left|].
    destruct (truthy socketId) eqn:E2; [|by left].
    right. exists socketId. repeat split; try done.
    right. right. by exists gs.
  - left. unfold renderLoop in Hh.
    by apply updateVisuals_myId in Hh as (-> & _).
  - left. unfold onMouseMove.
    by destruct (negb (truthy (myId g)) || isDead g).
  - left. apply boost_myId.
  - left. apply boost_myId.
  - left. apply (boost_myId g).
  - left. apply (boost_myId g).
  - left. apply onKeyDown_myId.
  - left. unfold onWheel. by destruct (negb (spectateMode g)).
  - left. apply onKeyUp_myId.
Qed.

End Identity.

Section Handlers.

Variable Math_cos Math_sin : Q -> Q.
Variable Math_atan2 : Q -> Q -> Q.

(** X1: once the client knows its id it does not forget it: after any sequence
    of events the id is still non-empty, and it is the same id when the
    sequence holds no [connect] and no [init_player]. *)
Theorem known_id_is_kept (es : list Event) : ∀ g g' : Game,
  run Math_cos Math_sin Math_atan2 es g = Some g' →
  truthy (myId g) = true →
  truthy (myId g') = true
  ∧ ((∀ sid, EvConnect sid ∉ es) → (∀ id, EvInitPlayer id ∉ es) →
     myId g' = myId g).
Proof.
  induction es as [|e es IH]; intros g g' Hrun Hid.
  - simpl in Hrun. injection Hrun as <-. done.
  - simpl in Hrun.
    destruct (handle Math_cos Math_sin Math_atan2 e g) as [g1|] eqn:Hh;
      [|discriminate].
    simpl in Hrun.
    pose proof (handle_myId Math_cos Math_sin Math_atan2 e g g1 Hh) as H1.
    assert (Hid1 : truthy (myId g1) = true).
    { destruct H1 as [->|(sid & Hs & -> & _)]; done. }
    destruct (IH g1 g' Hrun Hid1) as [Hk Hsame]. split; [done|].
    intros Hc Hp. rewrite Hsame.
    + destruct H1 as [->|(sid & Hs & _ & [->|[->|(gs & -> & Hf)]])];
        [done| | |congruence].
      * exfalso. apply (Hc sid). by left.
      * exfalso. apply (Hp sid). by left.
    + intros sid Hin. apply (Hc sid). by right.
    + intros id Hin. apply (Hp id). by right.
Qed.

(** The messages of a step of the component: they are appended to the
    messages sent so far. *)
Lemma handle_emitted (e : Event) (g g' : Game) :
  handle Math_cos Math_sin Math_atan2 e g = Some g' →
  let known := truthy (myId g) in
  ∃ new, emitted g' = emitted g ++ new
    ∧ new = match e with
            | EvMouseMove cx cy iw ih =>
                (if negb known || isDead g then []
                 else [input_update (Math_atan2 (cy - ih / 2) (cx - iw / 2))])
            | EvKeyDownSpace | EvMouseDown =>
                if known && negb (isDead g) then [boost_update true] else []
            | EvKeyUpSpace | EvMouseUp =>
                if known then [boost_update false] else []
            | EvKeyDown key code =>
                let s := String.eqb (toLowerCase key) "s" in
                let dead := if s then negb (spectateMode g) else isDead g in
                (if s then
                   [if spectateMode g then request_respawn
                    else enter_spectator]
                 else [])
                ++ (if String.eqb (toLowerCase key) "c" && known && negb dead
                    then [cheat_boost 1000] else [])
                ++ (if String.eqb code "Space" && known && negb dead
                    then [boost_update true] else [])
            | EvKeyUp key code =>
                if String.eqb code "Space" && known
                then [boost_update false] else []
            | _ => []
            end.
Proof.
  intros Hh known. unfold known. clear known.
  destruct e; simpl in Hh; try (injection Hh as <-).
  - exists []. rewrite app_nil_r. split; [|done].
    unfold on_connect. by destruct (truthy socketId).
  - exists []. by rewrite app_nil_r.
  - exists []. by rewrite app_nil_r.
  - exists []. by rewrite app_nil_r.
  - exists []. rewrite app_nil_r. split; [|done].
    unfold on_init_player. by destruct (truthy id).
  - exists []. by rewrite app_nil_r.
  - exists []. rewrite app_nil_r. split; [|done].
    by destruct (on_game_tick_myId socketId gs g) as (_ & -> & _).
  - exists []. rewrite app_nil_r. split; [|done].
    unfold renderLoop in Hh.
    by apply updateVisuals_myId in Hh as (_ & -> & _).
  - eexists. split; [|reflexivity]. unfold onMouseMove.
    destruct (negb (truthy (myId g)) || isDead g); simpl;
      by rewrite ?app_nil_r.
  - eexists. split; [|reflexivity]. unfold startBoost.
    destruct (truthy (myId g) && negb (isDead g)); simpl;
      by rewrite ?app_nil_r.
  - eexists. split; [|reflexivity]. unfold endBoost.
    destruct (truthy (myId g)); simpl; by rewrite ?app_nil_r.
  - eexists. split; [|reflexivity]. unfold startBoostMouse.
    destruct (truthy (myId g) && negb (isDead g)); simpl;
      by rewrite ?app_nil_r.
  - eexists. split; [|reflexivity]. unfold endBoostMouse.
    destruct (truthy (myId g)); simpl; by rewrite ?app_nil_r.
  - eexists. split; [|reflexivity]. unfold onKeyDown.
    set (g0 := set_keysPressed _ g).
    destruct (String.eqb (toLowerCase key) "s") eqn:Es.
    + assert (Ec : String.eqb (toLowerCase key) "c" = false).
      { apply String.eqb_eq in Es. by rewrite Es. }
      rewrite Ec. simpl.
      unfold toggleSpectator, startBoost.
      change (spectateMode g0) with (spectateMode g).
      destruct (spectateMode g), (String.eqb code "Space"),
        (truthy (myId g)) eqn:Ei; simpl; rewrite ?Ei; simpl;
        by rewrite <- ?app_assoc, ?app_nil_r.
    + unfold cheatBoost, startBoost.
      change (myId g0) with (myId g). change (isDead g0) with (isDead g).
      change (emitted g0) with (emitted g).
      destruct (String.eqb (toLowerCase key) "c"), (String.eqb code "Space"),
        (truthy (myId g)) eqn:Ei, (isDead g) eqn:Ed; simpl;
        rewrite ?Ei, ?Ed; simpl; rewrite ?Ei, ?Ed; simpl;
        by rewrite <- ?app_assoc, ?app_nil_r.
  - exists []. rewrite app_nil_r. split; [|done].
    unfold onWheel. by destruct (negb (spectateMode g)).
  - eexists. split; [|reflexivity]. unfold onKeyUp, endBoost.
    set (g0 := set_keysPressed _ g).
    change (myId g0) with (myId g).
    destruct (String.eqb code "Space"), (truthy (myId g)); simpl;
      by rewrite ?app_nil_r.
Qed.

(** X2: before the client knows its id it sends no input: the only messages of
    a step are those of the spectator toggle, which the S key sends whatever
    the id. *)
Theorem no_input_without_id (e : Event) (g g' : Game) :
  handle Math_cos Math_sin Math_atan2 e g = Some g' →
  truthy (myId g) = false →
  ∃ new, emitted g' = emitted g ++ new
    ∧ Forall (fun m => m = enter_spectator ∨ m = request_respawn) new
    ∧ (new ≠ [] → ∃ key code, e = EvKeyDown key code
                              ∧ toLowerCase key = "s"%string).
Proof.
  intros Hh Hid.
  destruct (handle_emitted e g g' Hh) as (new & Hem & Hnew).
  exists new. split; [done|]. rewrite Hid in Hnew.
  destruct e; simpl in Hnew; subst new;
    try (split; [by constructor|done]).
  rewrite !andb_false_r. simpl. rewrite !app_nil_r.
  destruct (String.eqb (toLowerCase key) "s") eqn:Es.
  - split.
    + constructor; [|constructor]. destruct (spectateMode g); auto.
    + intros _. exists key, code. split; [done|]. by apply String.eqb_eq.
  - split; [by constructor|done].
  - rewrite andb_false_r. split; [by constructor|done].
Qed.

(** X3: a dead local player does not steer, boost or cheat: apart from the S
    key, which toggles spectator mode, a step taken while dead sends at most
    the end of a boost. *)
Theorem dead_player_sends_no_input (e : Event) (g g' : Game) :
  handle Math_cos Math_sin Math_atan2 e g = Some g' →
  isDead g = true →
  (∀ key code, e = EvKeyDown key code → toLowerCase key ≠ "s"%string) →
  ∃ new, emitted g' = emitted g ++ new
    ∧ Forall (fun m => m = boost_update false) new.
Proof.
  intros Hh Hd Hkey.
  destruct (handle_emitted e g g' Hh) as (new & Hem & Hnew).
  exists new. split; [done|]. rewrite Hd in Hnew.
  destruct e; simpl in Hnew; subst new; try (by constructor).
  - rewrite orb_true_r. constructor.
  - rewrite andb_false_r. constructor.
  - destruct (truthy (myId g)); by repeat constructor.
  - rewrite andb_false_r. constructor.
  - destruct (truthy (myId g)); by repeat constructor.
  - destruct (String.eqb (toLowerCase key) "s") eqn:Es.
    + exfalso. apply (Hkey key code eq_refl). by apply String.eqb_eq.
    + rewrite !andb_false_r. simpl. constructor.
  - destruct (String.eqb code "Space" && truthy (myId g));
      by repeat constructor.
Qed.

End Handlers.

(** ** Keys, wheel and scale *)

Section Controls.

Variable Math_cos Math_sin : Q -> Q.
Variable Math_atan2 : Q -> Q -> Q.


(** [Math.min(Math.max(0.05, u), 5.0)] *)
Lemma clamp_zoom (u : Q) :
  let c := Qmin (Qmax 0.05 u) 5.0 in
  0.05 <= c ∧ c <= 5
  ∧ (0.05 <= u ∧ u <= 5 → c == u)
  ∧ (u <= 0.05 → c == 0.05)
  ∧ (5 <= u → c == 5).
Proof.
  intros c. unfold c.
  destruct (Q.min_spec (Qmax 0.05 u) 5.0) as [[H1 E1]|[H1 E1]];
    destruct (Q.max_spec 0.05 u) as [[H2 E2]|[H2 E2]];
    set (m := Qmin (Qmax 0.05 u) 5.0) in *;
    set (mx := Qmax 0.05 u) in *;
    repeat split; intros; lra.
Qed.

(** X5: the wheel zooms in spectator mode only, by 0.002 per unit of [deltaY]
    (scrolling down zooms out), and the target scale ends within [0.05, 5.0];
    nothing else changes. *)
Theorem onWheel_clamps (deltaY : Q) (g : Game) :
  let t := targetScale g - 0.002 * deltaY in
  let g' := onWheel deltaY g in
  (spectateMode g = false ∧ g' = g)
  ∨ (spectateMode g = true
     ∧ g' = set_targetScale (targetScale g') g
     ∧ 0.05 <= targetScale g' ∧ targetScale g' <= 5
     ∧ (0.05 <= t ∧ t <= 5 → targetScale g' == t)
     ∧ (t <= 0.05 → targetScale g' == 0.05)
     ∧ (5 <= t → targetScale g' == 5)).
Proof.
  intros t g'. unfold g', onWheel.
  destruct (spectateMode g) eqn:Es; simpl; [right|by left].
  split; [done|]. split; [done|].
  assert (Et : targetScale g + deltaY * - 0.002 == t) by (unfold t; ring).
  destruct (clamp_zoom (targetScale g + deltaY * - 0.002))
    as (H1 & H2 & H3 & H4 & H5).
  repeat split; try done.
  - intros [Ha Hb]. rewrite <- Et. apply H3. lra.
  - intros Ha. apply H4. lra.
  - intros Ha. apply H5. lra.
Qed.

(** What a step of the component keeps of the target scale: at least
    0.05, and at least 0.4 outside spectator mode. *)
Lemma handle_targetScale (e : Event) (g g' : Game) :
  handle Math_cos Math_sin Math_atan2 e g = Some g' →
  0.05 <= targetScale g ∧ (spectateMode g = false → 0.4 <= targetScale g) →
  0.05 <= targetScale g' ∧ (spectateMode g' = false → 0.4 <= targetScale g').
Proof.
  intros Hh Hg.
  destruct e as [sid|cfg|ff|score rnd|pid| |sid gs|now|cx cy iw ih| | | |
                |key code|dy|key code];
    simpl in Hh; try (injection Hh as <-).
  - unfold on_connect. by destruct (truthy sid).
  - done.
  - done.
  - done.
  - unfold on_init_player. by destruct (truthy pid).
  - done.
  - destruct (on_game_tick_flags sid gs g) as [_ ->].
    unfold on_game_tick, tickZoom.
    destruct (tickSnapshot_myId sid gs g) as (_ & _ & Et & _).
    destruct (lookupPlayer _ _) as [me|]; [|by rewrite Et].
    destruct (negb (isDead _)); [|by rewrite Et].
    simpl. pose proof (zoomTarget_floor (config (tickSnapshot sid gs g))
                         (p_length me)). split; [lra|done].
  - unfold renderLoop in Hh.
    destruct (updateVisuals_flags Math_cos Math_sin _ _ _ Hh) as [_ ->].
    apply updateVisuals_myId in Hh as (_ & _ & -> & _). done.
  - unfold onMouseMove. by destruct (negb (truthy (myId g)) || isDead g).
  - unfold startBoost. by destruct (truthy (myId g) && negb (isDead g)).
  - unfold endBoost. by destruct (truthy (myId g)).
  - unfold startBoostMouse. by destruct (truthy (myId g) && negb (isDead g)).
  - unfold endBoostMouse. by destruct (truthy (myId g)).
  - unfold onKeyDown.
    set (g0 := set_keysPressed _ g).
    set (g1 := if String.eqb (toLowerCase key) "s" then toggleSpectator g0
               else g0).
    assert (H1 : 0.05 <= targetScale g1
                 ∧ (spectateMode g1 = false → 0.4 <= targetScale g1)).
    { unfold g1. destruct (String.eqb (toLowerCase key) "s"); [|done].
      unfold toggleSpectator. by destruct (negb (spectateMode g0)). }
    set (g2 := if String.eqb (toLowerCase key) "c" then cheatBoost g1 else g1).
    assert (H2 : 0.05 <= targetScale g2
                 ∧ (spectateMode g2 = false → 0.4 <= targetScale g2)).
    { unfold g2. destruct (String.eqb (toLowerCase key) "c"); [|done].
      unfold cheatBoost. by destruct (truthy (myId g1) && negb (isDead g1)). }
    destruct (String.eqb code "Space"); [|done].
    unfold startBoost. by destruct (truthy (myId g2) && negb (isDead g2)).
  - unfold onWheel. destruct (spectateMode g) eqn:Es; simpl.
    + split; [|by rewrite Es].
      apply (clamp_zoom (targetScale g + dy * - 0.002)).
    + split; [apply Hg|]. intros _. by apply Hg.
  - unfold onKeyUp. destruct (String.eqb code "Space"); [|done].
    unfold endBoost. simpl. by destruct (truthy (myId g)).
Qed.

(** X6: the target scale never leaves its range: in every state reached from a
    state with a target of at least 0.4 outside spectator mode and 0.05 in it
    (the initial state has 1), the target is at least 0.05, and at least 0.4
    outside spectator mode. *)
Theorem target_scale_floor (es : list Event) : ∀ g g' : Game,
  run Math_cos Math_sin Math_atan2 es g = Some g' →
  0.05 <= targetScale g →
  (spectateMode g = false → 0.4 <= targetScale g) →
  0.05 <= targetScale g' ∧ (spectateMode g' = false → 0.4 <= targetScale g').
Proof.
  induction es as [|e es IH]; intros g g' Hrun H1 H2.
  - simpl in Hrun. by injection Hrun as <-.
  - simpl in Hrun.
    destruct (handle Math_cos Math_sin Math_atan2 e g) as [g1|] eqn:Hh;
      [|discriminate].
    simpl in Hrun.
    destruct (handle_targetScale e g g1 Hh (conj H1 H2)) as [H3 H4].
    by apply (IH g1 g').
Qed.

End Controls.

(** ** Camera and scale in a frame *)




Section Camera.

Variable Math_cos Math_sin : Q -> Q.







End Camera.

(** ** Visual players that have no authoritative player *)



Lemma stepVisual_keys (s : Q) (pid : string) (p : Player) (pa : loc)
  (vis : VisualPlayer) (h h' : Heap) (vps vps' : gmap string VisualPlayer) :
  stepVisual s pid p pa vis h vps = Some (h', vps') →
  ∀ k, k ≠ pid → vps' !! k = vps !! k.
Proof.
  unfold stepVisual. intros H k Hk.
  destruct (reconcileBody h (vis_body vis) pa) as [h1|]; [|discriminate].
  cbn [mbind option_bind] in H.
  destruct (arrays h1 !! pa) as [pal|]; [|discriminate].
  cbn [mbind option_bind] in H.
  destruct (head pal) as [th|]; [|discriminate].
  cbn [mbind option_bind] in H.
  destruct (points h1 !! th) as [tgt|]; [|discriminate].
  cbn [mbind option_bind] in H.
  destruct (hypot_gt _ _ _).
  - destruct (copyBody h1 pa) as [[h2 a]|]; [|discriminate].
    cbn [mbind option_bind] in H. injection H as <- <-.
    by rewrite lookup_insert_ne.
  - destruct (wrapDiff _) as [diff|]; [|discriminate].
    cbn [mbind option_bind] in H.
    destruct (lerpBody _ _ _ _ _ _) as [h2|]; [|discriminate].
    cbn [mbind option_bind] in H. injection H as <- <-.
    by rewrite lookup_insert_ne.
Qed.

Lemma stepPlayer_keys (s : Q) (pid : string) (p : Player) (h h' : Heap)
  (vps vps' : gmap string VisualPlayer) :
  stepPlayer s pid p (h, vps) = Some (h', vps') →
  ∀ k, k ≠ pid → vps' !! k = vps !! k.
Proof.
  unfold stepPlayer. intros H k Hk.
  destruct (p_body p) as [pa|]; [|by injection H as <- <-].
  destruct (arrays h !! pa) as [pal|]; [|discriminate].
  cbn [mbind option_bind] in H.
  case_bool_decide; [by injection H as <- <-|].
  destruct (vps !! pid) as [vis|] eqn:Ev.
  - cbn [mbind option_bind] in H. by eapply stepVisual_keys.
  - destruct (createVisual h p pa) as [[h1 vis]|]; [|discriminate].
    cbn [mbind option_bind] in H. by eapply stepVisual_keys.
Qed.


Section Stale.

Variable Math_cos Math_sin : Q -> Q.


End Stale.

(** ** Score and player count of a tick *)




(** ** Food diffs *)

(** X13: a food diff can be applied twice: a tick delivered again changes
    nothing. *)
Theorem food_diff_idempotent (d : option FoodDiff)
  (fd : gmap string FoodItem) :
  applyFoodDiff d (applyFoodDiff d fd) = applyFoodDiff d fd.
Proof.
  destruct d as [[ad rs]|]; [|done]. unfold applyFoodDiff. simpl.
  apply map_eq. intros k.
  destruct ad as [ad|], rs as [rs|];
    rewrite ?assignFood_lookup, ?removeFood_lookup, ?assignFood_lookup,
      ?removeFood_lookup;
    repeat case_match; try done; by destruct (decide (k ∈ rs)).
Qed.


(** ** Culling and zoom *)

(** X15: zooming out never hides food: an item that is drawn at one scale is
    drawn at every smaller positive scale. *)
Theorem zooming_out_keeps_food (g : Game) (width height s : Q)
  (f : FoodItem) :
  0 <= width → 0 <= height → 0 < s → s <= currentScale g →
  foodCulled g width height f = false →
  foodCulled (set_currentScale s g) width height f = false.
Proof.
  intros Hw Hh Hs Hle. unfold foodCulled. simpl.
  rewrite !orb_false_iff, !Qgtb_false. intros [Hx Hy].
  pose proof (Qdiv_antitone width s (currentScale g) Hw Hs Hle).
  pose proof (Qdiv_antitone height s (currentScale g) Hh Hs Hle).
  split; lra.
Qed.

(** X16: zooming out never hides a snake either. *)
Theorem zooming_out_keeps_snakes (g : Game) (width s : Q) (pid : string) :
  0 <= width → 0 < s → s <= currentScale g →
  playerSkipped g width pid = false →
  playerSkipped (set_currentScale s g) width pid = false.
Proof.
  intros Hw Hs Hle. unfold playerSkipped. simpl.
  destruct (isDead g && String.eqb pid (myId g)); [done|].
  destruct (visualPlayers g !! pid) as [vis|]; [|done].
  destruct (arrays (heap g) !! vis_body vis) as [vbl|]; [|done].
  case_bool_decide; [done|].
  rewrite !Qgtb_false. intros Hx.
  pose proof (Qdiv_antitone width s (currentScale g) Hw Hs Hle). lra.
Qed.

(** * Properties of the drawing code *)

(** ** Loops of the drawing code *)

(** The indices that [for (let i = a; i < n; i += k)] visits. *)
Lemma forLoop_stride (body : nat → option (list ctx.Cmd)) (n k : nat) :
  (1 <= k)%nat →
  ∀ fuel i : nat, (n <= i + fuel)%nat →
  forLoop fuel i n k body
  = @concat _ <$> mapM body ((fun j => i + j * k)%nat
                            <$> seq 0 ((n - i + k - 1) / k)).
Proof.
  intros Hk. induction fuel as [|fuel IH]; intros i Hn.
  - simpl. destruct (i <? n)%nat eqn:E; [apply Nat.ltb_lt in E; lia|].
    replace ((n - i + k - 1) / k)%nat with 0%nat; [done|].
    symmetry. apply Nat.div_small. lia.
  - simpl. destruct (i <? n)%nat eqn:E.
    + apply Nat.ltb_lt in E.
      assert (Hc : ((n - i + k - 1) / k
                    = S ((n - (i + k) + k - 1) / k))%nat).
      { replace (n - i + k - 1)%nat with (n - i - 1 + 1 * k)%nat by lia.
        rewrite Nat.div_add by lia.
        destruct (decide (i + k <= n)%nat) as [Hle|Hgt].
        - replace (n - (i + k) + k - 1)%nat with (n - i - 1)%nat by lia. lia.
        - replace (n - (i + k) + k - 1)%nat with (k - 1)%nat by lia.
          rewrite !Nat.div_small by lia. lia. }
      rewrite Hc. rewrite <- cons_seq, fmap_cons. simpl.
      replace (i + 0)%nat with i by lia.
      rewrite IH by lia.
      rewrite <- fmap_S_seq, <- list_fmap_compose.
      destruct (body i) as [cs|]; simpl; [|done].
      erewrite (list_fmap_ext _ ((fun j => (i + j * k)%nat) ∘ S));
        [|intros ? ? _; simpl; lia].
      destruct (mapM body _); done.
    + apply Nat.ltb_ge in E.
      replace ((n - i + k - 1) / k)%nat with 0%nat; [done|].
      symmetry. apply Nat.div_small. lia.
Qed.


Lemma forLoop_Forall (P : ctx.Cmd → Prop)
  (body : nat → option (list ctx.Cmd)) (n k : nat) :
  (∀ j cs, (j < n)%nat → body j = Some cs → Forall P cs) →
  ∀ (fuel i : nat) (cs : list ctx.Cmd),
  forLoop fuel i n k body = Some cs → Forall P cs.
Proof.
  intros Hb. induction fuel as [|fuel IH]; intros i cs H; simpl in H.
  - destruct (i <? n)%nat; [discriminate|]. injection H as <-. constructor.
  - destruct (i <? n)%nat eqn:E; [|injection H as <-; constructor].
    apply Nat.ltb_lt in E.
    destruct (body i) as [c1|] eqn:E1; [|discriminate]. simpl in H.
    destruct (forLoop fuel (i + k) n k body) as [rest|] eqn:E2;
      [|discriminate].
    simpl in H. injection H as <-. apply Forall_app. split.
    + by apply (Hb i).
    + by apply (IH (i + k)%nat).
Qed.

Lemma gridLoop_Forall (P : ctx.Cmd → Prop) (ms : Q)
  (line : Q → list ctx.Cmd) :
  (∀ x, x <= ms → Forall P (line x)) →
  ∀ (fuel : nat) (x : Q) (cs : list ctx.Cmd),
  gridLoop fuel x ms line = Some cs → Forall P cs.
Proof.
  intros Hb. induction fuel as [|fuel IH]; intros x cs H; simpl in H.
  - destruct (Qle_bool x ms); [discriminate|]. injection H as <-.
    constructor.
  - destruct (Qle_bool x ms) eqn:E; [|injection H as <-; constructor].
    apply Qle_bool_iff in E.
    destruct (gridLoop fuel (x + 100) ms line) as [rest|] eqn:E2;
      [|discriminate].
    simpl in H. injection H as <-. apply Forall_app. split.
    + by apply Hb.
    + by apply (IH (x + 100)).
Qed.

(** The fuel of [drawGrid] is enough. *)
Lemma gridLoop_total (ms : Q) (line : Q → list ctx.Cmd) :
  ∀ (fuel : nat) (x : Q),
  ms - x < 100 * inject_Z (Z.of_nat fuel) →
  is_Some (gridLoop fuel x ms line).
Proof.
  induction fuel as [|fuel IH]; intros x Hx; simpl.
  - destruct (Qle_bool x ms) eqn:E; [|done].
    apply Qle_bool_iff in E.
    change (inject_Z (Z.of_nat 0)) with 0 in Hx. lra.
  - destruct (Qle_bool x ms) eqn:E; [|done].
    destruct (IH (x + 100)) as [rest ->]; [|done].
    rewrite Nat2Z.inj_succ in Hx. unfold Z.succ in Hx.
    rewrite inject_Z_plus in Hx. change (inject_Z 1) with 1 in Hx. lra.
Qed.

Lemma gridFuel_enough (ms : Q) :
  ms - 0 < 100 * inject_Z (Z.of_nat (gridFuel ms)).
Proof.
  unfold gridFuel.
  pose proof (Qlt_floor (ms / 100)) as Hf.
  assert (Hm : ms == ms / 100 * 100) by (field; lra).
  destruct (Z_le_gt_dec 0 (Qfloor (ms / 100) + 1)) as [H|H].
  - rewrite Z2Nat.id by exact H. lra.
  - assert (E : Z.to_nat (Qfloor (ms / 100) + 1) = 0%nat) by lia.
    rewrite E. change (inject_Z (Z.of_nat 0)) with 0.
    assert (Hn : inject_Z (Qfloor (ms / 100) + 1) <= 0).
    { rewrite <- (Zle_Qle _ 0). lia. }
    lra.
Qed.


(** ** The stack of saved canvas states *)

Lemma stackAfter_app (a b : list ctx.Cmd) : ∀ d : nat,
  stackAfter d (a ++ b) = stackAfter d a ≫= fun d' => stackAfter d' b.
Proof.
  induction a as [|c a IH]; intros d; [done|].
  destruct c; simpl; try apply IH.
  destruct d; [done|]. apply IH.
Qed.

(** The calls [cs] leave the stack as they found it. *)
Lemma neutral_app (a b : list ctx.Cmd) :
  (∀ d, stackAfter d a = Some d) → (∀ d, stackAfter d b = Some d) →
  ∀ d, stackAfter d (a ++ b) = Some d.
Proof. intros Ha Hb d. rewrite stackAfter_app, Ha. simpl. apply Hb. Qed.

Lemma neutral_concat (ls : list (list ctx.Cmd)) :
  Forall (fun cs => ∀ d, stackAfter d cs = Some d) ls →
  ∀ d, stackAfter d (concat ls) = Some d.
Proof.
  induction 1 as [|cs ls Hc _ IH]; [done|]. simpl. by apply neutral_app.
Qed.

Lemma neutral_plain (cs : list ctx.Cmd) :
  Forall plainCall cs →
  ∀ d, stackAfter d cs = Some d.
Proof.
  induction 1 as [|c cs [Hs Hr] _ IH]; intros d; [done|].
  destruct c; simpl; try apply IH; done.
Qed.

Lemma neutral_wrap (cs : list ctx.Cmd) :
  (∀ d, stackAfter d cs = Some d) →
  ∀ d, stackAfter d (ctx.save :: cs ++ [ctx.restore]) = Some d.
Proof. intros Hc d. simpl. rewrite stackAfter_app, Hc. done. Qed.

Lemma neutral_flat_map {A : Type} (f : A → list ctx.Cmd) (l : list A) :
  (∀ x, ∀ d, stackAfter d (f x) = Some d) →
  ∀ d, stackAfter d (flat_map f l) = Some d.
Proof.
  intros Hf. induction l as [|x l IH]; [done|]. simpl. by apply neutral_app.
Qed.

Lemma forLoop_neutral (body : nat → option (list ctx.Cmd)) (n k : nat) :
  (∀ j cs, body j = Some cs → ∀ d, stackAfter d cs = Some d) →
  ∀ (fuel i : nat) (cs : list ctx.Cmd),
  forLoop fuel i n k body = Some cs → ∀ d, stackAfter d cs = Some d.
Proof.
  intros Hb. induction fuel as [|fuel IH]; intros i cs H; simpl in H.
  - destruct (i <? n)%nat; [discriminate|]. by injection H as <-.
  - destruct (i <? n)%nat; [|by injection H as <-].
    destruct (body i) as [c1|] eqn:E1; [|discriminate]. simpl in H.
    destruct (forLoop fuel (i + k) n k body) as [rest|] eqn:E2;
      [|discriminate].
    simpl in H. injection H as <-. apply neutral_app.
    + by apply (Hb i).
    + by apply (IH (i + k)%nat).
Qed.

Lemma gridLoop_neutral (ms : Q) (line : Q → list ctx.Cmd) :
  (∀ x d, stackAfter d (line x) = Some d) →
  ∀ (fuel : nat) (x : Q) (cs : list ctx.Cmd),
  gridLoop fuel x ms line = Some cs → ∀ d, stackAfter d cs = Some d.
Proof.
  intros Hb. induction fuel as [|fuel IH]; intros x cs H; simpl in H.
  - destruct (Qle_bool x ms); [discriminate|]. by injection H as <-.
  - destruct (Qle_bool x ms); [|by injection H as <-].
    destruct (gridLoop fuel (x + 100) ms line) as [rest|] eqn:E2;
      [|discriminate].
    simpl in H. injection H as <-. apply neutral_app; [apply Hb|].
    by apply (IH (x + 100)).
Qed.

(** ** [render] keeps the canvas state and runs to the end *)

Ltac plain_calls :=
  repeat first
    [ apply List.Forall_nil
    | apply List.Forall_cons; [split; discriminate|]
    | apply Forall_app; split ].

Lemma lineToAll_plain (pts : list Point) (cs : list ctx.Cmd) :
  lineToAll pts = Some cs → Forall plainCall cs.
Proof.
  apply forLoop_Forall. intros j c _ H.
  destruct (pts !! j); [|discriminate]. injection H as <-. plain_calls.
Qed.

Lemma strokeBody_plain (pts : list Point) (cs : list ctx.Cmd) :
  strokeBody pts = Some cs → Forall plainCall cs.
Proof.
  unfold strokeBody. intros H.
  destruct (pts !! 0%nat) as [b0|]; [|discriminate]. simpl in H.
  destruct (lineToAll pts) as [ls|] eqn:E; [|discriminate].
  injection H as <-. apply lineToAll_plain in E. plain_calls; done.
Qed.

Lemma stripeMarks_plain (pts : list Point) (cs : list ctx.Cmd) :
  stripeMarks pts = Some cs → Forall plainCall cs.
Proof.
  apply forLoop_Forall. intros j c _ H.
  destruct (j + 1 <? length pts)%nat; [|injection H as <-; plain_calls].
  destruct (pts !! j); [|discriminate]. simpl in H.
  destruct (pts !! (j + 1)%nat); [|discriminate].
  injection H as <-. plain_calls.
Qed.

Lemma spotMarks_plain (radius : Q) (pts : list Point) (cs : list ctx.Cmd) :
  spotMarks radius pts = Some cs → Forall plainCall cs.
Proof.
  apply forLoop_Forall. intros j c _ H.
  destruct (pts !! j); [|discriminate]. injection H as <-. plain_calls.
Qed.

Lemma drawCurve_plain (pts : list Point) (cs : list ctx.Cmd) :
  drawCurve pts = Some cs → Forall plainCall cs.
Proof.
  unfold drawCurve. intros H.
  destruct (pts !! 0%nat) as [b0|]; [|discriminate]. simpl in H.
  destruct (2 <? length pts)%nat.
  - destruct (forLoop _ _ _ _ _) as [mids|] eqn:E; [|discriminate].
    simpl in H.
    destruct (pts !! Nat.max 1 (length pts - 2)) as [b|]; [|discriminate].
    simpl in H.
    destruct (pts !! (Nat.max 1 (length pts - 2) + 1)%nat) as [b1|];
      [|discriminate].
    injection H as <-.
    assert (Hm : Forall plainCall mids).
    { revert E. apply forLoop_Forall. intros j c _ Hj.
      destruct (pts !! j); [|discriminate]. simpl in Hj.
      destruct (pts !! (j + 1)%nat); [|discriminate].
      injection Hj as <-. plain_calls. }
    plain_calls; done.
  - destruct (lineToAll pts) as [ls|] eqn:E; [|discriminate].
    injection H as <-. apply lineToAll_plain in E. plain_calls; done.
Qed.

Lemma drawEyes_neutral (x y angle radius : Q) :
  ∀ d, stackAfter d (drawEyes x y angle radius) = Some d.
Proof. done. Qed.

Lemma drawName_neutral (cfg : Config) (x y : Q) (name : string) (radius : Q)
  (state : string) :
  ∀ d, stackAfter d (drawName cfg x y name radius state) = Some d.
Proof.
  intros d. unfold drawName.
  destruct (negb (truthy name)); [done|].
  by destruct (DEBUG_MODE cfg && truthy state).
Qed.

Lemma drawDebugLines_neutral (lines : list DebugLine) :
  ∀ d, stackAfter d (drawDebugLines lines) = Some d.
Proof.
  intros d. unfold drawDebugLines. simpl.
  rewrite stackAfter_app, neutral_flat_map; done.
Qed.

Lemma drawStripe_neutral (pts : list Point) (cs : list ctx.Cmd) :
  drawStripe pts = Some cs → ∀ d, stackAfter d cs = Some d.
Proof.
  unfold drawStripe. intros H.
  destruct (strokeBody pts) as [body|] eqn:Eb; [|discriminate]. simpl in H.
  destruct (stripeMarks pts) as [marks|] eqn:Em; [|discriminate].
  injection H as <-.
  apply strokeBody_plain in Eb. apply stripeMarks_plain in Em.
  apply neutral_app; [by apply neutral_plain|].
  intros d. simpl. by rewrite stackAfter_app, (neutral_plain marks Em).
Qed.

Lemma drawSnake_neutral (cfg : Config) (isMe : bool) (p : Player) (lk : Look)
  (vis : VisualPlayer) (pts : list Point) (cs : list ctx.Cmd) :
  drawSnake cfg isMe p lk vis pts = Some cs →
  ∀ d, stackAfter d cs = Some d.
Proof.
  unfold drawSnake. intros H.
  set (radius := snakeRadius lk (p_length p)) in *.
  match type of H with
  | context [?s ≫= _] => destruct s as [shape|] eqn:Es; [|discriminate]
  end.
  injection H as <-.
  assert (Hs : ∀ d, stackAfter d shape = Some d).
  { destruct (negb (DEBUG_MODE cfg)).
    - destruct (String.eqb (lk_skin lk) "stripe");
        [by apply (drawStripe_neutral pts)|].
      destruct (String.eqb (lk_skin lk) "spot").
      + unfold drawSpot in Es.
        destruct (strokeBody pts) as [body|] eqn:Eb; [|discriminate].
        simpl in Es.
        destruct (spotMarks radius pts) as [spots|] eqn:Em; [|discriminate].
        injection Es as <-.
        apply strokeBody_plain in Eb. apply spotMarks_plain in Em.
        apply neutral_plain. plain_calls; done.
      + apply neutral_plain. by apply (drawCurve_plain pts).
    - injection Es as <-. unfold drawCircles. intros d. simpl.
      by apply neutral_flat_map. }
  repeat apply neutral_app; try done.
  - by destruct (lk_boosting lk).
  - by destruct (DEBUG_MODE cfg).
  - apply drawName_neutral.
  - destruct (DEBUG_MODE cfg); [|done].
    destruct (lk_debug_lines lk); [|done]. apply drawDebugLines_neutral.
Qed.

Lemma drawMinimapPlayer_plain (ms : Q) (isMe : bool) (vis : VisualPlayer)
  (pts : list Point) (cs : list ctx.Cmd) :
  drawMinimapPlayer ms isMe vis pts = Some cs → Forall plainCall cs.
Proof.
  unfold drawMinimapPlayer. intros H.
  destruct (pts !! 0%nat) as [b0|]; [|discriminate]. simpl in H.
  destruct (forLoop _ _ _ _ _) as [trail|] eqn:E; [|discriminate].
  injection H as <-.
  assert (Ht : Forall plainCall trail).
  { revert E. apply forLoop_Forall. intros j c _ Hj.
    destruct (pts !! j); [|discriminate]. injection Hj as <-. plain_calls. }
  plain_calls; done.
Qed.

Lemma drawMinimapEntry_plain (ms : Q) (g : Game) (pid : string) (p : Player)
  (cs : list ctx.Cmd) :
  drawMinimapEntry ms g pid p = Some cs → Forall plainCall cs.
Proof.
  unfold drawMinimapEntry. intros H.
  destruct (isDead g && String.eqb pid (myId g));
    [injection H as <-; constructor|].
  destruct (p_body p) as [pa|]; [|injection H as <-; constructor].
  destruct (arrays (heap g) !! pa) as [pal|]; [|discriminate]. simpl in H.
  case_bool_decide; [injection H as <-; constructor|].
  destruct (visualPlayers g !! pid) as [vis|];
    [|injection H as <-; constructor].
  destruct (bodyPoints (heap g) (vis_body vis)) as [pts|]; [|discriminate].
  simpl in H. by apply drawMinimapPlayer_plain in H.
Qed.

Lemma mapM_Forall_out {A B : Type} (P : B → Prop) (f : A → option B)
  (l : list A) (k : list B) :
  (∀ x y, x ∈ l → f x = Some y → P y) → mapM f l = Some k → Forall P k.
Proof.
  intros Hf H. apply mapM_Some_1 in H.
  induction H as [|x y l k Hxy _ IH]; constructor.
  - apply (Hf x); [by left|done].
  - apply IH. intros x' y' Hin. apply Hf. by right.
Qed.

Lemma drawMinimap_neutral (w h ms : Q) (g : Game) (cs : list ctx.Cmd) :
  drawMinimap w h ms g = Some cs → ∀ d, stackAfter d cs = Some d.
Proof.
  unfold drawMinimap. intros H.
  destruct (mapM _ (players g)) as [entries|] eqn:E; [|discriminate].
  injection H as <-.
  assert (He : Forall plainCall (concat entries)).
  { apply Forall_concat. revert E. apply mapM_Forall_out.
    intros [pid p] c _ Hc. by apply drawMinimapEntry_plain in Hc. }
  intros d. simpl.
  by rewrite stackAfter_app, (neutral_plain (concat entries) He).
Qed.

Lemma imap_Forall {A B : Type} (P : B → Prop) (l : list A) :
  ∀ f : nat → A → B, (∀ i x, P (f i x)) → Forall P (imap f l).
Proof.
  induction l as [|x l IH]; intros f Hf; simpl; constructor; [apply Hf|].
  apply IH. intros i y. apply Hf.
Qed.

Lemma drawLeaderboard_plain (w : Q) (lb : list (string * Q)) :
  Forall plainCall (drawLeaderboard w lb).
Proof.
  unfold drawLeaderboard. case_bool_decide; [constructor|].
  plain_calls. apply Forall_concat. apply imap_Forall.
  intros i e. unfold drawLeaderboardEntry. plain_calls.
Qed.

Lemma drawDeathScreen_neutral (width height : Q) (g : Game) :
  ∀ d, stackAfter d (drawDeathScreen width height g) = Some d.
Proof.
  intros d. unfold drawDeathScreen.
  by destruct (isDead g && negb (spectateMode g)).
Qed.

Lemma drawGrid_plain (ms : Q) (cs : list ctx.Cmd) :
  drawGrid ms = Some cs → Forall plainCall cs.
Proof.
  unfold drawGrid. intros H.
  destruct (gridLoop (gridFuel ms) 0 ms
              (fun x => [ctx.moveTo x 0; ctx.lineTo x ms]))
    as [cols|] eqn:Ec; [|discriminate].
  simpl in H.
  destruct (gridLoop (gridFuel ms) 0 ms
              (fun y => [ctx.moveTo 0 y; ctx.lineTo ms y]))
    as [rows|] eqn:Er; [|discriminate].
  injection H as <-.
  assert (Hc : Forall plainCall cols).
  { revert Ec. apply gridLoop_Forall. intros x _. plain_calls. }
  assert (Hr : Forall plainCall rows).
  { revert Er. apply gridLoop_Forall. intros x _. plain_calls. }
  plain_calls; done.
Qed.

Section RenderState.

Variable Math_sin : Q -> Q.
Variable look : string -> Look.
Variable dateNow : string -> Q.

Lemma drawSnakeEntry_neutral (width : Q) (g : Game) (pid : string)
  (p : Player) (cs : list ctx.Cmd) :
  drawSnakeEntry look width g pid p = Some cs →
  ∀ d, stackAfter d cs = Some d.
Proof.
  unfold drawSnakeEntry. intros H.
  destruct (playerSkipped g width pid); [by injection H as <-|].
  destruct (visualPlayers g !! pid) as [vis|]; [|discriminate]. simpl in H.
  destruct (bodyPoints (heap g) (vis_body vis)) as [pts|]; [|discriminate].
  simpl in H. by eapply drawSnake_neutral.
Qed.

(** X17: [render] leaves the canvas state as it found it: every [restore]
    answers a [save] of the same frame, and no [save] is left open, for any
    skin, in debug mode or not, and on the death screen. *)
Theorem render_restores_canvas_state (width height : Q) (g : Game)
  (cs : list ctx.Cmd) :
  render Math_sin look dateNow width height g = Some cs →
  ∀ d, stackAfter d cs = Some d.
Proof.
  unfold render. intros H.
  destruct (MAP_SIZE (config g)) as [ms|]; [|discriminate]. simpl in H.
  destruct (drawGrid ms) as [grid|] eqn:Eg; [|discriminate]. simpl in H.
  destruct (mapM _ (players g)) as [snakes|] eqn:Es; [|discriminate].
  simpl in H.
  destruct (drawMinimap width height ms g) as [mini|] eqn:Em; [|discriminate].
  injection H as <-.
  apply drawGrid_plain in Eg.
  assert (Hf : ∀ d, stackAfter d
                 (flat_map (fun e => if foodCulled g width height (snd e)
                                     then []
                                     else drawFood Math_sin (dateNow (fst e))
                                                   (snd e))
                           (map_to_list (food g))) = Some d).
  { apply neutral_flat_map. intros [fid f] d. simpl.
    by destruct (foodCulled g width height f). }
  assert (Hs : ∀ d, stackAfter d (concat snakes) = Some d).
  { apply neutral_concat. revert Es. apply mapM_Forall_out.
    intros [pid p] c _ Hc. by eapply drawSnakeEntry_neutral. }
  pose proof (drawMinimap_neutral _ _ _ _ _ Em) as Hm.
  intros d. simpl.
  rewrite stackAfter_app, (neutral_plain grid Eg). simpl.
  rewrite stackAfter_app, Hf. simpl.
  rewrite stackAfter_app, Hs. simpl.
  rewrite stackAfter_app, Hm. simpl.
  rewrite stackAfter_app, (neutral_plain _ (drawLeaderboard_plain _ _)). simpl.
  apply drawDeathScreen_neutral.
Qed.

End RenderState.

(** ** [render] reads no point that is not there *)









Section RenderRuns.

Variable Math_cos Math_sin : Q -> Q.
Variable Math_atan2 : Q -> Q -> Q.
Variable look : string -> Look.
Variable dateNow : string -> Q.





End RenderRuns.

(** ** The shapes that [render] draws *)

(** A loop of stride 1 whose iterations make one call each. *)
Lemma forLoop_singletons (body : nat → option (list ctx.Cmd))
  (f : nat → option ctx.Cmd) (n : nat) :
  (∀ j, (j < n)%nat → is_Some (f j)) →
  (∀ j, (j < n)%nat → body j = (fun c => [c]) <$> f j) →
  ∀ fuel i : nat, (n <= i + fuel)%nat →
  ∃ cs, forLoop fuel i n 1 body = Some cs
        ∧ length cs = (n - i)%nat
        ∧ ∀ j, (j < n - i)%nat → cs !! j = f (i + j)%nat.
Proof.
  intros Hf Hb. induction fuel as [|fuel IH]; intros i Hn; simpl.
  - destruct (i <? n)%nat eqn:E; [apply Nat.ltb_lt in E; lia|].
    apply Nat.ltb_ge in E. exists []. split; [done|].
    split; [simpl; lia|]. intros j Hj. lia.
  - destruct (i <? n)%nat eqn:E.
    + apply Nat.ltb_lt in E. rewrite (Hb i E).
      destruct (Hf i E) as [c Hc]. rewrite Hc. simpl.
      destruct (IH (i + 1)%nat) as (rest & -> & Hlen & Hrest); [lia|].
      simpl. exists (c :: rest). split; [done|].
      split; [simpl; lia|].
      intros [|j] Hj; simpl.
      * by rewrite Nat.add_0_r.
      * rewrite Hrest by lia. f_equal. lia.
    + apply Nat.ltb_ge in E. exists []. split; [done|].
      split; [simpl; lia|]. intros j Hj. lia.
Qed.

(** X19: the standard curve of a body of at least three points starts at the
    head and is made of one quadratic curve per inner point: its control point
    is that body point, and it ends halfway to the next point, except for the
    last curve, which ends on the tail. *)
Theorem standard_curve_ends_at_tail (pts : list Point) :
  (3 <= length pts)%nat →
  ∃ b0 segs,
    pts !! 0%nat = Some b0
    ∧ drawCurve pts
      = Some (ctx.beginPath :: ctx.moveTo (pt_x b0) (pt_y b0)
                :: segs ++ [ctx.stroke])
    ∧ length segs = (length pts - 2)%nat
    ∧ ∀ i b b1,
        pts !! (i + 1)%nat = Some b → pts !! (i + 2)%nat = Some b1 →
        segs !! i
        = Some (if decide (i + 3 = length pts)%nat
                then ctx.quadraticCurveTo (pt_x b) (pt_y b)
                                          (pt_x b1) (pt_y b1)
                else ctx.quadraticCurveTo (pt_x b) (pt_y b)
                       ((pt_x b + pt_x b1) / 2) ((pt_y b + pt_y b1) / 2)).
Proof.
  intros Hn. unfold drawCurve.
  destruct (lookup_lt_is_Some_2 pts 0) as [b0 Hb0]; [lia|].
  rewrite Hb0. simpl.
  assert (E : (2 <? length pts)%nat = true) by (apply Nat.ltb_lt; lia).
  rewrite E.
  set (f := fun i : nat =>
              b ← pts !! i; b1 ← pts !! (i + 1)%nat;
              Some (ctx.quadraticCurveTo (pt_x b) (pt_y b)
                      ((pt_x b + pt_x b1) / 2) ((pt_y b + pt_y b1) / 2))).
  destruct (forLoop_singletons
              (fun i => b ← pts !! i; b1 ← pts !! (i + 1)%nat;
                        Some [ctx.quadraticCurveTo (pt_x b) (pt_y b)
                                ((pt_x b + pt_x b1) / 2)
                                ((pt_y b + pt_y b1) / 2)])
              f (length pts - 2)) with (fuel := length pts) (i := 1%nat)
    as (mids & Hm & Hlen & Hmids).
  { intros j Hj. unfold f.
    destruct (lookup_lt_is_Some_2 pts j) as [b ->]; [lia|].
    destruct (lookup_lt_is_Some_2 pts (j + 1)) as [b1 ->]; [lia|]. done. }
  { intros j Hj. unfold f.
    destruct (pts !! j) as [b|]; [|done]. simpl.
    by destruct (pts !! (j + 1)%nat) as [b1|]. }
  { lia. }
  rewrite Hm. simpl.
  replace (Nat.max 1 (length pts - 2)) with (length pts - 2)%nat by lia.
  destruct (lookup_lt_is_Some_2 pts (length pts - 2)) as [bl Hbl]; [lia|].
  destruct (lookup_lt_is_Some_2 pts (length pts - 2 + 1)) as [bt Hbt]; [lia|].
  rewrite Hbl, Hbt. simpl.
  exists b0, (mids ++ [ctx.quadraticCurveTo (pt_x bl) (pt_y bl)
                         (pt_x bt) (pt_y bt)]).
  split; [done|]. split; [done|].
  split; [rewrite length_app; simpl; lia|].
  intros i b b1 Hb Hb1.
  assert (Hi : (i + 2 < length pts)%nat) by (by eapply lookup_lt_Some).
  destruct (decide (i + 3 = length pts)%nat) as [Hlast|Hmid].
  - rewrite lookup_app_r by lia.
    replace (i - length mids)%nat with 0%nat by lia. simpl.
    replace (length pts - 2)%nat with (i + 1)%nat in Hbl, Hbt by lia.
    replace (i + 1 + 1)%nat with (i + 2)%nat in Hbt by lia.
    congruence.
  - rewrite lookup_app_l by lia. rewrite Hmids by lia. unfold f.
    replace (1 + i)%nat with (i + 1)%nat by lia.
    replace (i + 1 + 1)%nat with (i + 2)%nat by lia.
    by rewrite Hb, Hb1.
Qed.

(** ** The minimap *)

Lemma minimap_coordinate (x ms : Q) :
  0 < ms → 0 <= x → x <= ms → 0 <= x / ms * 150 ∧ x / ms * 150 <= 150.
Proof.
  intros Hms H0 H1.
  assert (Hq0 : 0 <= x / ms) by (by apply Qdiv_nonneg).
  assert (Hq1 : x / ms <= 1).
  { apply Qle_shift_div_r; lra. }
  split; nra.
Qed.

(** X20: a player that is inside the map is inside the minimap: when the
    points of the visual body and the visual head lie in the square of the
    map, every point of its trail and its head dot lie in the square of side
    150 of the minimap. *)
Theorem minimap_stays_in_its_box (ms : Q) (isMe : bool) (vis : VisualPlayer)
  (pts : list Point) (cs : list ctx.Cmd) :
  0 < ms →
  Forall (fun b => 0 <= pt_x b ∧ pt_x b <= ms ∧ 0 <= pt_y b ∧ pt_y b <= ms)
         pts →
  0 <= vis_x vis → vis_x vis <= ms → 0 <= vis_y vis → vis_y vis <= ms →
  drawMinimapPlayer ms isMe vis pts = Some cs →
  pathWithin 150 cs.
Proof.
  intros Hms Hpts Hx0 Hx1 Hy0 Hy1. unfold drawMinimapPlayer. intros H.
  destruct (pts !! 0%nat) as [b0|] eqn:E0; [|discriminate]. simpl in H.
  destruct (forLoop _ _ _ _ _) as [trail|] eqn:Et; [|discriminate].
  injection H as <-.
  assert (Hin : ∀ j b, pts !! j = Some b →
            0 <= pt_x b / ms * 150 ∧ pt_x b / ms * 150 <= 150
            ∧ 0 <= pt_y b / ms * 150 ∧ pt_y b / ms * 150 <= 150).
  { intros j b Hj.
    pose proof (proj1 (Forall_lookup _ _) Hpts j b Hj) as (Ha & Hb & Hc & Hd).
    destruct (minimap_coordinate (pt_x b) ms Hms Ha Hb).
    destruct (minimap_coordinate (pt_y b) ms Hms Hc Hd). done. }
  assert (Ht : pathWithin 150 trail).
  { revert Et. apply forLoop_Forall. intros j c _ Hj.
    destruct (pts !! j) as [b|] eqn:Ej; [|discriminate].
    injection Hj as <-. constructor; [|constructor].
    intros x y Hp. injection Hp as <- <-. by apply (Hin j). }
  unfold pathWithin.
  repeat first
    [ apply List.Forall_nil
    | apply List.Forall_cons
    | apply Forall_app; split ];
    try exact Ht; try (intros x y Hp; discriminate Hp).
  - intros x y Hp. injection Hp as <- <-. by apply (Hin 0%nat).
  - intros x y Hp. injection Hp as <- <-.
    destruct (minimap_coordinate (vis_x vis) ms Hms Hx0 Hx1).
    destruct (minimap_coordinate (vis_y vis) ms Hms Hy0 Hy1). done.
Qed.

(** ** The leaderboard *)



(** ** The grid *)

Lemma gridLoop_within (P : ctx.Cmd → Prop) (ms : Q)
  (line : Q → list ctx.Cmd) :
  (∀ x, 0 <= x → x <= ms → Forall P (line x)) →
  ∀ (fuel : nat) (x : Q) (cs : list ctx.Cmd),
  0 <= x → gridLoop fuel x ms line = Some cs → Forall P cs.
Proof.
  intros Hb. induction fuel as [|fuel IH]; intros x cs Hx H; simpl in H.
  - destruct (Qle_bool x ms); [discriminate|]. injection H as <-.
    constructor.
  - destruct (Qle_bool x ms) eqn:E; [|injection H as <-; constructor].
    apply Qle_bool_iff in E.
    destruct (gridLoop fuel (x + 100) ms line) as [rest|] eqn:E2;
      [|discriminate].
    simpl in H. injection H as <-. apply Forall_app. split.
    + by apply Hb.
    + apply (IH (x + 100)); [lra|done].
Qed.

Lemma gridLoop_covers (ms : Q) (line : Q → list ctx.Cmd) :
  ∀ (fuel : nat) (x : Q) (cs : list ctx.Cmd),
  gridLoop fuel x ms line = Some cs →
  ∀ k : nat, x + 100 * inject_Z (Z.of_nat k) <= ms →
  ∃ x', x' == x + 100 * inject_Z (Z.of_nat k)
        ∧ ∀ c, c ∈ line x' → c ∈ cs.
Proof.
  induction fuel as [|fuel IH]; intros x cs H k Hk; simpl in H.
  - assert (Hx : x <= ms).
    { assert (0 <= inject_Z (Z.of_nat k)) by (rewrite <- (Zle_Qle 0); lia).
      lra. }
    apply Qle_bool_iff in Hx. rewrite Hx in H. discriminate.
  - assert (Hx : x <= ms).
    { assert (0 <= inject_Z (Z.of_nat k)) by (rewrite <- (Zle_Qle 0); lia).
      lra. }
    apply Qle_bool_iff in Hx. rewrite Hx in H.
    destruct (gridLoop fuel (x + 100) ms line) as [rest|] eqn:E2;
      [|discriminate].
    simpl in H. injection H as <-.
    destruct k as [|k].
    + exists x. split; [change (inject_Z (Z.of_nat 0)) with 0; ring|].
      intros c Hc. apply elem_of_app. by left.
    + assert (Ek : inject_Z (Z.of_nat (S k)) == inject_Z (Z.of_nat k) + 1).
      { rewrite Nat2Z.inj_succ. unfold Z.succ. by rewrite inject_Z_plus. }
      destruct (IH (x + 100) rest E2 k) as (x' & Hx' & Hin).
      { rewrite Ek in Hk. lra. }
      exists x'. split; [rewrite Hx', Ek; ring|].
      intros c Hc. apply elem_of_app. right. by apply Hin.
Qed.

Lemma gridLoop_empty (ms : Q) (line : Q → list ctx.Cmd) (fuel : nat) (x : Q) :
  ms < x → gridLoop fuel x ms line = Some [].
Proof.
  intros Hx.
  assert (E : Qle_bool x ms = false).
  { destruct (Qle_bool x ms) eqn:E; [|done].
    apply Qle_bool_iff in E. lra. }
  destruct fuel; simpl; by rewrite E.
Qed.

(** X22: the grid has a vertical and a horizontal line at every multiple of
    100 from 0 to [MAP_SIZE], each across the whole map, and no line outside
    the map; a negative [MAP_SIZE] gives no line at all. *)
Theorem grid_covers_the_map (ms : Q) :
  ∃ cols rows,
    drawGrid ms
    = Some ([ctx.strokeStyle "#222"; ctx.lineWidth 2; ctx.beginPath]
            ++ cols ++ rows ++ [ctx.stroke])
    ∧ pathWithin ms (cols ++ rows)
    ∧ (∀ k : nat, 100 * inject_Z (Z.of_nat k) <= ms →
       (∃ x, x == 100 * inject_Z (Z.of_nat k)
             ∧ ctx.moveTo x 0 ∈ cols ∧ ctx.lineTo x ms ∈ cols)
       ∧ (∃ y, y == 100 * inject_Z (Z.of_nat k)
               ∧ ctx.moveTo 0 y ∈ rows ∧ ctx.lineTo ms y ∈ rows))
    ∧ (ms < 0 → cols = [] ∧ rows = []).
Proof.
  unfold drawGrid.
  destruct (gridLoop_total ms (fun x => [ctx.moveTo x 0; ctx.lineTo x ms])
              (gridFuel ms) 0 (gridFuel_enough ms)) as [cols Ec].
  destruct (gridLoop_total ms (fun y => [ctx.moveTo 0 y; ctx.lineTo ms y])
              (gridFuel ms) 0 (gridFuel_enough ms)) as [rows Er].
  rewrite Ec. simpl. rewrite Er. simpl.
  exists cols, rows. split; [done|]. split; [|split].
  - apply Forall_app. split.
    + revert Ec. apply gridLoop_within; [|lra].
      intros x H0 H1. constructor; [|constructor; [|constructor]];
        intros a b Hp; injection Hp as <- <-; lra.
    + revert Er. apply gridLoop_within; [|lra].
      intros x H0 H1. constructor; [|constructor; [|constructor]];
        intros a b Hp; injection Hp as <- <-; lra.
  - intros k Hk.
    destruct (gridLoop_covers ms _ _ _ _ Ec k) as (x & Hx & Hc); [lra|].
    destruct (gridLoop_covers ms _ _ _ _ Er k) as (y & Hy & Hr); [lra|].
    split.
    + exists x. split; [rewrite Hx; ring|].
      split; apply Hc; [by left|right; by left].
    + exists y. split; [rewrite Hy; ring|].
      split; apply Hr; [by left|right; by left].
  - intros Hneg. split.
    + rewrite gridLoop_empty in Ec by lra. by injection Ec as <-.
    + rewrite gridLoop_empty in Er by lra. by injection Er as <-.
Qed.

(** ** The radius of a snake *)

(** X23: a non-zero [radius] sent by the server is the radius of the snake.
    Without one the radius grows with the length by one unit per 20, from 10
    at length 0 to 35 from length 500 on. *)
Theorem snakeRadius_range (lk : Look) (len len' : Q) :
  (∀ q, lk_radius lk = Some q → ¬ q == 0 → snakeRadius lk len = q)
  ∧ ((∀ q, lk_radius lk = Some q → q == 0) →
     0 <= len →
     10 <= snakeRadius lk len ∧ snakeRadius lk len <= 35
     ∧ (len < 20 → snakeRadius lk len == 10)
     ∧ (500 <= len → snakeRadius lk len == 35)
     ∧ (len <= len' → snakeRadius lk len <= snakeRadius lk len')).
Proof.
  unfold snakeRadius, orDefault. split.
  - intros q -> Hq. destruct (Qeq_bool q 0) eqn:E; [|done].
    apply Qeq_bool_iff in E. done.
  - intros Hno Hlen.
    assert (Hd : ∀ l, (match lk_radius lk with
                       | Some q => if Qeq_bool q 0
                                   then 10 + Qmin 25 (inject_Z (Qfloor (l / 20)))
                                   else q
                       | None => 10 + Qmin 25 (inject_Z (Qfloor (l / 20)))
                       end) = 10 + Qmin 25 (inject_Z (Qfloor (l / 20)))).
    { intros l. destruct (lk_radius lk) as [q|]; [|done].
      specialize (Hno q eq_refl). apply Qeq_bool_iff in Hno. by rewrite Hno. }
    rewrite !Hd.
    assert (Hf0 : 0 <= inject_Z (Qfloor (len / 20))).
    { rewrite <- (Zle_Qle 0). change 0%Z with (Qfloor 0).
      apply Qfloor_resp_le. apply Qdiv_nonneg; lra. }
    pose proof (Q.le_min_l 25 (inject_Z (Qfloor (len / 20)))) as Hm1.
    pose proof (Q.min_glb 25 (inject_Z (Qfloor (len / 20))) 0) as Hm0.
    split; [lra|]. split; [lra|]. split; [|split].
    + intros Hs.
      assert (Hz : inject_Z (Qfloor (len / 20)) <= 0).
      { pose proof (Qfloor_le (len / 20)) as Hle.
        assert (Hlt : inject_Z (Qfloor (len / 20)) < 1).
        { apply Qle_lt_trans with (len / 20); [exact Hle|].
          apply Qlt_shift_div_r; lra. }
        change 1 with (inject_Z 1) in Hlt. rewrite <- Zlt_Qlt in Hlt.
        rewrite <- (Zle_Qle _ 0). lia. }
      pose proof (Q.le_min_r 25 (inject_Z (Qfloor (len / 20)))). lra.
    + intros Hb.
      assert (Hz : 25 <= inject_Z (Qfloor (len / 20))).
      { change 25 with (inject_Z (Qfloor 25)). rewrite <- Zle_Qle.
        apply Qfloor_resp_le. apply Qle_shift_div_l; lra. }
      rewrite (Q.min_l 25 _ Hz). reflexivity.
    + intros Hle.
      assert (Hz : inject_Z (Qfloor (len / 20))
                   <= inject_Z (Qfloor (len' / 20))).
      { rewrite <- Zle_Qle. apply Qfloor_resp_le.
        apply Qdiv_monotone; lra. }
      pose proof (Q.min_le_compat_l _ _ 25 Hz). lra.
Qed.

(** ** The component never gets stuck *)

Section Total.

Variable Math_cos Math_sin : Q -> Q.
Variable Math_atan2 : Q -> Q -> Q.



End Total.

(** * The points of a visual body *)

Lemma NoDup_grown (h : Heap) (vbl extra : list loc) (n : nat) :
  NoDup vbl → NoDup extra → allocated h vbl →
  Forall (fun l => points h !! l = None) extra →
  NoDup (take n (vbl ++ extra)).
Proof.
  intros Hv He Hal Hfr.
  eapply sublist_NoDup; [|apply sublist_take].
  apply NoDup_app. split; [exact Hv|]. split; [|exact He].
  intros l Hl Hl'.
  unfold allocated in Hal. rewrite Forall_forall in Hal, Hfr.
  destruct (Hal l Hl) as [pt Hpt]. rewrite (Hfr l Hl') in Hpt. discriminate.
Qed.

(** The visual body that [stepVisual] leaves has distinct points. *)
Lemma stepVisual_distinct (s : Q) (pid : string) (p : Player) (pa : loc)
  (vis : VisualPlayer) (h h' : Heap) (vps vps' : gmap string VisualPlayer)
  (pal vbl : list loc) :
  paired h pa vis pal vbl → NoDup vbl →
  stepVisual s pid p pa vis h vps = Some (h', vps') →
  ∃ vis' vbl', vps' = <[pid := vis']> vps
    ∧ arrays h' !! vis_body vis' = Some vbl' ∧ NoDup vbl'.
Proof.
  intros Hp Hnd Hstep.
  pose proof Hp as (Hpa & Hne & Halp & Hvb & Hnev & Halv & Hsep).
  destruct pal as [|th rest] eqn:Epal; [done|]. rewrite <- Epal in *.
  assert (Hth : head pal = Some th) by (by rewrite Epal).
  assert (Htgt : is_Some (points h !! th)).
  { unfold allocated in Halp. rewrite Forall_forall in Halp. apply Halp.
    rewrite Epal. left. }
  destruct Htgt as [tgt Htgt].
  destruct (hypot_gt (pt_x tgt - vis_x vis) (pt_y tgt - vis_y vis) 500)
    eqn:Efar.
  - destruct (stepVisual_snap s pid p pa vis h vps pal vbl th tgt
                Hp Hth Htgt Efar)
      as (h1 & h2 & a & ls' & _ & _ & Hs & _ & _ & _ & Ha2 & _ & _ & Hnd'
          & _).
    rewrite Hs in Hstep. injection Hstep as <- <-.
    eexists _, ls'. split; [reflexivity|]. simpl. done.
  - destruct (stepVisual_reconcile h pa vis pal vbl Hp)
      as (h1 & extra & Hr & Ha1 & _ & Hfr & Hndx & _ & _ & _ & Hp1 & Hlen1).
    destruct (stepVisual_lerp s pid p pa vis h vps pal vbl th tgt
                Hp Hth Htgt Efar)
      as (h1' & extra' & w & h2 & Hr' & _ & Hl & Hs & _).
    assert (h1' = h1) by congruence. subst h1'.
    pose proof Hp1 as (Hpa1 & _ & Halp1 & Hvb1 & _ & Halv1 & _).
    destruct (lerpBody_spec s (vis_body vis) pa pal
                (take (length pal) (vbl ++ extra)) Hlen1 (length pal) 0%nat h1
                Hpa1 Hvb1 Halp1 Halv1) as (h2' & Hl' & Ha2 & _); [lia|].
    assert (h2' = h2) by congruence. subst h2'.
    rewrite Hs in Hstep. injection Hstep as <- <-.
    eexists _, (take (length pal) (vbl ++ extra)).
    split; [reflexivity|]. simpl. rewrite Ha2. split; [exact Hvb1|].
    by apply (NoDup_grown h).
Qed.

Lemma stepPlayer_distinct (s : Q) (pid : string) (p : Player) (h h' : Heap)
  (vps vps' : gmap string VisualPlayer) (ps : list (string * Player)) :
  wfWorld h ps vps → visApart h vps → visDistinct h vps → (pid, p) ∈ ps →
  stepPlayer s pid p (h, vps) = Some (h', vps') →
  visDistinct h' vps'.
Proof.
  intros Hwf Hap Hd Hin Hstep.
  destruct (stepPlayer_apart s pid p h vps ps h' vps' Hwf Hap Hin Hstep)
    as (_ & Hvs & _).
  pose proof (stepPlayer_keys s pid p h h' vps vps' Hstep) as Hkeys.
  assert (Hmine : ∀ vis' vbl', vps' !! pid = Some vis' →
            arrays h' !! vis_body vis' = Some vbl' → NoDup vbl').
  { pose proof Hwf as (Hauth & Hvis & Hsep).
    unfold stepPlayer in Hstep.
    destruct (p_body p) as [pa|] eqn:Hb.
    2: { injection Hstep as <- <-. intros vis' vbl'. apply Hd. }
    destruct (Hauth pid p pa Hin Hb) as (pal & Hpa & Halp).
    rewrite Hpa in Hstep. cbn [mbind option_bind] in Hstep.
    case_bool_decide as Hne.
    { injection Hstep as <- <-. intros vis' vbl'. apply Hd. }
    destruct pal as [|th rest] eqn:Epal; [done|]. rewrite <- Epal in *.
    destruct (vps !! pid) as [vis|] eqn:Hv.
    - cbn [mbind option_bind] in Hstep.
      destruct (Hvis pid vis Hv) as (vbl & Hvb & Hnev & Halv).
      assert (Hp : paired h pa vis pal vbl).
      { repeat split; try done.
        by destruct (Hsep pid vis vbl pid p pa pal Hv Hvb Hin Hb Hpa). }
      destruct (stepVisual_distinct s pid p pa vis h h' vps vps' pal vbl
                  Hp (Hd pid vis vbl Hv Hvb) Hstep)
        as (vis1 & vbl1 & -> & Ha1 & Hnd1).
      intros vis' vbl' Hv' Ha'. rewrite lookup_insert_eq in Hv'.
      injection Hv' as <-. congruence.
    - assert (Hth : head pal = Some th) by (by rewrite Epal).
      assert (Htgt : is_Some (points h !! th)).
      { unfold allocated in Halp. rewrite Forall_forall in Halp. apply Halp.
        rewrite Epal. left. }
      destruct Htgt as [tgt Htgt].
      destruct (createVisual_spec h p pa pal th tgt Hpa Halp Hth Htgt)
        as (h1 & a & ls' & Hc & Hfa & Ha1 & Hsub & Hfr & Hal1 & Hnd & Hval
            & _).
      rewrite Hc in Hstep. cbn [mbind option_bind] in Hstep.
      assert (Hp : paired h1 pa (mkVisual (pt_x tgt) (pt_y tgt) (p_angle p) a)
                     pal ls').
      { assert (Hne' : a ≠ pa) by congruence.
        repeat split; simpl.
        - by rewrite Ha1, lookup_insert_ne.
        - exact Hne.
        - by apply (allocated_weaken h h1).
        - by rewrite Ha1, lookup_insert_eq.
        - intros ->. apply Forall2_length in Hval. rewrite Epal in Hval.
          simpl in Hval. lia.
        - exact Hal1.
        - exact Hne'. }
      destruct (stepVisual_distinct s pid p pa _ h1 h' vps vps' pal ls'
                  Hp Hnd Hstep)
        as (vis1 & vbl1 & -> & Ha1' & Hnd1).
      intros vis' vbl' Hv' Ha'. rewrite lookup_insert_eq in Hv'.
      injection Hv' as <-. congruence. }
  intros k v vbl Hv Ha.
  destruct (decide (k = pid)) as [->|Hne]; [by eapply Hmine|].
  rewrite (Hkeys k Hne) in Hv.
  destruct (Hvs k v Hne Hv) as [Harr _]. rewrite Harr in Ha.
  by apply (Hd k v vbl).
Qed.

Lemma stepPlayers_distinct (s : Q) (ps qs : list (string * Player)) :
  ∀ (h h' : Heap) (vps vps' : gmap string VisualPlayer),
  wfWorld h ps vps → visApart h vps → visDistinct h vps →
  (∀ e, e ∈ qs → e ∈ ps) →
  stepPlayers s qs (h, vps) = Some (h', vps') →
  visDistinct h' vps'.
Proof.
  induction qs as [|[pid p] qs IH]; intros h h' vps vps' Hwf Hap Hd Hsub H.
  - simpl in H. by injection H as <- <-.
  - assert (Hin : (pid, p) ∈ ps) by (apply Hsub; left).
    destruct (stepPlayer_world s pid p h vps ps Hwf Hin)
      as (h1 & vps1 & Hstep & Hwf1 & _).
    destruct (stepPlayer_apart s pid p h vps ps h1 vps1 Hwf Hap Hin Hstep)
      as (Hap1 & _).
    rewrite stepPlayers_cons, Hstep in H. cbn [mbind option_bind] in H.
    apply (IH h1 h' vps1 vps' Hwf1 Hap1); [|by intros e He; apply Hsub; right
                                           |exact H].
    by apply (stepPlayer_distinct s pid p h h1 vps vps1 ps).
Qed.

Section Distinct.

Variable Math_cos Math_sin : Q -> Q.
Variable Math_atan2 : Q -> Q -> Q.

Lemma updateVisuals_distinct (dt : Q) (g g' : Game) :
  wfGame g → visDistinct (heap g) (visualPlayers g) →
  updateVisuals Math_cos Math_sin dt g = Some g' →
  visDistinct (heap g') (visualPlayers g').
Proof.
  intros [Hwf Hap] Hd Hu. unfold updateVisuals in Hu.
  destruct (interpolate _ _ _ _ _) as [[h vps]|] eqn:Ei; [|discriminate].
  simpl in Hu. injection Hu as <-.
  destruct (updateCamera_world Math_cos Math_sin dt
              (set_visualPlayers vps (set_heap h g))) as (-> & _ & ->).
  simpl. unfold interpolate in Ei.
  apply (stepPlayers_distinct (10.0 * dt) (players g) (players g) (heap g) h
           (cleanupVisuals (players g) (myId g) (visualPlayers g)) vps).
  - by apply cleanupVisuals_wf.
  - by apply cleanupVisuals_apart.
  - intros k v vbl Hv. apply (Hd k v vbl).
    by apply (cleanupVisuals_lookup _ _ _ _ _ Hv).
  - done.
  - exact Ei.
Qed.

Lemma handle_distinct (e : Event) (g g' : Game) :
  handle Math_cos Math_sin Math_atan2 e g = Some g' →
  wfGame g → visDistinct (heap g) (visualPlayers g) →
  visDistinct (heap g') (visualPlayers g').
Proof.
  intros Hh Hwf Hd.
  destruct e as [sid|cfg|ff|score rnd|pid| |sid gs|now|cx cy iw ih| | | |
                |key code|dy|key code];
    simpl in Hh; try (injection Hh as <-).
  - unfold on_connect. by destruct (truthy sid).
  - done.
  - done.
  - done.
  - unfold on_init_player. by destruct (truthy pid).
  - done.
  - unfold on_game_tick.
    destruct (tickZoom_fields (tickSnapshot sid gs g))
      as (_ & _ & _ & _ & _ & -> & -> & _).
    destruct (tickSnapshot_fields sid gs g)
      as (_ & _ & _ & -> & _ & -> & _).
    destruct (loadPlayers_spec (gs_players gs) (heap g))
      as (h' & ps & Hl & Ha & _). rewrite Hl. simpl.
    intros k v vbl Hv Hvb.
    destruct Hwf as [(_ & Hvis & _) _].
    destruct (Hvis k v Hv) as (vbl0 & Hvb0 & _).
    rewrite (lookup_weaken _ _ _ _ Hvb0 Ha) in Hvb. injection Hvb as <-.
    by apply (Hd k v).
  - unfold renderLoop in Hh.
    apply (updateVisuals_distinct ((now - lastTime g) / 1000)
             (set_lastTime now g) g'); [|done|done].
    by apply (wfGame_ext g).
  - unfold onMouseMove. by destruct (negb (truthy (myId g)) || isDead g).
  - unfold startBoost. by destruct (truthy (myId g) && negb (isDead g)).
  - unfold endBoost. by destruct (truthy (myId g)).
  - unfold startBoostMouse. by destruct (truthy (myId g) && negb (isDead g)).
  - unfold endBoostMouse. by destruct (truthy (myId g)).
  - unfold onKeyDown.
    set (g0 := set_keysPressed _ g).
    set (g1 := if String.eqb (toLowerCase key) "s" then toggleSpectator g0
               else g0).
    assert (H1 : visDistinct (heap g1) (visualPlayers g1)).
    { unfold g1. destruct (String.eqb (toLowerCase key) "s"); [|done].
      unfold toggleSpectator. by destruct (negb (spectateMode g0)). }
    set (g2 := if String.eqb (toLowerCase key) "c" then cheatBoost g1 else g1).
    assert (H2 : visDistinct (heap g2) (visualPlayers g2)).
    { unfold g2. destruct (String.eqb (toLowerCase key) "c"); [|done].
      unfold cheatBoost. by destruct (truthy (myId g1) && negb (isDead g1)). }
    destruct (String.eqb code "Space"); [|done].
    unfold startBoost. by destruct (truthy (myId g2) && negb (isDead g2)).
  - unfold onWheel. by destruct (negb (spectateMode g)).
  - unfold onKeyUp. destruct (String.eqb code "Space"); [|done].
    unfold endBoost. simpl. by destruct (truthy (myId g)).
Qed.

(** In every state that the component reaches from its initial state, the
    points of a visual body are distinct objects: no point is interpolated
    twice in a frame. *)
Lemma run_distinct (es : list Event) : ∀ g g' : Game,
  run Math_cos Math_sin Math_atan2 es g = Some g' →
  wfGame g → visDistinct (heap g) (visualPlayers g) →
  wfGame g' ∧ visDistinct (heap g') (visualPlayers g').
Proof.
  induction es as [|e es IH]; intros g g' Hrun Hwf Hd.
  - simpl in Hrun. by injection Hrun as <-.
  - simpl in Hrun.
    destruct (handle Math_cos Math_sin Math_atan2 e g) as [g1|] eqn:Hh;
      [|discriminate].
    simpl in Hrun. apply (IH g1 g' Hrun).
    + by apply (wfGame_handle Math_cos Math_sin Math_atan2 e g g1).
    + by apply (handle_distinct e g g1).
Qed.

End Distinct.

(** ** The interpolation of the body *)

Lemma body_interpolation_step (s : Q) (pid : string) (p : Player) (pa : loc)
  (vis : VisualPlayer) (h : Heap) (vps : gmap string VisualPlayer)
  (pal vbl : list loc) (th : loc) (tgt : Point) :
  p_body p = Some pa → vps !! pid = Some vis →
  paired h pa vis pal vbl → NoDup vbl → (∀ l, l ∈ vbl → l ∉ pal) →
  head pal = Some th → points h !! th = Some tgt →
  dist2 (pt_x tgt) (pt_y tgt) (vis_x vis) (vis_y vis) <= 500 * 500 →
  ∃ vpts tailpt apts h' vis',
    bodyPoints h (vis_body vis) = Some vpts
    ∧ last vpts = Some tailpt
    ∧ bodyPoints h pa = Some apts
    ∧ stepPlayer s pid p (h, vps) = Some (h', <[pid := vis']> vps)
    ∧ bodyPoints h' (vis_body vis')
      = Some (zip_with (lerpTo s)
                (take (length apts)
                   (vpts ++ replicate (length apts - length vpts) tailpt))
                apts)
    ∧ bodyPoints h' pa = Some apts.
Proof.
  intros Hb Hv Hp Hnd Hdisj Hth Htgt Hnear.
  pose proof Hp as (Hpa & Hne & Halp & Hvb & Hnev & Halv & Hsep).
  destruct (body_length_reconciled_step s pid p pa vis h vps pal vbl Hb Hv Hp)
    as (vpts & tailpt & h1 & Hvp & Hl & Hr & Hbr & Hlen & Hpa1 & _).
  destruct (stepVisual_reconcile h pa vis pal vbl Hp)
    as (h1' & extra & Hr' & Ha1 & Hsub1 & Hfr & Hndx & _ & _ & _ & Hp1
        & Hlen1).
  assert (h1' = h1) by congruence. subst h1'.
  assert (Efar : hypot_gt (pt_x tgt - vis_x vis) (pt_y tgt - vis_y vis) 500
                 = false).
  { apply hypot_gt_500_false. exact Hnear. }
  destruct (stepVisual_lerp s pid p pa vis h vps pal vbl th tgt
              Hp Hth Htgt Efar)
    as (h1' & extra' & w & h2 & Hr'' & _ & Hlb & Hs & _).
  assert (h1' = h1) by congruence. subst h1'.
  set (T := take (length pal) (vbl ++ extra)) in *.
  pose proof Hp1 as (_ & _ & Halp1 & Hvb1 & _ & Halv1 & _).
  destruct (lerpBody_spec s (vis_body vis) pa pal T Hlen1 (length pal) 0%nat
              h1 Hpa1 Hvb1 Halp1 Halv1)
    as (h2' & Hlb' & Ha2 & Hout & _ & Hval); [lia|].
  assert (h2' = h2) by congruence. subst h2'.
  assert (HndT : NoDup T) by (by apply (NoDup_grown h)).
  assert (HdisjT : ∀ l, l ∈ T → l ∉ pal).
  { intros l HlT HlP. apply elem_of_take in HlT as (i & HlT & _).
    apply list_elem_of_lookup_2 in HlT.
    apply elem_of_app in HlT as [HlT|HlT]; [by apply (Hdisj l)|].
    unfold allocated in Halp. rewrite Forall_forall in Halp, Hfr.
    destruct (Halp l HlP) as [pt Hpt]. rewrite (Hfr l HlT) in Hpt.
    discriminate. }
  specialize (Hval HndT HdisjT).
  destruct (allocated_values h pal Halp) as [apts Hapts].
  assert (Hla : length apts = length pal).
  { symmetry. by eapply Forall2_length. }
  assert (Hap1 : Forall2 (fun l pt => points h1 !! l = Some pt) pal apts).
  { eapply Forall2_impl; [exact Hapts|]. intros l pt Hlp.
    cbv beta in Hlp. by eapply lookup_weaken. }
  apply bodyPoints_Some in Hbr as (els & Hels & HR).
  assert (els = T) by congruence. subst els.
  eexists vpts, tailpt, apts, h2, _.
  split; [exact Hvp|]. split; [exact Hl|].
  split. { apply bodyPoints_Some. by exists pal. }
  split.
  { rewrite (stepPlayer_existing s pid p pa vis h vps pal); done. }
  simpl. split.
  - apply bodyPoints_Some. exists T. rewrite Ha2. split; [exact Hvb1|].
    rewrite Hla.
    apply Forall2_same_length_lookup. split.
    { rewrite length_zip_with. apply Forall2_length in HR. lia. }
    intros j l pt Hj Hpt.
    apply lookup_zip_with_Some in Hpt as (cur & tg & -> & Hcur & Htg).
    destruct (lookup_lt_is_Some_2 pal j) as [b Hbj].
    { apply lookup_lt_Some in Htg. lia. }
    pose proof (Forall2_lookup_lr _ _ _ _ _ _ HR Hj Hcur) as Hpc.
    pose proof (Forall2_lookup_lr _ _ _ _ _ _ Hap1 Hbj Htg) as Hpt.
    cbv beta in Hpc, Hpt.
    rewrite (Hval j l b cur tg Hj Hbj Hpc Hpt).
    destruct (decide (0 <= j)%nat); [done|lia].
  - apply bodyPoints_Some. exists pal. rewrite Ha2. split; [exact Hpa1|].
    apply Forall2_same_length_lookup. split; [lia|].
    intros j l pt Hj Hpt.
    rewrite Hout.
    + by apply (Forall2_lookup_lr _ _ _ _ _ _ Hap1 Hj Hpt).
    + intros HlT. apply (HdisjT l HlT). by eapply list_elem_of_lookup_2.
Qed.

Section Body.

Variable Math_cos Math_sin : Q -> Q.
Variable Math_atan2 : Q -> Q -> Q.

(** X25: in a state that the component reaches from its initial state, a frame
    that interpolates a player (its heads at most 500 apart) moves every
    point of the visual body by the fraction [10.0 * dt] of its gap to the
    authoritative point of the same index, after the visual body has been
    cut to the authoritative length or extended with copies of its tail
    point; the authoritative body is left as it was. *)
Theorem body_interpolation (now dt : Q) (es : list Event) (g : Game)
  (pid : string) (p : Player) (pa : loc) (pal : list loc) (th : loc)
  (tgt : Point) (vis : VisualPlayer) :
  run Math_cos Math_sin Math_atan2 es (initGame now) = Some g →
  NoDup (fst <$> players g) → (pid, p) ∈ players g →
  p_body p = Some pa → arrays (heap g) !! pa = Some pal →
  head pal = Some th → points (heap g) !! th = Some tgt →
  visualPlayers g !! pid = Some vis →
  dist2 (pt_x tgt) (pt_y tgt) (vis_x vis) (vis_y vis) <= 500 * 500 →
  ∃ vpts tailpt apts g' vis',
    bodyPoints (heap g) (vis_body vis) = Some vpts
    ∧ last vpts = Some tailpt
    ∧ bodyPoints (heap g) pa = Some apts
    ∧ updateVisuals Math_cos Math_sin dt g = Some g'
    ∧ visualPlayers g' !! pid = Some vis'
    ∧ bodyPoints (heap g') (vis_body vis')
      = Some (zip_with (lerpTo (10.0 * dt))
                (take (length apts)
                   (vpts ++ replicate (length apts - length vpts) tailpt))
                apts)
    ∧ bodyPoints (heap g') pa = Some apts.
Proof.
  intros Hrun Hnd Hin Hb Hpa Hth Htgt Hv Hnear.
  destruct (run_distinct Math_cos Math_sin Math_atan2 es _ _ Hrun
              (wfGame_initGame now)) as [Hwf Hd].
  { intros k v vbl Hk. simpl in Hk. rewrite lookup_empty in Hk.
    discriminate Hk. }
  destruct (updateVisuals_turn Math_cos Math_sin dt g pid p pa pal th tgt vis
              Hwf Hnd Hin Hb Hpa Hth Htgt Hv)
    as (h0 & vps0 & h1 & vps1 & g' & vbl & Hu & Hstep & Hv0 & Hp & Htgt0
        & Hsame0 & Hgr0 & Hvs0 & Hsame & Hend & Hvend).
  pose proof Hp as (_ & _ & _ & Hvb0 & _).
  assert (Hvbg : arrays (heap g) !! vis_body vis = Some vbl).
  { destruct Hvs0 as [E _]. by rewrite <- E. }
  pose proof Hwf as ((Hok & _ & Hsep) & _).
  destruct (Hsep pid vis vbl pid p pa pal Hv Hvbg Hin Hb Hpa) as [_ Hdisj].
  destruct (body_interpolation_step (10.0 * dt) pid p pa vis h0 vps0 pal vbl
              th tgt Hb Hv0 Hp (Hd pid vis vbl Hv Hvbg) Hdisj Hth Htgt0 Hnear)
    as (vpts & tailpt & apts & h1' & vis' & Hvp & Hl & Hap & Hstep' & Hbv
        & Hba).
  rewrite Hstep in Hstep'. injection Hstep' as <- ->.
  rewrite lookup_insert_eq in Hend.
  specialize (Hvend vis' (lookup_insert_eq _ _ _)).
  destruct (authSame_bodyPoints (heap g) h0 (players g) pid p pa
              Hsame0 Hok Hin Hb) as [E0 _].
  destruct (authSame_bodyPoints (heap g) (heap g') (players g) pid p pa
              Hsame Hok Hin Hb) as [E1 _].
  exists vpts, tailpt, apts, g', vis'.
  split; [by rewrite <- (visSame_bodyPoints (heap g) h0 vis Hvs0)|].
  split; [exact Hl|]. split; [by rewrite <- E0|]. split; [exact Hu|].
  split; [exact Hend|].
  split; [by rewrite (visSame_bodyPoints h1 (heap g') vis' Hvend)|].
  by rewrite E1, <- E0.
Qed.

(** X26: in every state that the component reaches from its initial state, the
    points of each visual body are distinct objects, and no visual body shares
    its array or a point with an authoritative body or with another visual
    body. *)
Theorem visual_bodies_are_not_aliased (now : Q) (es : list Event) (g : Game) :
  run Math_cos Math_sin Math_atan2 es (initGame now) = Some g →
  visDistinct (heap g) (visualPlayers g)
  ∧ separated (heap g) (players g) (visualPlayers g)
  ∧ visApart (heap g) (visualPlayers g).
Proof.
  intros Hrun.
  destruct (run_distinct Math_cos Math_sin Math_atan2 es _ _ Hrun
              (wfGame_initGame now)) as [[(_ & _ & Hsep) Hap] Hd].
  { intros k v vbl Hk. simpl in Hk. rewrite lookup_empty in Hk.
    discriminate Hk. }
  done.
Qed.

End Body.

(** ** The further statements on concrete games *)

Lemma idleGame_reached :
  run noTrig noTrig noAtan2 idleEvents connectedGame = Some idleGame.
Proof. vm_compute. reflexivity. Qed.

Lemma known_id_is_kept_witness :
  truthy (myId idleGame) = true ∧ myId idleGame = "me"%string.
Proof.
  destruct (known_id_is_kept noTrig noTrig noAtan2 idleEvents connectedGame
              idleGame idleGame_reached eq_refl) as [H1 H2].
  split; [exact H1|]. apply H2.
  - intros sid H. unfold idleEvents in H.
    repeat (apply elem_of_cons in H as [H|H]; [discriminate H|]).
    by apply elem_of_nil in H.
  - intros id H. unfold idleEvents in H.
    repeat (apply elem_of_cons in H as [H|H]; [discriminate H|]).
    by apply elem_of_nil in H.
Defined.

Lemma no_input_without_id_witness :
  ∃ new,
    emitted (onKeyDown "S" "Space" (initGame 0))
    = emitted (initGame 0) ++ new
    ∧ Forall (fun m => m = enter_spectator ∨ m = request_respawn) new
    ∧ (new ≠ [] → ∃ key code, EvKeyDown "S" "Space" = EvKeyDown key code
                              ∧ toLowerCase key = "s"%string).
Proof.
  exact (no_input_without_id noTrig noTrig noAtan2 (EvKeyDown "S" "Space")
           (initGame 0) (onKeyDown "S" "Space" (initGame 0))
           eq_refl eq_refl).
Defined.

Lemma dead_player_sends_no_input_witness :
  ∃ new,
    emitted (onKeyUp " " "Space" (on_death 5 0 connectedGame))
    = emitted (on_death 5 0 connectedGame) ++ new
    ∧ Forall (fun m => m = boost_update false) new.
Proof.
  apply (dead_player_sends_no_input noTrig noTrig noAtan2
           (EvKeyUp " " "Space") (on_death 5 0 connectedGame)
           (onKeyUp " " "Space" (on_death 5 0 connectedGame))
           eq_refl eq_refl).
  intros key code H. discriminate H.
Defined.


Lemma scrolledGame_reached :
  run noTrig noTrig noAtan2 scrollEvents (initGame 0) = Some scrolledGame.
Proof. vm_compute. reflexivity. Qed.

Lemma target_scale_floor_witness :
  0.05 <= targetScale scrolledGame
  ∧ (spectateMode scrolledGame = false → 0.4 <= targetScale scrolledGame).
Proof.
  apply (target_scale_floor noTrig noTrig noAtan2 scrollEvents (initGame 0)
           scrolledGame scrolledGame_reached).
  - discriminate.
  - intros _. discriminate.
Defined.










Lemma zooming_out_keeps_food_witness :
  foodCulled (set_currentScale 0.5 (initGame 0)) 800 600 rightFood = false.
Proof.
  apply (zooming_out_keeps_food (initGame 0) 800 600 0.5 rightFood).
  - discriminate.
  - discriminate.
  - reflexivity.
  - discriminate.
  - reflexivity.
Defined.

Lemma zooming_out_keeps_snakes_witness :
  playerSkipped (set_currentScale 0.5 lateFrame) 800 "b" = false.
Proof.
  apply (zooming_out_keeps_snakes lateFrame 800 0.5 "b").
  - discriminate.
  - reflexivity.
  - vm_compute. discriminate.
  - vm_compute. reflexivity.
Defined.

Lemma lateFrame_rendered :
  render noTrig stripedLook noClock 800 600 lateFrame = Some lateFrameCalls.
Proof. vm_compute. reflexivity. Qed.

Lemma render_restores_canvas_state_witness :
  ∃ cs, render noTrig stripedLook noClock 800 600 lateFrame = Some cs
        ∧ stackAfter 0 cs = Some 0%nat.
Proof.
  exists lateFrameCalls. split; [exact lateFrame_rendered|].
  exact (render_restores_canvas_state noTrig stripedLook noClock 800 600
           lateFrame lateFrameCalls lateFrame_rendered 0%nat).
Defined.


Lemma standard_curve_ends_at_tail_witness :
  ∃ segs,
    drawCurve fourPoints
    = Some (ctx.beginPath :: ctx.moveTo 0 0 :: segs ++ [ctx.stroke])
    ∧ length segs = 2%nat
    ∧ segs !! 0%nat = Some (ctx.quadraticCurveTo 10 0 ((10 + 20) / 2)
                                                 ((0 + 10) / 2))
    ∧ segs !! 1%nat = Some (ctx.quadraticCurveTo 20 10 30 10).
Proof.
  destruct (standard_curve_ends_at_tail fourPoints)
    as (b0 & segs & H0 & Hd & Hl & Hs).
  - simpl. lia.
  - injection H0 as <-. exists segs. split; [exact Hd|].
    split; [exact Hl|]. split.
    + exact (Hs 0%nat _ _ eq_refl eq_refl).
    + exact (Hs 1%nat _ _ eq_refl eq_refl).
Defined.

Lemma minimap_stays_in_its_box_witness :
  ∃ cs,
    drawMinimapPlayer 5000 true (mkVisual 100 200 0 1%positive)
                      [mkPoint 100 200; mkPoint 90 200] = Some cs
    ∧ pathWithin 150 cs.
Proof.
  eexists. split; [reflexivity|].
  apply (minimap_stays_in_its_box 5000 true (mkVisual 100 200 0 1%positive)
           [mkPoint 100 200; mkPoint 90 200]).
  - reflexivity.
  - repeat constructor; discriminate.
  - discriminate.
  - discriminate.
  - discriminate.
  - discriminate.
  - reflexivity.
Defined.

Lemma body_interpolation_witness :
  ∃ g' vis' pts',
    updateVisuals noTrig noTrig (1 # 20) beforeFrame = Some g'
    ∧ visualPlayers g' !! "b"%string = Some vis'
    ∧ bodyPoints (heap g') (vis_body vis') = Some pts'
    ∧ Forall2 Point_eq pts' [mkPoint 50 0; mkPoint 45 0; mkPoint 40 0].
Proof.
  destruct (body_interpolation noTrig noTrig noAtan2 0 (1 # 20)
              [EvGameTick "me" lerpTick0; EvFrame 16; EvGameTick "me" lerpTick1]
              beforeFrame "b" (mkPlayer (Some 3%positive) 1 20) 3%positive
              [3%positive; 4%positive; 5%positive] 3%positive (mkPoint 100 0)
              (mkVisual 0.0000 0.0000 0.0000 2%positive))
    as (vpts & tailpt & apts & g' & vis' & Hvp & Hl & Hap & Hu & Hv & Hbv & _).
  - exact beforeFrame_reached.
  - rewrite beforeFrame_players. apply NoDup_one_key.
  - rewrite beforeFrame_players. left.
  - reflexivity.
  - vm_compute. reflexivity.
  - reflexivity.
  - vm_compute. reflexivity.
  - vm_compute. reflexivity.
  - vm_compute. discriminate.
  - vm_compute in Hvp. injection Hvp as <-.
    vm_compute in Hl. injection Hl as <-.
    vm_compute in Hap. injection Hap as <-.
    eexists g', vis', _. split; [exact Hu|]. split; [exact Hv|].
    split; [exact Hbv|].
    repeat constructor; vm_compute; reflexivity.
Defined.

Lemma visual_bodies_are_not_aliased_witness :
  visDistinct (heap beforeFrame) (visualPlayers beforeFrame)
  ∧ separated (heap beforeFrame) (players beforeFrame)
              (visualPlayers beforeFrame)
  ∧ visApart (heap beforeFrame) (visualPlayers beforeFrame).
Proof.
  exact (visual_bodies_are_not_aliased noTrig noTrig noAtan2 0
           [EvGameTick "me" lerpTick0; EvFrame 16; EvGameTick "me" lerpTick1]
           beforeFrame beforeFrame_reached).
Defined.
